(** * function-inline-loader: a model of the macro-expansion engine

    The repository ships two variants of one webpack loader,
    [function-inline-loader.js] (a single regex sweep over the host source)
    and [js-inline-loader.js] (an iterative re-parse of the host source).
    Both share, character for character, the functions
    [getExportedFunctions], [replaceIdentifier], [compileArgumentAst] and
    [loadModuleContents]; they differ in [renderFunction] and in the driver.

    The syntax trees are the plain JavaScript objects that esprima returns.
    The code walks them by dynamic field enumeration ([Object.keys]), so the
    model keeps them as untyped JavaScript values.  A property read on
    [null] or [undefined] throws; the functions are therefore modelled with
    their exceptions.

    Conventions: text is ASCII; numbers are integers; a tree object is the
    list of its own properties in insertion order.  The two tables keyed by
    names are plain objects as well: a finite map of their own keys, with
    the prototype behind it.  [Object.prototype] has the members the
    language gives it; a field that the walk of a module sets on it is
    followed to the end of that walk.  What lies outside the repository
    (esprima, escodegen, the file system, the webpack context) is a
    parameter, the record [host]. *)

From Stdlib Require Import String Ascii ZArith List Bool Lia.
From stdpp Require Import base option list gmap strings pretty.
Import ListNotations.

Set Warnings "-register-all".

Local Open Scope string_scope.
Local Open Scope Z_scope.

(** ** JavaScript values

    Numbers are the integers (lengths, ranges, integer literals); an object
    is its list of own enumerable properties in insertion order, which is
    the order [Object.keys] reports. *)

Inductive value : Type :=
| VUndef
| VNull
| VBool (b : bool)
| VNum (n : Z)
| VStr (s : string)
| VArr (xs : list value)
| VObj (fs : list (string * value)).

(** Exceptions: the runtime's [TypeError] (a property read or a method call
    on a value that does not allow it) and the error esprima throws on text
    it cannot parse. *)

Inductive exn : Type :=
| TypeError
| SyntaxError (msg : string).

Inductive res (A : Type) : Type :=
| Ok (a : A)
| Throw (e : exn).

Arguments Ok {A} a.
Arguments Throw {A} e.

Definition bind {A B} (m : res A) (k : A -> res B) : res B :=
  match m with
  | Ok a => k a
  | Throw e => Throw e
  end.

Notation "x <- m ;; k" := (bind m (fun x => k))
  (at level 100, m at next level, right associativity).

(** [l.map(f)] and [l.forEach(f)] stop at the first exception. *)

Definition mapM {A B} (f : A -> res B) : list A -> res (list B) :=
  fix go (l : list A) : res (list B) :=
    match l with
    | [] => Ok []
    | x :: r => y <- f x ;; ys <- go r ;; Ok (y :: ys)
    end.

Definition foldM {A S} (f : S -> A -> res S) : list A -> S -> res S :=
  fix go (l : list A) (s : S) : res S :=
    match l with
    | [] => Ok s
    | x :: r => s' <- f s x ;; go r s'
    end.

(** ** Primitive operations of the language *)

Fixpoint assoc (k : string) (fs : list (string * value)) : option value :=
  match fs with
  | [] => None
  | (k', v) :: r => if String.eqb k k' then Some v else assoc k r
  end.

Definition str_length (s : string) : Z := Z.of_nat (String.length s).

(** [v.k] for the property names the source reads. *)
Definition get (v : value) (k : string) : res value :=
  match v with
  | VUndef | VNull => Throw TypeError
  | VObj fs => Ok (default VUndef (assoc k fs))
  | VArr xs => Ok (if String.eqb k "length" then VNum (Z.of_nat (length xs)) else VUndef)
  | VStr s => Ok (if String.eqb k "length" then VNum (str_length s) else VUndef)
  | VBool _ | VNum _ => Ok VUndef
  end.

Definition nat_key (i : nat) : string := pretty i.

(** [v[i]] for a numeric index. *)
Definition get_index (v : value) (i : nat) : res value :=
  match v with
  | VUndef | VNull => Throw TypeError
  | VArr xs => Ok (nth i xs VUndef)
  | VObj fs => Ok (default VUndef (assoc (nat_key i) fs))
  | VStr s =>
      Ok (match String.get i s with
          | Some c => VStr (String c EmptyString)
          | None => VUndef
          end)
  | VBool _ | VNum _ => Ok VUndef
  end.

(** [a === b]. Two objects are equal only when they are the same object;
    every comparison in the source has a string or a number on one side, and
    the [name] fields of a tree hold strings, so two object operands are taken
    as distinct. *)
Definition strictEq (a b : value) : bool :=
  match a, b with
  | VUndef, VUndef => true
  | VNull, VNull => true
  | VBool x, VBool y => Bool.eqb x y
  | VNum x, VNum y => Z.eqb x y
  | VStr x, VStr y => String.eqb x y
  | _, _ => false
  end.

Definition truthy (v : value) : bool :=
  match v with
  | VUndef | VNull => false
  | VBool b => b
  | VNum n => negb (Z.eqb n 0)
  | VStr s => negb (String.eqb s "")
  | VArr _ | VObj _ => true
  end.

Definition isArray (v : value) : bool :=
  match v with VArr _ => true | _ => false end.

(** [xs.forEach(f)] where [f] updates a captured variable [s]. *)
Definition forEach {S} (v : value) (f : S -> value -> res S) (s : S) : res S :=
  match v with
  | VArr xs => foldM f xs s
  | _ => Throw TypeError
  end.

Fixpoint join (sep : string) (l : list string) : string :=
  match l with
  | [] => ""
  | [x] => x
  | x :: r => x ++ sep ++ join sep r
  end.

(** The string a value turns into when it is concatenated to a string or
    used as a property key. *)
Fixpoint toString (v : value) : string :=
  match v with
  | VUndef => "undefined"
  | VNull => "null"
  | VBool true => "true"
  | VBool false => "false"
  | VNum n => pretty n
  | VStr s => s
  | VArr xs =>
      join "," (map (fun x => match x with
                              | VUndef | VNull => ""
                              | _ => toString x
                              end) xs)
  | VObj _ => "[object Object]"
  end.

(** ** [replaceIdentifier] *)

(** [decls.forEach(function(node) { if (node.id.name === name) isShadowed = true; })] *)
Definition scanDeclarations (name : value) (decls : value) (isShadowed : bool) : res bool :=
  forEach decls (fun isShadowed node =>
    id <- get node "id" ;;
    n <- get id "name" ;;
    Ok (if strictEq n name then true else isShadowed)) isShadowed.

(** The body of [inAst.body.forEach(function(node) { ... })]. *)
Definition scanStatement (name : value) (isShadowed : bool) (node : value) : res bool :=
  ty <- get node "type" ;;
  isShadowed <-
    (if strictEq ty (VStr "VariableDeclaration")
     then decls <- get node "declarations" ;; scanDeclarations name decls isShadowed
     else Ok isShadowed) ;;
  if strictEq ty (VStr "ForStatement")
  then
    init <- get node "init" ;;
    if truthy init
    then
      ity <- get init "type" ;;
      if strictEq ity (VStr "VariableDeclaration")
      then decls <- get init "declarations" ;; scanDeclarations name decls isShadowed
      else Ok isShadowed
    else Ok isShadowed
  else Ok isShadowed.

Definition scanBody (name : value) (body : value) : res bool :=
  forEach body (scanStatement name) false.

(** [(inAst.type === 'Identifier') && (inAst.name === name)] and the shadow
    test that follows it, for an object [inAst]. *)
Definition isTarget (name : value) (fs : list (string * value)) : bool :=
  strictEq (default VUndef (assoc "type" fs)) (VStr "Identifier")
  && strictEq (default VUndef (assoc "name" fs)) name.

Definition isShadowedIn (name : value) (fs : list (string * value)) : res bool :=
  let body := default VUndef (assoc "body" fs) in
  if isArray body then scanBody name body else Ok false.

(** The keys of a string are its indices; each holds a one-character
    string, which the reduction copies. *)
Fixpoint string_entries (i : nat) (s : string) : list (string * value) :=
  match s with
  | EmptyString => []
  | String c r => (nat_key i, VStr (String c EmptyString)) :: string_entries (S i) r
  end.

(** One step of the reduction over [Object.keys(inAst)]: the new value of
    a key, from its old value [v]; [rec] is
    [replaceIdentifier.bind({}, name, withAst)]. *)
Definition replaceValue (rec : value -> res value) (v : value) : res value :=
  match v with
  | VArr ys => ys' <- mapM rec ys ;; Ok (VArr ys')
  | VObj _ => rec v
  | _ => Ok v
  end.

(** The reduction itself, over the entries [(key, inAst[key])]. *)
Definition reduceKeys (f : value -> res value) : list (string * value) -> res (list (string * value)) :=
  fix go (l : list (string * value)) : res (list (string * value)) :=
    match l with
    | [] => Ok []
    | (k, v) :: r => v' <- f v ;; r' <- go r ;; Ok ((k, v') :: r')
    end.

(** The same over the entries of an array, whose keys are its indices. *)
Definition reduceIndices (f : value -> res value) : nat -> list value -> res (list (string * value)) :=
  fix go (i : nat) (l : list value) : res (list (string * value)) :=
    match l with
    | [] => Ok []
    | v :: r => v' <- f v ;; r' <- go (S i) r ;; Ok ((nat_key i, v') :: r')
    end.

Fixpoint replaceIdentifier (name withAst inAst : value) {struct inAst} : res value :=
  match inAst with
  | VUndef | VNull => Throw TypeError
  | VBool _ | VNum _ => Ok (VObj [])
  | VStr s => Ok (VObj (string_entries 0 s))
  | VArr xs =>
      (* an array has no [type] and no [body]; its keys are its indices *)
      fs' <- reduceIndices (replaceValue (replaceIdentifier name withAst)) 0 xs ;;
      Ok (VObj fs')
  | VObj fs =>
      if isTarget name fs then Ok withAst
      else
        shadowed <- isShadowedIn name fs ;;
        if shadowed then Ok inAst
        else
          fs' <- reduceKeys (replaceValue (replaceIdentifier name withAst)) fs ;;
          Ok (VObj fs')
  end.

(** ** [getExportedFunctions]

    [scopeFunctions] is a plain object used as a map from a function's name
    to a record [{exported, ast}].  A plain object is more than its own
    keys.  Behind them stands its prototype, at first [Object.prototype]:
    a read of a key the object does not have answers with the member of
    that name along the prototypes, and an assignment to the key
    [__proto__] gives the object a new prototype and leaves its keys as
    they are.  The table is modelled with both. *)

(** A record [{exported, ast}].  Every record is a fresh object literal,
    but records made from one tree of the module hold the same tree
    object: [node] numbers the trees in the order in which the walk records
    them, and [depth] counts the reads of a field [ast] that lead from the
    recorded tree to the one the record holds (none, in the trees a parser
    makes, whose function nodes have no such field). *)
Record entry : Type := Entry { exported : bool; ast : value; node : nat; depth : nat }.

(** The table: its own keys; the record that an assignment to [__proto__]
    made its prototype, when there was one; whether [Object.prototype] has
    been given a field [exported] by the walk; the number of the next
    tree. *)
Record scope : Type := Scope {
  own : gmap string entry;
  proto : option entry;
  tainted : bool;
  next : nat
}.

#[global] Instance scope_empty : Empty scope := Scope ∅ None false 0.

(** *** The members of [Object.prototype]

    A built-in function, as far as the loader can look at it: it reads
    [ast], [params], [body] and [type] of what it finds in a table, and a
    function has none of them. *)
Definition builtin (name : string) (arity : Z) : value :=
  VObj [("length", VNum arity); ("name", VStr name)].

Definition objectMembers : list (string * value) :=
  [("constructor", builtin "Object" 1);
   ("__defineGetter__", builtin "__defineGetter__" 2);
   ("__defineSetter__", builtin "__defineSetter__" 2);
   ("hasOwnProperty", builtin "hasOwnProperty" 1);
   ("__lookupGetter__", builtin "__lookupGetter__" 1);
   ("__lookupSetter__", builtin "__lookupSetter__" 1);
   ("isPrototypeOf", builtin "isPrototypeOf" 1);
   ("propertyIsEnumerable", builtin "propertyIsEnumerable" 1);
   ("toString", builtin "toString" 0);
   ("valueOf", builtin "valueOf" 0);
   ("toLocaleString", builtin "toLocaleString" 0)].

Definition objectPrototype : value :=
  VObj (objectMembers ++ [("__proto__", VNull)])%list.

(** What a plain object whose prototype is [Object.prototype] answers to a
    read of a key it does not have: under [__proto__] its prototype, under
    the name of a member that member, and [undefined] otherwise. *)
Definition inherited (k : string) : value :=
  if String.eqb k "__proto__" then objectPrototype
  else default VUndef (assoc k objectMembers).

(** *** Reads and writes of the table *)

(** What [scopeFunctions[k]] is. *)
Inductive member : Type :=
| OwnRecord (e : entry)        (* the record under the key [k] of the table *)
| PrototypeRecord (p : entry)  (* the record that is the prototype *)
| PrototypeTree (p : entry)    (* the field [ast] of that record *)
| ObjectPrototype              (* [Object.prototype] itself *)
| Other (v : value).           (* a boolean, a built-in function, [undefined] *)

Definition readKey (scopeFunctions : scope) (k : string) : member :=
  match own scopeFunctions !! k with
  | Some e => OwnRecord e
  | None =>
      match proto scopeFunctions with
      | Some p =>
          if String.eqb k "exported" then Other (VBool (exported p))
          else if String.eqb k "ast" then PrototypeTree p
          else if String.eqb k "__proto__" then PrototypeRecord p
          else Other (inherited k)
      | None =>
          if String.eqb k "__proto__" then ObjectPrototype
          else if String.eqb k "exported" && tainted scopeFunctions then Other (VBool true)
          else Other (inherited k)
      end
  end.

(** [scopeFunctions[k] !== undefined] *)
Definition isDefined (m : member) : bool :=
  match m with
  | PrototypeTree p => negb (strictEq (ast p) VUndef)
  | Other v => negb (strictEq v VUndef)
  | OwnRecord _ | PrototypeRecord _ | ObjectPrototype => true
  end.

(** [scopeFunctions[k] = e].  The setter of [__proto__], which every plain
    object inherits, makes the record the prototype; any other key becomes
    or stays a key of the table. *)
Definition setEntry (scopeFunctions : scope) (key : value) (e : entry) : scope :=
  if String.eqb (toString key) "__proto__"
  then Scope (own scopeFunctions) (Some e) (tainted scopeFunctions) (S (next scopeFunctions))
  else Scope (<[toString key := e]> (own scopeFunctions)) (proto scopeFunctions)
         (tainted scopeFunctions) (S (next scopeFunctions)).

(** [{ exported: ..., ast: tree }] for a tree the walk has just met. *)
Definition newRecord (scopeFunctions : scope) (exported : bool) (tree : value) : entry :=
  Entry exported tree (next scopeFunctions) 0.

(** [{ exported: true, ast: scopeFunctions[k].ast }], from what
    [scopeFunctions[k]] is. *)
Definition reference (scopeFunctions : scope) (m : member) : res entry :=
  match m with
  | OwnRecord e | PrototypeRecord e => Ok (Entry true (ast e) (node e) (depth e))
  | PrototypeTree p => a <- get (ast p) "ast" ;; Ok (Entry true a (node p) (S (depth p)))
  | ObjectPrototype => a <- get objectPrototype "ast" ;; Ok (newRecord scopeFunctions true a)
  | Other v => a <- get v "ast" ;; Ok (newRecord scopeFunctions true a)
  end.

(** [tree.exported = true] on a tree object: the field is set where it
    is, or added behind the others. *)
Fixpoint setField (k : string) (v : value) (fs : list (string * value))
    : list (string * value) :=
  match fs with
  | [] => [(k, v)]
  | (k', v') :: r => if String.eqb k k' then (k', v) :: r else (k', v') :: setField k v r
  end.

Fixpoint alterField (k : string) (f : value -> value) (fs : list (string * value))
    : list (string * value) :=
  match fs with
  | [] => []
  | (k', v') :: r => if String.eqb k k' then (k', f v') :: r else (k', v') :: alterField k f r
  end.

(** The tree [tree] after the object [d] reads of [ast] below it has been
    given the field. *)
Fixpoint markAt (d : nat) (tree : value) : value :=
  match tree with
  | VObj fs =>
      match d with
      | O => VObj (setField "exported" (VBool true) fs)
      | S d' => VObj (alterField "ast" (markAt d') fs)
      end
  | _ => tree
  end.

(** A record after the tree [(n, d)] has been given the field: the records
    that hold that tree, or a tree it is in, see it. *)
Definition markEntry (n d : nat) (e : entry) : entry :=
  if Nat.eqb (node e) n && Nat.leb (depth e) d
  then Entry (exported e) (markAt (d - depth e) (ast e)) (node e) (depth e)
  else e.

Definition markNode (n d : nat) (scopeFunctions : scope) : scope :=
  Scope (markEntry n d <$> own scopeFunctions) (markEntry n d <$> proto scopeFunctions)
    (tainted scopeFunctions) (next scopeFunctions).

Definition marked (e : entry) : entry := Entry true (ast e) (node e) (depth e).

(** [scopeFunctions[k].exported = true], from what [scopeFunctions[k]] is.
    On a record the flag is set.  On [Object.prototype] the field is one
    that every object inherits from then on.  On the tree of the prototype
    record it is a field of that tree.  On a boolean the assignment does
    nothing, and on a built-in function it sets a field that nothing
    reads. *)
Definition markExported (scopeFunctions : scope) (k : string) : res scope :=
  match readKey scopeFunctions k with
  | OwnRecord e =>
      Ok (Scope (<[k := marked e]> (own scopeFunctions)) (proto scopeFunctions)
            (tainted scopeFunctions) (next scopeFunctions))
  | PrototypeRecord p =>
      Ok (Scope (own scopeFunctions) (Some (marked p)) (tainted scopeFunctions)
            (next scopeFunctions))
  | ObjectPrototype =>
      Ok (Scope (own scopeFunctions) (proto scopeFunctions) true (next scopeFunctions))
  | PrototypeTree p =>
      match ast p with
      | VUndef | VNull => Throw TypeError
      | VObj _ => Ok (markNode (node p) (depth p) scopeFunctions)
      | _ => Ok scopeFunctions
      end
  | Other v =>
      match v with
      | VUndef | VNull => Throw TypeError
      | _ => Ok scopeFunctions
      end
  end.

(** *** The walk *)

(** [export function name(...) {...}] *)
Definition exportNamed (scopeFunctions : scope) (node : value) : res scope :=
  declaration <- get node "declaration" ;;
  dty <- get declaration "type" ;;
  if strictEq dty (VStr "FunctionDeclaration")
  then
    id <- get declaration "id" ;;
    n <- get id "name" ;;
    Ok (setEntry scopeFunctions n (newRecord scopeFunctions true declaration))
  else Ok scopeFunctions.

(** [function name(...) {...}] *)
Definition plainFunction (scopeFunctions : scope) (node : value) : res scope :=
  id <- get node "id" ;;
  n <- get id "name" ;;
  Ok (setEntry scopeFunctions n (newRecord scopeFunctions false node)).

(** [var name = function(...) {...}], one declarator. *)
Definition variableDeclarator (scopeFunctions : scope) (node : value) : res scope :=
  init <- get node "init" ;;
  ity <- get init "type" ;;
  if strictEq ity (VStr "FunctionExpression")
  then
    id <- get node "id" ;;
    n <- get id "name" ;;
    Ok (setEntry scopeFunctions n (newRecord scopeFunctions false init))
  else Ok scopeFunctions.

(** [static name(...) {...}], one member of the default-exported class. *)
Definition classMember (scopeFunctions : scope) (node : value) : res scope :=
  ty <- get node "type" ;;
  static <- (if strictEq ty (VStr "MethodDefinition")
             then s <- get node "static" ;; Ok (truthy s)
             else Ok false) ;;
  if static
  then
    key <- get node "key" ;;
    n <- get key "name" ;;
    v <- get node "value" ;;
    Ok (setEntry scopeFunctions n (newRecord scopeFunctions true v))
  else Ok scopeFunctions.

(** One property of the object assigned to [module.exports]. *)
Definition bagProperty (scopeFunctions : scope) (node : value) : res scope :=
  key <- get node "key" ;;
  name <- get key "name" ;;
  value <- get node "value" ;;
  vty <- get value "type" ;;
  isRef <- (if strictEq vty (VStr "Identifier")
            then vn <- get value "name" ;;
                 Ok (isDefined (readKey scopeFunctions (toString vn)))
            else Ok false) ;;
  if isRef
  then
    vn <- get value "name" ;;
    if strictEq name vn
    then markExported scopeFunctions (toString name)
    else
      e <- reference scopeFunctions (readKey scopeFunctions (toString vn)) ;;
      Ok (setEntry scopeFunctions name e)
  else
    if strictEq vty (VStr "FunctionExpression")
    then Ok (setEntry scopeFunctions name (newRecord scopeFunctions true value))
    else Ok scopeFunctions.

(** The test in front of the CommonJS case: five conjuncts, read left to
    right, each read only when the ones before it hold. *)
Definition isExportsAssignment (node : value) (ty : value) : res bool :=
  if strictEq ty (VStr "ExpressionStatement")
  then
    expression <- get node "expression" ;;
    left <- get expression "left" ;;
    lty <- get left "type" ;;
    if strictEq lty (VStr "MemberExpression")
    then
      object <- get left "object" ;;
      on <- get object "name" ;;
      if strictEq on (VStr "module")
      then
        property <- get left "property" ;;
        pn <- get property "name" ;;
        if strictEq pn (VStr "exports")
        then
          right <- get expression "right" ;;
          rty <- get right "type" ;;
          Ok (strictEq rty (VStr "ObjectExpression"))
        else Ok false
      else Ok false
    else Ok false
  else Ok false.

(** The function given to [ast.body.reduce]. *)
Definition exportStep (scopeFunctions : scope) (node : value) : res scope :=
  ty <- get node "type" ;;
  if strictEq ty (VStr "ExportNamedDeclaration") then exportNamed scopeFunctions node
  else if strictEq ty (VStr "FunctionDeclaration") then plainFunction scopeFunctions node
  else if strictEq ty (VStr "VariableDeclaration")
  then declarations <- get node "declarations" ;;
       forEach declarations variableDeclarator scopeFunctions
  else
    isClass <- (if strictEq ty (VStr "ExportDefaultDeclaration")
                then declaration <- get node "declaration" ;;
                     dty <- get declaration "type" ;;
                     Ok (strictEq dty (VStr "ClassDeclaration"))
                else Ok false) ;;
    if isClass
    then
      declaration <- get node "declaration" ;;
      cbody <- get declaration "body" ;;
      members <- get cbody "body" ;;
      forEach members classMember scopeFunctions
    else
      isBag <- isExportsAssignment node ty ;;
      if isBag
      then
        expression <- get node "expression" ;;
        right <- get expression "right" ;;
        properties <- get right "properties" ;;
        forEach properties bagProperty scopeFunctions
      else Ok scopeFunctions.

(** The walk over the top-level statements, before the final filter. *)
Definition scopeOf (ast : value) : res scope :=
  body <- get ast "body" ;;
  forEach body exportStep ∅.

(** [Object.keys(functions).reduce(...)]: the trees of the exported entries. *)
Definition keepExported (functions : scope) : gmap string value :=
  omap (fun fn => if exported fn then Some (ast fn) else None) (own functions).

Definition getExportedFunctions (ast : value) : res (gmap string value) :=
  functions <- scopeOf ast ;;
  Ok (keepExported functions).

(** [exportedFn[gFunction]]: the result is a plain object too, with the
    members of [Object.prototype], as the language has them, behind its
    keys.  The walk never assigns to its key [__proto__]: the names it
    copies are keys of the table. *)
Definition lookupFunction (exportedFn : gmap string value) (gFunction : value) : value :=
  match exportedFn !! toString gFunction with
  | Some fnAst => fnAst
  | None => inherited (toString gFunction)
  end.

(** The key [__proto__] is not a key of the table. *)
Definition noProtoKey (functions : scope) : Prop := own functions !! "__proto__" = None.

(** [scopeFunctions[k] !== undefined] *)
Definition visible (functions : scope) (k : string) : bool := isDefined (readKey functions k).

(** The keys of a plain object after [table[k] = v]. *)
Definition assigned (table : gmap string value) (k : string) (v : value)
    : gmap string value :=
  if String.eqb k "__proto__" then table else <[k := v]> table.

(** ** Tree constructors (the ESTree shapes esprima produces) *)

Definition Identifier (n : string) : value :=
  VObj [("type", VStr "Identifier"); ("name", VStr n)].

Definition NumLiteral (n : Z) : value :=
  VObj [("type", VStr "Literal"); ("value", VNum n); ("raw", VStr (pretty n))].

Definition StrLiteral (s : string) : value :=
  VObj [("type", VStr "Literal"); ("value", VStr s); ("raw", VStr ("'" ++ s ++ "'"))].

Definition BinaryExpression (op : string) (l r : value) : value :=
  VObj [("type", VStr "BinaryExpression"); ("operator", VStr op);
        ("left", l); ("right", r)].

Definition CallExpression (callee : value) (args : list value) : value :=
  VObj [("type", VStr "CallExpression"); ("callee", callee);
        ("arguments", VArr args)].

Definition MemberExpression (o p : value) : value :=
  VObj [("type", VStr "MemberExpression"); ("computed", VBool false);
        ("object", o); ("property", p)].

Definition AssignmentExpression (l r : value) : value :=
  VObj [("type", VStr "AssignmentExpression"); ("operator", VStr "=");
        ("left", l); ("right", r)].

Definition Property (k v : value) (shorthand : bool) : value :=
  VObj [("type", VStr "Property"); ("key", k); ("computed", VBool false);
        ("value", v); ("kind", VStr "init"); ("method", VBool false);
        ("shorthand", VBool shorthand)].

Definition ObjectExpression (props : list value) : value :=
  VObj [("type", VStr "ObjectExpression"); ("properties", VArr props)].

Definition ExpressionStatement (e : value) : value :=
  VObj [("type", VStr "ExpressionStatement"); ("expression", e)].

Definition ReturnStatement (arg : value) : value :=
  VObj [("type", VStr "ReturnStatement"); ("argument", arg)].

Definition BlockStatement (stmts : list value) : value :=
  VObj [("type", VStr "BlockStatement"); ("body", VArr stmts)].

Definition VariableDeclarator (id init : value) : value :=
  VObj [("type", VStr "VariableDeclarator"); ("id", id); ("init", init)].

Definition VariableDeclaration (decls : list value) : value :=
  VObj [("type", VStr "VariableDeclaration"); ("declarations", VArr decls);
        ("kind", VStr "var")].

Definition ForStatement (init test update body : value) : value :=
  VObj [("type", VStr "ForStatement"); ("init", init); ("test", test);
        ("update", update); ("body", body)].

Definition FunctionDeclaration (n : string) (params : list value) (stmts : list value) : value :=
  VObj [("type", VStr "FunctionDeclaration"); ("id", Identifier n);
        ("params", VArr params); ("defaults", VArr []);
        ("body", BlockStatement stmts);
        ("generator", VBool false); ("expression", VBool false)].

Definition FunctionExpression (params : list value) (stmts : list value) : value :=
  VObj [("type", VStr "FunctionExpression"); ("id", VNull);
        ("params", VArr params); ("defaults", VArr []);
        ("body", BlockStatement stmts);
        ("generator", VBool false); ("expression", VBool false)].

Definition Program (stmts : list value) : value :=
  VObj [("type", VStr "Program"); ("body", VArr stmts); ("sourceType", VStr "module")].

(** ** The host: parser, code generator, file system, loader API

    esprima, escodegen, [fs], [path] and the webpack loader context are
    outside the repository; the loader is a function of them. *)

Record parseOptions : Type := ParseOptions { sourceType : string; range : bool }.

Definition scriptOptions : parseOptions := ParseOptions "script" false.
Definition moduleOptions : parseOptions := ParseOptions "module" false.
Definition moduleRangeOptions : parseOptions := ParseOptions "module" true.

Record host : Type := Host {
(** [esprima.parse(code, options)]; the code is a string or a buffer, or
      [null] ([None]) when [loadModuleContents] found nothing. *)
  esprima_parse : option string -> parseOptions -> res value;
(** [escodegen.generate(tree)] *)
  escodegen_generate : value -> res string;
(** [fs.readFileSync(path)]; [None] when the read throws. *)
  fs_readFileSync : string -> option string;
(** [path.resolve(this.context, file)] *)
  path_resolve : string -> string -> string;
(** [this.context] *)
  context : string;
(** [this.options.resolve.extensions], when the chain of [&&] is truthy. *)
  resolve_extensions : option (list string)
}.

(** What the loader leaves behind in the webpack context. *)
Record loaderState : Type := LoaderState {
  errors : list string;        (* this.emitError *)
  dependencies : list string;  (* this.addDependency *)
  cacheableFlag : bool;        (* this.cacheable *)
  consoleOut : list string     (* console.log *)
}.

Definition initialState : loaderState := LoaderState [] [] false [].

Definition io (A : Type) : Type := loaderState -> loaderState * res A.

Definition ret {A} (a : A) : io A := fun st => (st, Ok a).

Definition iobind {A B} (m : io A) (k : A -> io B) : io B :=
  fun st =>
    match m st with
    | (st', Ok a) => k a st'
    | (st', Throw e) => (st', Throw e)
    end.

Definition lift {A} (r : res A) : io A := fun st => (st, r).

Notation "x <~ m ;; k" := (iobind m (fun x => k))
  (at level 100, m at next level, right associativity).
Notation "m ;;; k" := (iobind m (fun _ => k))
  (at level 100, right associativity).

Definition emitError (msg : string) : io unit :=
  fun st => (LoaderState (errors st ++ [msg]) (dependencies st) (cacheableFlag st) (consoleOut st), Ok tt).

Definition addDependency (p : string) : io unit :=
  fun st => (LoaderState (errors st) (dependencies st ++ [p]) (cacheableFlag st) (consoleOut st), Ok tt).

Definition cacheable : io unit :=
  fun st => (LoaderState (errors st) (dependencies st) true (consoleOut st), Ok tt).

Definition console_log (s : string) : io unit :=
  fun st => (LoaderState (errors st) (dependencies st) (cacheableFlag st) (consoleOut st ++ [s]), Ok tt).

(** [e.toString()] *)
Definition exnToString (e : exn) : string :=
  match e with
  | TypeError => "TypeError"
  | SyntaxError msg => "Error: " ++ msg
  end.

(** ** Regular expressions

    The two patterns of the source use literal characters, character
    classes, greedy and lazy repetition of a class, an optional group,
    capture groups and, with the [m] flag, the anchors.  The matcher is the
    backtracking one of the language: a repetition tries its preferred
    length first and gives characters back (greedy) or takes more (lazy)
    when the rest of the pattern fails.  Strings are ASCII text. *)

Inductive regex : Type :=
| RClass (p : ascii -> bool)
| RSeq (r1 r2 : regex)
| RStar (p : ascii -> bool)        (* p*  *)
| RStarLazy (p : ascii -> bool)    (* p*? *)
| ROpt (r : regex)                 (* (?:r)? *)
| RGroup (n : nat) (r : regex)     (* the n-th capture group *)
| RBol                             (* ^ with the m flag *)
| REol.                            (* $ with the m flag *)

Definition RPlus (p : ascii -> bool) : regex := RSeq (RClass p) (RStar p).

Fixpoint RLit (s : string) : regex :=
  match s with
  | EmptyString => RStar (fun _ => false)
  | String c EmptyString => RClass (Ascii.eqb c)
  | String c r => RSeq (RClass (Ascii.eqb c)) (RLit r)
  end.

Definition code (c : ascii) : nat := nat_of_ascii c.

Definition isLineTerminator (c : ascii) : bool :=
  Nat.eqb (code c) 10 || Nat.eqb (code c) 13.

(** [\s] *)
Definition isSpace (c : ascii) : bool :=
  Nat.eqb (code c) 32 || (Nat.leb 9 (code c) && Nat.leb (code c) 13).

(** [\w] *)
Definition isWord (c : ascii) : bool :=
  (Nat.leb 48 (code c) && Nat.leb (code c) 57)
  || (Nat.leb 65 (code c) && Nat.leb (code c) 90)
  || (Nat.leb 97 (code c) && Nat.leb (code c) 122)
  || Nat.eqb (code c) 95.

(** [.] *)
Definition isDot (c : ascii) : bool := negb (isLineTerminator c).

(** a single or a double quote *)
Definition isQuote (c : ascii) : bool :=
  Nat.eqb (code c) 34 || Nat.eqb (code c) 39.

(** [[\t ]] *)
Definition isBlank (c : ascii) : bool :=
  Nat.eqb (code c) 9 || Nat.eqb (code c) 32.

(** A position in the subject: the character before it, the text after it
    and the text consumed since the start of the match, newest first. *)
Record cursor : Type := Cursor {
  before : option ascii;
  rest : string;
  consumed : list ascii
}.

Definition captures : Type := list (nat * string).

Fixpoint capture (n : nat) (cs : captures) : option string :=
  match cs with
  | [] => None
  | (m, s) :: r => if Nat.eqb n m then Some s else capture n r
  end.

Definition advance (c : ascii) (t : string) (cur : cursor) : cursor :=
  Cursor (Some c) t (c :: consumed cur).

Fixpoint stringOfRev (l : list ascii) (acc : string) : string :=
  match l with
  | [] => acc
  | c :: r => stringOfRev r (String c acc)
  end.

(** The text consumed between two cursors of one match. *)
Definition textBetween (start stop : cursor) : string :=
  stringOfRev (firstn (length (consumed stop) - length (consumed start)) (consumed stop)) "".

Section Matcher.
Context {R : Type}.

Fixpoint starGreedy (p : ascii -> bool) (k : cursor -> option R)
    (s : string) (cur : cursor) : option R :=
  match s with
  | String c t =>
      if p c
      then match starGreedy p k t (advance c t cur) with
           | Some r => Some r
           | None => k cur
           end
      else k cur
  | EmptyString => k cur
  end.

Fixpoint starLazy (p : ascii -> bool) (k : cursor -> option R)
    (s : string) (cur : cursor) : option R :=
  match k cur with
  | Some r => Some r
  | None =>
      match s with
      | String c t => if p c then starLazy p k t (advance c t cur) else None
      | EmptyString => None
      end
  end.

Fixpoint matchRegex (r : regex) (cur : cursor) (cs : captures)
      (k : cursor -> captures -> option R) {struct r} : option R :=
    match r with
    | RClass p =>
        match rest cur with
        | String c t => if p c then k (advance c t cur) cs else None
        | EmptyString => None
        end
    | RSeq r1 r2 => matchRegex r1 cur cs (fun cur' cs' => matchRegex r2 cur' cs' k)
    | RStar p => starGreedy p (fun cur' => k cur' cs) (rest cur) cur
    | RStarLazy p => starLazy p (fun cur' => k cur' cs) (rest cur) cur
    | ROpt r1 =>
        match matchRegex r1 cur cs k with
        | Some x => Some x
        | None => k cur cs
        end
    | RGroup n r1 =>
        matchRegex r1 cur cs (fun cur' cs' => k cur' ((n, textBetween cur cur') :: cs'))
    | RBol =>
        match before cur with
        | None => k cur cs
        | Some c => if isLineTerminator c then k cur cs else None
        end
    | REol =>
        match rest cur with
        | EmptyString => k cur cs
        | String c _ => if isLineTerminator c then k cur cs else None
        end
    end.
End Matcher.

(** One attempt at a position: the length of the match and its groups. *)
Definition matchAt (r : regex) (prev : option ascii) (s : string) : option (nat * captures) :=
  matchRegex r (Cursor prev s []) [] (fun cur cs => Some (length (consumed cur), cs)).

(** The pieces [String.prototype.replace] cuts the subject into under a
    global pattern: characters outside every match, and matches. *)
Inductive segment : Type :=
| SChar (c : ascii)
| SMatch (groups : captures).

(** Leftmost matches, left to right, the next search starting where the
    previous match ended ([skip] counts the characters still inside it). *)
Fixpoint segments (r : regex) (prev : option ascii) (s : string) (skip : nat) : list segment :=
  match skip with
  | S skip' =>
      match s with
      | String c t => segments r (Some c) t skip'
      | EmptyString => []
      end
  | O =>
      match matchAt r prev s with
      | Some (n, cs) =>
          SMatch cs ::
          match s with
          | String c t =>
              match n with
              | O => SChar c :: segments r (Some c) t 0
              | S n' => segments r (Some c) t n'
              end
          | EmptyString => []
          end
      | None =>
          match s with
          | String c t => SChar c :: segments r (Some c) t 0
          | EmptyString => []
          end
      end
  end.

(** [source.replace(pattern, callback)] *)
Fixpoint replaceAll (callback : captures -> io string) (segs : list segment) : io string :=
  match segs with
  | [] => ret ""
  | SChar c :: r => t <~ replaceAll callback r ;; ret (String c t)
  | SMatch cs :: r =>
      s <~ callback cs ;;
      t <~ replaceAll callback r ;;
      ret (s ++ t)
  end.

(** [/\r?\n/g] replaced by a fixed text. *)
Fixpoint replaceNewlines (s : string) (by_ : string) : string :=
  match s with
  | EmptyString => ""
  | String c t =>
      if Nat.eqb (code c) 10 then by_ ++ replaceNewlines t by_
      else if Nat.eqb (code c) 13
      then match t with
           | String c' t' =>
               if Nat.eqb (code c') 10 then by_ ++ replaceNewlines t' by_
               else String c (replaceNewlines t by_)
           | EmptyString => String c ""
           end
      else String c (replaceNewlines t by_)
  end.

Definition LF : string := String (ascii_of_nat 10) "".

(** The double-quote character. *)
Definition DQ : string := String (ascii_of_nat 34) "".

(** ** The functions both variants share *)

Section Shared.
Variable H : host.

(** [esprima.parse('X('+argsExpression+')').body[0].expression.arguments] *)
Definition compileArgumentAst (argsExpression : string) : res value :=
  program <- esprima_parse H (Some ("X(" ++ argsExpression ++ ")")) scriptOptions ;;
  body <- get program "body" ;;
  s0 <- get_index body 0 ;;
  expression <- get s0 "expression" ;;
  get expression "arguments".

(** The first extension under which the file can be read, or [null]. *)
Definition loadModuleContents (modulePath : string) : option string :=
  let extensions := default [""; ".js"] (resolve_extensions H) in
  fold_left (fun payload ext =>
               match payload with
               | Some _ => payload
               | None => fs_readFileSync H (modulePath ++ ext)
               end) extensions None.

(** [for (var i=0; i<fnArgs.length; ++i)
    fnAst = replaceIdentifier(fnAst.params[i].name, fnArgs[i], fnAst);]
    with [n] iterations left. *)
Fixpoint substituteFrom (fnArgs : value) (n : nat) (i : nat) (fnAst : value) : res value :=
  match n with
  | O => Ok fnAst
  | S n' =>
      params <- get fnAst "params" ;;
      p <- get_index params i ;;
      name <- get p "name" ;;
      arg <- get_index fnArgs i ;;
      fnAst' <- replaceIdentifier name arg fnAst ;;
      substituteFrom fnArgs n' (S i) fnAst'
  end.

(** The number of iterations: [fnArgs.length] when it is a number (it is
    one for the arrays the parser returns), none when it is undefined. *)
Definition iterations (len : value) : nat :=
  match len with
  | VNum n => Z.to_nat n
  | _ => 0%nat
  end.

Definition substituteArguments (fnArgs : value) (fnAst : value) : res value :=
    len <- get fnArgs "length" ;;
    substituteFrom fnArgs (iterations len) 0 fnAst.
End Shared.

(** [path.resolve(this.context, file)] throws on a file name that is not a
    string. *)
Definition pathResolve (H : host) (file : value) : res string :=
  match file with
  | VStr f => Ok (path_resolve H (context H) f)
  | _ => Throw TypeError
  end.

(** The value of a capture group: a string, or [undefined] when the group
    took no part in the match. *)
Definition group (n : nat) (cs : captures) : value :=
  match capture n cs with
  | Some s => VStr s
  | None => VUndef
  end.

(** ** Variant 1: [function-inline-loader.js], the single regex sweep *)

Module FunctionInlineLoader.

(** The pattern [INLINE_MACRO], flags [g] and [m], piece by piece: the
    start of a line; group 1, blanks; optionally group 2, a non-space
    character and the characters after it on the line; the text %inline;
    spaces; an opening parenthesis; spaces; a quote; group 3, one or more
    characters other than quotes; a quote; spaces; a closing parenthesis;
    spaces; a dot; group 4, word characters; spaces; an opening parenthesis;
    group 5, as few characters of any kind as possible; a closing
    parenthesis and a semicolon; the end of a line. *)
Definition INLINE_MACRO : regex :=
   RSeq RBol
  (RSeq (RGroup 1 (RStar isBlank))
  (RSeq (ROpt (RGroup 2 (RSeq (RClass (fun c => negb (isSpace c))) (RStar isDot))))
  (RSeq (RLit "%inline")
  (RSeq (RStar isSpace)
  (RSeq (RLit "(")
  (RSeq (RStar isSpace)
  (RSeq (RClass isQuote)
  (RSeq (RGroup 3 (RPlus (fun c => negb (isQuote c))))
  (RSeq (RClass isQuote)
  (RSeq (RStar isSpace)
  (RSeq (RLit ")")
  (RSeq (RStar isSpace)
  (RSeq (RLit ".")
  (RSeq (RGroup 4 (RPlus isWord))
  (RSeq (RStar isSpace)
  (RSeq (RLit "(")
  (RSeq (RGroup 5 (RStarLazy (fun _ => true)))
  (RSeq (RLit ");") REol)))))))))))))))))).

Section Loader.
Variable H : host.

(** This variant reads the first statement without looking at the
    length of the body. *)
Definition renderFunction (ast : value) : res string :=
  body <- get ast "body" ;;
  stmts <- get body "body" ;;
  s0 <- get_index stmts 0 ;;
  ty <- get s0 "type" ;;
  if strictEq ty (VStr "ReturnStatement")
  then argument <- get s0 "argument" ;; escodegen_generate H argument
  else escodegen_generate H
         (VObj [("type", VStr "Program"); ("body", stmts); ("sourceType", VStr "script")]).

(** The callback given to [source.replace(INLINE_MACRO, ...)]. *)
Definition inlineMacro (gIndent gAssignExpr gFile gFunction gArgs : value) : io string :=
  filePath <~ lift (pathResolve H gFile) ;;
  ast <~ lift (esprima_parse H (loadModuleContents H filePath) moduleOptions) ;;
  addDependency filePath ;;;
  exportedFn <~ lift (getExportedFunctions ast) ;;
  let fnAst := lookupFunction exportedFn gFunction in
  if negb (truthy fnAst)
  then
    emitError ("Trying to inline unknown function " ++ toString gFunction
               ++ " in module " ++ toString gFile) ;;;
    ret ("/* Unknown inline " ++ toString gFunction ++ " */")
  else
    fnArgs <~ lift (compileArgumentAst H (toString gArgs)) ;;
    alen <~ lift (get fnArgs "length") ;;
    params <~ lift (get fnAst "params") ;;
    plen <~ lift (get params "length") ;;
    if negb (strictEq alen plen)
    then
      emitError ("Function " ++ toString gFunction ++ " is expecting exactly "
                 ++ toString plen ++ " arguments, but got " ++ toString alen) ;;;
      ret ("/* Invalid syntax for " ++ toString gFunction ++ " */")
    else
      fnAst' <~ lift (substituteArguments fnArgs fnAst) ;;
      code <~ lift (renderFunction fnAst') ;;
      let code' :=
        if truthy gAssignExpr
        then toString gIndent ++ toString gAssignExpr
             ++ replaceNewlines code (LF ++ toString gIndent ++ "    ")
        else toString gIndent ++ replaceNewlines code (LF ++ toString gIndent) in
      console_log code' ;;;
      ret code'.

Definition callback (cs : captures) : io string :=
  inlineMacro (group 1 cs) (group 2 cs) (group 3 cs) (group 4 cs) (group 5 cs).

(** [module.exports = function(source) {...}] *)
Definition module_exports (source : string) : io string :=
      cacheable ;;;
      replaceAll callback (segments INLINE_MACRO None source 0).
End Loader.

End FunctionInlineLoader.

(** ** Variant 2: [js-inline-loader.js], the iterative re-parse *)

Module JsInlineLoader.

(** The pattern [MACRO], flag [g], piece by piece: the text %inline;
    spaces; an opening parenthesis; spaces; a quote; group 1, as few
    characters of the line as possible; a quote; spaces; a closing
    parenthesis; spaces; a dot; spaces; group 2, word characters; spaces; an
    opening parenthesis; optionally group 3, spaces and a closing
    parenthesis. *)
Definition MACRO : regex :=
   RSeq (RLit "%inline")
  (RSeq (RStar isSpace)
  (RSeq (RLit "(")
  (RSeq (RStar isSpace)
  (RSeq (RClass isQuote)
  (RSeq (RGroup 1 (RStarLazy isDot))
  (RSeq (RClass isQuote)
  (RSeq (RStar isSpace)
  (RSeq (RLit ")")
  (RSeq (RStar isSpace)
  (RSeq (RLit ".")
  (RSeq (RStar isSpace)
  (RSeq (RGroup 2 (RPlus isWord))
  (RSeq (RStar isSpace)
  (RSeq (RLit "(")
        (ROpt (RGroup 3 (RSeq (RStar isSpace) (RLit ")")))))))))))))))))).

Definition magic : string := "___js_inline_loader_inline".

(** [typeof v === 'object'], which holds of [null] too. *)
Definition typeofObject (v : value) : bool :=
  match v with
  | VNull | VArr _ | VObj _ => true
  | _ => false
  end.

(** A search loop that returns the first truthy answer, [null] if none. *)
Definition firstFound {A} (f : A -> res value) : list A -> res value :=
  fix go (l : list A) : res value :=
    match l with
    | [] => Ok VNull
    | x :: r => ans <- f x ;; if truthy ans then Ok ans else go r
    end.

(** What the loop over the keys does with the value of one key. *)
Definition searchValue (rec : value -> res value) (v : value) : res value :=
  match v with
  | VArr ys => firstFound (fun y => if typeofObject y then rec y else Ok VNull) ys
  | VObj _ => rec v
  | _ => Ok VNull
  end.

Definition searchKeys (f : value -> res value) : list (string * value) -> res value :=
  fix go (l : list (string * value)) : res value :=
    match l with
    | [] => Ok VNull
    | (_, v) :: r => ans <- f v ;; if truthy ans then Ok ans else go r
    end.

Definition isMagicCall (fs : list (string * value)) : res bool :=
  if strictEq (default VUndef (assoc "type" fs)) (VStr "CallExpression")
  then n <- get (default VUndef (assoc "callee" fs)) "name" ;;
       Ok (strictEq n (VStr magic))
  else Ok false.

Fixpoint findInlineToken (ast : value) {struct ast} : res value :=
  match ast with
  | VUndef | VNull => Throw TypeError
  | VBool _ | VNum _ | VStr _ => Ok VNull
  | VArr xs => firstFound (searchValue findInlineToken) xs
  | VObj fs =>
      found <- isMagicCall fs ;;
      if found then Ok ast
      else searchKeys (searchValue findInlineToken) fs
  end.

(** [ToInteger] of an index argument.  A range holds numbers; [undefined]
    and [null] count as 0; text is not converted. *)
Definition toInteger (v : value) : Z :=
  match v with
  | VNum n => n
  | VBool true => 1
  | _ => 0
  end.

Fixpoint take (n : nat) (s : string) : string :=
  match n, s with
  | S n', String c t => String c (take n' t)
  | _, _ => ""
  end.

Fixpoint drop (n : nat) (s : string) : string :=
  match n, s with
  | S n', String _ t => drop n' t
  | _, _ => s
  end.

(** [s.substring(0, e)]: an undefined end is the length of [s]. *)
Definition substringTo (s : string) (e : value) : string :=
  match e with
  | VUndef => s
  | _ => take (Z.to_nat (toInteger e)) s
  end.

(** [s.substring(b)] *)
Definition substringFrom (s : string) (b : value) : string :=
  drop (Z.to_nat (toInteger b)) s.

(** [xs.slice(2)] *)
Definition slice2 (v : value) : res value :=
  match v with
  | VArr xs => Ok (VArr (skipn 2 xs))
  | VStr s => Ok (VStr (drop 2 s))
  | _ => Throw TypeError
  end.

Section Loader.
Variable H : host.

Definition renderFunction (ast : value) : res string :=
  body <- get ast "body" ;;
  stmts <- get body "body" ;;
  len <- get stmts "length" ;;
  if strictEq len (VNum 0) then Ok ""
  else
    s0 <- get_index stmts 0 ;;
    ty <- get s0 "type" ;;
    if strictEq ty (VStr "ReturnStatement")
    then argument <- get s0 "argument" ;; escodegen_generate H argument
    else escodegen_generate H
           (VObj [("type", VStr "Program"); ("body", stmts); ("sourceType", VStr "script")]).

Definition getFunctionCode (gModule gFunction fnArgs : value) : io string :=
  filePath <~ lift (pathResolve H gModule) ;;
  match loadModuleContents H filePath with
  | None =>
      emitError ("Could not find module `" ++ toString gModule ++ "`") ;;;
      ret ("/* Missing module " ++ toString gModule ++ " */")
  | Some contents =>
      match esprima_parse H (Some contents) moduleOptions with
      | Throw e =>
          emitError ("%inline(" ++ DQ ++ toString gModule ++ DQ ++ "): " ++ exnToString e) ;;;
          ret ("/* Parsing error in module " ++ toString gModule ++ " */")
      | Ok ast =>
          addDependency filePath ;;;
          exportedFn <~ lift (getExportedFunctions ast) ;;
          let fnAst := lookupFunction exportedFn gFunction in
          if negb (truthy fnAst)
          then
            emitError ("%inline(" ++ DQ ++ toString gModule ++ DQ ++ "): Undefined function `"
                       ++ toString gFunction) ;;;
            ret ("/* Unknown inline " ++ toString gFunction ++ " */")
          else
            fnAst' <~ lift (substituteArguments fnArgs fnAst) ;;
            lift (renderFunction fnAst')
      end
  end.

(** The [while (true)] loop, cut after [fuel] rounds; [None] when the
    rounds did not suffice. *)
Fixpoint replaceInlineFunc (fuel : nat) (source : string) : io (option string) :=
  match fuel with
  | O => ret None
  | S fuel' =>
      match esprima_parse H (Some source) moduleRangeOptions with
      | Throw e =>
          emitError ("Inline processing failed: SyntaxError: " ++ exnToString e) ;;;
          ret (Some source)
      | Ok ast =>
          token <~ lift (findInlineToken ast) ;;
          if negb (truthy token) then ret (Some source)
          else
            arguments <~ lift (get token "arguments") ;;
            a0 <~ lift (get_index arguments 0) ;;
            gModule <~ lift (get a0 "value") ;;
            a1 <~ lift (get_index arguments 1) ;;
            gFunction <~ lift (get a1 "name") ;;
            fnArgs <~ lift (slice2 arguments) ;;
            replacement <~ getFunctionCode gModule gFunction fnArgs ;;
            range <~ lift (get token "range") ;;
            r0 <~ lift (get_index range 0) ;;
            r1 <~ lift (get_index range 1) ;;
            replaceInlineFunc fuel'
              (substringTo source r0 ++ replacement ++ substringFrom source r1)
      end
  end.

(** The callback of [source.replace(MACRO, ...)]; it also sets
    [hasMacros], which is the same as the sweep having a match. *)
Definition normalize (cs : captures) : io string :=
  ret ("___js_inline_loader_inline('" ++ toString (group 1 cs) ++ "',"
       ++ toString (group 2 cs)
       ++ (if truthy (group 3 cs) then ")" else ",")).

Definition hasMatch (segs : list segment) : bool :=
  existsb (fun s => match s with SMatch _ => true | SChar _ => false end) segs.

(** [module.exports = function(source) {...}] *)
Definition module_exports (fuel : nat) (source : string) : io (option string) :=
      cacheable ;;;
      let segs := segments MACRO None source 0 in
      normSource <~ replaceAll normalize segs ;;
      if negb (hasMatch segs) then ret (Some source)
      else replaceInlineFunc fuel normSource.
End Loader.

End JsInlineLoader.

(** ** The store model of [replaceIdentifier]

    The trees are objects on the heap and the function is given references
    to them.  It answers with the reference [withAst] or [inAst] itself in
    two of its cases, and otherwise builds a fresh object ([{}], the seed of
    the reduction) that it fills key by key, with a fresh array for every
    array it maps over.  This model keeps the references, the allocations
    and the writes, to state what the function does to the objects it was
    given.  A heap can hold cycles, so the recursion is cut after [fuel]
    nested calls. *)

Module Store.

Abbreviation loc := nat.

Inductive hvalue : Type :=
| HUndef
| HNull
| HBool (b : bool)
| HNum (n : Z)
| HStr (s : string)
| HRef (l : loc).

Inductive cell : Type :=
| CArr (xs : list hvalue)
| CObj (fs : list (string * hvalue)).

Abbreviation heap := (list cell).

Inductive outcome (A : Type) : Type :=
| Val (a : A)
| Raise (e : exn)
| OutOfFuel.

Arguments Val {A} a.
Arguments Raise {A} e.
Arguments OutOfFuel {A}.

Definition hm (A : Type) : Type := heap -> heap * outcome A.

Definition hret {A} (a : A) : hm A := fun h => (h, Val a).

Definition hbind {A B} (m : hm A) (k : A -> hm B) : hm B :=
  fun h =>
    match m h with
    | (h', Val a) => k a h'
    | (h', Raise e) => (h', Raise e)
    | (h', OutOfFuel) => (h', OutOfFuel)
    end.

Notation "x <<- m ;; k" := (hbind m (fun x => k))
  (at level 100, m at next level, right associativity).

Definition hmapM {A B} (f : A -> hm B) : list A -> hm (list B) :=
  fix go (l : list A) : hm (list B) :=
    match l with
    | [] => hret []
    | x :: r => y <<- f x ;; ys <<- go r ;; hret (y :: ys)
    end.

Definition hfoldM {A S} (f : S -> A -> hm S) : list A -> S -> hm S :=
  fix go (l : list A) (s : S) : hm S :=
    match l with
    | [] => hret s
    | x :: r => s' <<- f s x ;; go r s'
    end.

Fixpoint hassoc (k : string) (fs : list (string * hvalue)) : option hvalue :=
  match fs with
  | [] => None
  | (k', v) :: r => if String.eqb k k' then Some v else hassoc k r
  end.

(** [v.k]; a reference that points nowhere does not occur in a heap built
    by allocation, and reads as a [TypeError]. *)
Definition hget (v : hvalue) (k : string) : hm hvalue :=
  fun h =>
    (h, match v with
        | HUndef | HNull => Raise TypeError
        | HBool _ | HNum _ => Val HUndef
        | HStr s => Val (if String.eqb k "length" then HNum (str_length s) else HUndef)
        | HRef l =>
            match h !! l with
            | Some (CObj fs) => Val (default HUndef (hassoc k fs))
            | Some (CArr xs) =>
                Val (if String.eqb k "length" then HNum (Z.of_nat (length xs)) else HUndef)
            | None => Raise TypeError
            end
        end).

(** [a === b]: references are equal when they are the same object. *)
Definition hstrictEq (a b : hvalue) : bool :=
  match a, b with
  | HUndef, HUndef => true
  | HNull, HNull => true
  | HBool x, HBool y => Bool.eqb x y
  | HNum x, HNum y => Z.eqb x y
  | HStr x, HStr y => String.eqb x y
  | HRef x, HRef y => Nat.eqb x y
  | _, _ => false
  end.

Definition htruthy (v : hvalue) : bool :=
  match v with
  | HUndef | HNull => false
  | HBool b => b
  | HNum n => negb (Z.eqb n 0)
  | HStr s => negb (String.eqb s "")
  | HRef _ => true
  end.

(** The elements of [v] when [Array.isArray(v)]. *)
Definition arrayOf (h : heap) (v : hvalue) : option (list hvalue) :=
  match v with
  | HRef l => match h !! l with Some (CArr xs) => Some xs | _ => None end
  | _ => None
  end.

(** [v.forEach(f)] *)
Definition hforEach {S} (v : hvalue) (f : S -> hvalue -> hm S) (s : S) : hm S :=
  fun h =>
    match arrayOf h v with
    | Some xs => hfoldM f xs s h
    | None => (h, Raise TypeError)
    end.

Definition scanDeclarations (name : hvalue) (decls : hvalue) (isShadowed : bool) : hm bool :=
  hforEach decls (fun isShadowed node =>
    id <<- hget node "id" ;;
    n <<- hget id "name" ;;
    hret (if hstrictEq n name then true else isShadowed)) isShadowed.

Definition scanStatement (name : hvalue) (isShadowed : bool) (node : hvalue) : hm bool :=
  ty <<- hget node "type" ;;
  isShadowed <<-
    (if hstrictEq ty (HStr "VariableDeclaration")
     then decls <<- hget node "declarations" ;; scanDeclarations name decls isShadowed
     else hret isShadowed) ;;
  if hstrictEq ty (HStr "ForStatement")
  then
    init <<- hget node "init" ;;
    if htruthy init
    then
      ity <<- hget init "type" ;;
      if hstrictEq ity (HStr "VariableDeclaration")
      then decls <<- hget init "declarations" ;; scanDeclarations name decls isShadowed
      else hret isShadowed
    else hret isShadowed
  else hret isShadowed.

Fixpoint indexed {A} (i : nat) (l : list A) : list (string * A) :=
  match l with
  | [] => []
  | x :: r => (nat_key i, x) :: indexed (S i) r
  end.

Fixpoint charsOf (s : string) : list hvalue :=
  match s with
  | EmptyString => []
  | String c r => HStr (String c EmptyString) :: charsOf r
  end.

(** [Object.keys(v)] with the value under each key. *)
Definition ownEntries (v : hvalue) : hm (list (string * hvalue)) :=
  fun h =>
    (h, match v with
        | HUndef | HNull => Raise TypeError
        | HBool _ | HNum _ => Val []
        | HStr s => Val (indexed 0 (charsOf s))
        | HRef l =>
            match h !! l with
            | Some (CObj fs) => Val fs
            | Some (CArr xs) => Val (indexed 0 xs)
            | None => Raise TypeError
            end
        end).

(** A fresh object or array. *)
Definition alloc (c : cell) : hm loc :=
  fun h => ((h ++ [c])%list, Val (length h)).

Fixpoint putField (k : string) (v : hvalue) (fs : list (string * hvalue)) : list (string * hvalue) :=
  match fs with
  | [] => [(k, v)]
  | (k', v') :: r => if String.eqb k k' then (k, v) :: r else (k', v') :: putField k v r
  end.

(** [o[k] = v] for the object at [o]. *)
Definition setField (o : loc) (k : string) (v : hvalue) : hm unit :=
  fun h =>
    match h !! o with
    | Some (CObj fs) => (<[o := CObj (putField k v fs)]> h, Val tt)
    | _ => (h, Val tt)
    end.

(** The new value of one key. *)
Definition replaceValue (rec : hvalue -> hm hvalue) (v : hvalue) : hm hvalue :=
  fun h =>
    match v with
    | HRef _ =>
        match arrayOf h v with
        | Some ys => (ys' <<- hmapM rec ys ;; a <<- alloc (CArr ys') ;; hret (HRef a)) h
        | None => rec v h
        end
    | _ => (h, Val v)
    end.

(** The reduction over the keys, writing into the object at [newAst]. *)
Definition reduceKeys (rec : hvalue -> hm hvalue) (newAst : loc) :
    list (string * hvalue) -> hm unit :=
  fix go (l : list (string * hvalue)) : hm unit :=
    match l with
    | [] => hret tt
    | (k, v) :: r =>
        v' <<- replaceValue rec v ;;
        _ <<- setField newAst k v' ;;
        go r
    end.

Fixpoint replaceIdentifier (fuel : nat) (name withAst inAst : hvalue) : hm hvalue :=
  match fuel with
  | O => fun h => (h, OutOfFuel)
  | S fuel' =>
      ty <<- hget inAst "type" ;;
      isTarget <<-
        (if hstrictEq ty (HStr "Identifier")
         then n <<- hget inAst "name" ;; hret (hstrictEq n name)
         else hret false) ;;
      if isTarget then hret withAst
      else
        body <<- hget inAst "body" ;;
        isShadowed <<-
          (fun h =>
             match arrayOf h body with
             | Some _ => hforEach body (scanStatement name) false h
             | None => (h, Val false)
             end) ;;
        if isShadowed then hret inAst
        else
          entries <<- ownEntries inAst ;;
          newAst <<- alloc (CObj []) ;;
          _ <<- reduceKeys (replaceIdentifier fuel' name withAst) newAst entries ;;
          hret (HRef newAst)
  end.

(** *** Trees on the heap *)

(** [store v h] puts the tree [v] on the heap [h], children first, and
    gives its reference. *)
Fixpoint store (v : value) (h : heap) {struct v} : heap * hvalue :=
  match v with
  | VUndef => (h, HUndef)
  | VNull => (h, HNull)
  | VBool b => (h, HBool b)
  | VNum n => (h, HNum n)
  | VStr s => (h, HStr s)
  | VArr xs =>
      let '(h', hxs) :=
        (fix go (l : list value) (h : heap) : heap * list hvalue :=
           match l with
           | [] => (h, [])
           | x :: r =>
               let '(h1, hx) := store x h in
               let '(h2, hr) := go r h1 in
               (h2, hx :: hr)
           end) xs h in
      ((h' ++ [CArr hxs])%list, HRef (length h'))
  | VObj fs =>
      let '(h', hfs) :=
        (fix go (l : list (string * value)) (h : heap) : heap * list (string * hvalue) :=
           match l with
           | [] => (h, [])
           | (k, x) :: r =>
               let '(h1, hx) := store x h in
               let '(h2, hr) := go r h1 in
               (h2, (k, hx) :: hr)
           end) fs h in
      ((h' ++ [CObj hfs])%list, HRef (length h'))
  end.

Definition loadList {A B} (f : A -> option B) : list A -> option (list B) :=
  fix go (l : list A) : option (list B) :=
    match l with
    | [] => Some []
    | x :: r =>
        match f x, go r with
        | Some y, Some ys => Some (y :: ys)
        | _, _ => None
        end
    end.

(** [loadAvoid X fuel h v] reads back the tree under [v], to the depth
    [fuel], and fails when the way leads through an object in [X]. *)
Fixpoint loadAvoid (X : loc -> bool) (fuel : nat) (h : heap) (v : hvalue) : option value :=
  match fuel with
  | O => None
  | S fuel' =>
      match v with
      | HUndef => Some VUndef
      | HNull => Some VNull
      | HBool b => Some (VBool b)
      | HNum n => Some (VNum n)
      | HStr s => Some (VStr s)
      | HRef l =>
          if X l then None
          else
            match h !! l with
            | Some (CArr xs) =>
                match loadList (loadAvoid X fuel' h) xs with
                | Some xs' => Some (VArr xs')
                | None => None
                end
            | Some (CObj fs) =>
                match loadList (fun kv : string * hvalue =>
                                  match loadAvoid X fuel' h (snd kv) with
                                  | Some x => Some (fst kv, x)
                                  | None => None
                                  end) fs with
                | Some fs' => Some (VObj fs')
                | None => None
                end
            | None => None
            end
      end
  end.

(** [load fuel h v] reads back the tree under [v], to the depth [fuel]. *)
Definition load : nat -> heap -> hvalue -> option value := loadAvoid (fun _ => false).

(** The tree [v] can be read under [hv] without passing through [X]. *)
Definition readsAvoid (X : loc -> bool) (h : heap) (hv : hvalue) (v : value) : Prop :=
  exists d, loadAvoid X d h hv = Some v.

(** Every object outside [X] is in [h'] what it is in [h]. *)
Definition stable (X : loc -> bool) (h h' : heap) : Prop :=
  forall l c, X l = false -> h !! l = Some c -> h' !! l = Some c.

(** The primitive values, which are the same in both models. *)
Definition primitive (v : value) : option hvalue :=
  match v with
  | VUndef => Some HUndef
  | VNull => Some HNull
  | VBool b => Some (HBool b)
  | VNum n => Some (HNum n)
  | VStr s => Some (HStr s)
  | VArr _ | VObj _ => None
  end.

(** The outcome that corresponds to a result of the tree model. *)
Definition outcomeOf {A} (r : res A) : outcome A :=
  match r with
  | Ok a => Val a
  | Throw e => Raise e
  end.

(** The keys of every object of the tree are distinct, as the keys of an
    object are. *)
Fixpoint distinctKeys (v : value) : Prop :=
  match v with
  | VArr xs =>
      (fix all (l : list value) : Prop :=
         match l with
         | [] => True
         | x :: r => distinctKeys x /\ all r
         end) xs
  | VObj fs =>
      NoDup (map fst fs)
      /\ (fix all (l : list (string * value)) : Prop :=
            match l with
            | [] => True
            | kv :: r => distinctKeys (snd kv) /\ all r
            end) fs
  | _ => True
  end.

(** A computation that only reads leaves the heap as it is. *)
Definition readonly {A} (m : hm A) : Prop := forall h, fst (m h) = h.

(** A computation keeps [h0] when every heap that starts with [h0] still
    starts with [h0] after it. *)
Definition keeps {A} (h0 : heap) (m : hm A) : Prop :=
  forall h, h0 `prefix_of` h -> h0 `prefix_of` fst (m h).

End Store.

(** ** The two models of [replaceIdentifier] side by side *)

Module Relate.

(** What a reference that can be read points to. *)
Definition fieldsRead (R : Store.hvalue -> value -> Prop)
    (hfs : list (string * Store.hvalue)) (fs : list (string * value)) : Prop :=
  Forall2 (fun hkv kv => fst hkv = fst kv /\ R (snd hkv) (snd kv)) hfs fs.

(** Every object in [X] is on the heap. *)
Definition covered (X : nat -> bool) (h : Store.heap) : Prop :=
  forall l, X l = true -> (l < length h)%nat.

(** The outcome [ho] of the store model agrees with the result [r] of the
    tree model: the same exception, or values related by [R]. *)
Definition agrees {A B} (R : A -> B -> Prop) (ho : Store.outcome A) (r : res B) : Prop :=
  match r with
  | Ok b => exists a, ho = Store.Val a /\ R a b
  | Throw e => ho = Store.Raise e
  end.

(** The statement of the refinement for calls with the fuel [d]. *)
Definition refinesAt (name : value) (hname : Store.hvalue) (d : nat) : Prop :=
  forall (X : nat -> bool) (h : Store.heap) (hin hw : Store.hvalue) (t w : value),
    covered X h ->
    Store.loadAvoid X d h hin = Some t ->
    Store.distinctKeys t ->
    Store.readsAvoid X h hw w ->
    exists h' ho,
      Store.replaceIdentifier d hname hw hin h = (h', ho)
      /\ h `prefix_of` h'
      /\ agrees (Store.readsAvoid X h') ho (replaceIdentifier name w t).

(** A field value: a primitive, or a reference that can be read to the
    depth [d]. *)
Definition loadsWithin (d : nat) (X : nat -> bool) (h : Store.heap) (hv : Store.hvalue) (v : value) : Prop :=
  match hv with
  | Store.HRef _ => Store.loadAvoid X d h hv = Some v
  | _ => Store.primitive v = Some hv
  end.

(** The readers of the whole heap, with nothing to avoid. *)
Abbreviation everywhere := (fun _ : nat => false).

End Relate.

(** ** A host for worked examples

    A printer for identifiers, literals and binary expressions, in the
    format escodegen prints them (operands parenthesised by precedence), a
    parser given by a table of texts and trees, and files given by a table. *)

Definition precedence (op : string) : nat :=
  if String.eqb op "*" || String.eqb op "/" || String.eqb op "%" then 13%nat
  else if String.eqb op "+" || String.eqb op "-" then 12%nat
  else 0%nat.

Fixpoint printExpression (fuel : nat) (ctx : nat) (e : value) : res string :=
  match fuel with
  | O => Throw TypeError
  | S fuel' =>
      ty <- get e "type" ;;
      if strictEq ty (VStr "Identifier") then n <- get e "name" ;; Ok (toString n)
      else if strictEq ty (VStr "Literal") then raw <- get e "raw" ;; Ok (toString raw)
      else if strictEq ty (VStr "BinaryExpression")
      then
        op <- get e "operator" ;;
        l <- get e "left" ;;
        r <- get e "right" ;;
        let p := precedence (toString op) in
        ls <- printExpression fuel' p l ;;
        rs <- printExpression fuel' (S p) r ;;
        let s := ls ++ " " ++ toString op ++ " " ++ rs in
        Ok (if Nat.ltb p ctx then "(" ++ s ++ ")" else s)
      else Throw TypeError
  end.

Fixpoint lookupText {A} (k : string) (table : list (string * A)) : option A :=
  match table with
  | [] => None
  | (k', v) :: r => if String.eqb k k' then Some v else lookupText k r
  end.

Definition exampleHost (files : list (string * string)) (trees : list (string * value)) : host :=
  Host (fun code _ =>
          match lookupText (default "null" code) trees with
          | Some t => Ok t
          | None => Throw (SyntaxError "Line 1: Unexpected token")
          end)
       (printExpression 100 0)
       (fun p => lookupText p files)
       (fun ctx f => ctx ++ "/" ++ f)
       "/src"
       None.

Definition ExportNamedDeclaration (declaration : value) : value :=
  VObj [("type", VStr "ExportNamedDeclaration"); ("declaration", declaration);
        ("specifiers", VArr []); ("source", VNull)].

(** A node with the [range] the parser adds under the option [range: true]. *)
Definition withRange (r0 r1 : Z) (node : value) : value :=
  match node with
  | VObj fs => VObj (fs ++ [("range", VArr [VNum r0; VNum r1])])%list
  | _ => node
  end.

(** *** The module and the host sources of the worked examples *)

(** [export function f(a, b, c) { return a + b + c; }] *)
Definition sumText : string := "export function f(a, b, c) { return a + b + c; }".

Definition sumTree : value :=
  Program [ExportNamedDeclaration
             (FunctionDeclaration "f" [Identifier "a"; Identifier "b"; Identifier "c"]
                [ReturnStatement
                   (BinaryExpression "+"
                      (BinaryExpression "+" (Identifier "a") (Identifier "b"))
                      (Identifier "c"))])].

Definition magicCall (r0 r1 : Z) (args : list value) : value :=
  withRange r0 r1 (CallExpression (Identifier JsInlineLoader.magic) args).

Definition argumentsTree (args : list value) : value :=
  Program [ExpressionStatement (CallExpression (Identifier "X") args)].

(** The files and the parses of the examples: the module [m] above; a
    module [broken] whose text is not a program; the texts the two drivers
    hand to the parser on the example sources. *)
Definition exampleFiles : list (string * string) :=
  [("/src/m", sumText); ("/src/broken", "function (")].

Definition exampleTrees : list (string * value) :=
  [(sumText, sumTree);
   ("X(1, 2)", argumentsTree [NumLiteral 1; NumLiteral 2]);
   ("X(1, 2, 3)", argumentsTree [NumLiteral 1; NumLiteral 2; NumLiteral 3]);
   ("X(1, 2, 3, 4)", argumentsTree [NumLiteral 1; NumLiteral 2; NumLiteral 3; NumLiteral 4]);
   ("___js_inline_loader_inline('m',f,1, 2);",
    Program [ExpressionStatement
               (magicCall 0 38 [StrLiteral "m"; Identifier "f"; NumLiteral 1; NumLiteral 2])]);
   ("___js_inline_loader_inline('m',f,1, 2, 3, 4);",
    Program [ExpressionStatement
               (magicCall 0 44 [StrLiteral "m"; Identifier "f"; NumLiteral 1; NumLiteral 2;
                                NumLiteral 3; NumLiteral 4])]);
   ("1 + 2 + c;",
    Program [ExpressionStatement
               (BinaryExpression "+"
                  (BinaryExpression "+" (NumLiteral 1) (NumLiteral 2)) (Identifier "c"))]);
   ("___js_inline_loader_inline('broken',f);",
    Program [ExpressionStatement (magicCall 0 38 [StrLiteral "broken"; Identifier "f"])]);
   ("/* Parsing error in module broken */;",
    Program [VObj [("type", VStr "EmptyStatement")]]);
   ("var a = ___js_inline_loader_inline('nofile',f,1); ___js_inline_loader_inline('m',f,1, 2, 3);",
    Program [VariableDeclaration
               [VariableDeclarator (Identifier "a")
                  (magicCall 8 48 [StrLiteral "nofile"; Identifier "f"; NumLiteral 1])];
             ExpressionStatement
               (magicCall 50 95 [StrLiteral "m"; Identifier "f"; NumLiteral 1; NumLiteral 2;
                                 NumLiteral 3])])].

Definition demoHost : host := exampleHost exampleFiles exampleTrees.

(** ** The vocabulary of the statements *)

(** A declarator declares [name]: its [id] is an identifier named [name]. *)
Definition declares (name : string) (d : value) : Prop :=
  exists id, get d "id" = Ok id /\ get id "name" = Ok (VStr name).

(** A node of type [VariableDeclaration] with a declarator for [name]. *)
Definition declaresName (name : string) (decl : value) : Prop :=
  get decl "type" = Ok (VStr "VariableDeclaration")
  /\ exists ds, get decl "declarations" = Ok (VArr ds) /\ Exists (declares name) ds.

(** A statement that shadows [name]: a variable declaration of [name], or
    a for-statement whose initializer is one. *)
Definition shadows (name : string) (stmt : value) : Prop :=
  declaresName name stmt
  \/ (get stmt "type" = Ok (VStr "ForStatement")
      /\ exists init, get stmt "init" = Ok init /\ declaresName name init).

(** The shape the scan relies on: a declarator has an [id] that can be
    read, a variable declaration has an array of declarators. *)
Definition declaratorOk (d : value) : Prop :=
  exists id n, get d "id" = Ok id /\ get id "name" = Ok n.

Definition declarationOk (decl : value) : Prop :=
  get decl "type" = Ok (VStr "VariableDeclaration") ->
  exists ds, get decl "declarations" = Ok (VArr ds) /\ Forall declaratorOk ds.

Definition statementOk (stmt : value) : Prop :=
  (exists ty, get stmt "type" = Ok ty)
  /\ declarationOk stmt
  /\ (get stmt "type" = Ok (VStr "ForStatement") ->
      forall init, get stmt "init" = Ok init -> declarationOk init).

(** The new value [v'] of a field whose old value is [v]. *)
Definition fieldResult (name withAst : value) (v v' : value) : Prop :=
  match v with
  | VArr ys =>
      exists ys', v' = VArr ys'
                  /\ Forall2 (fun y y' => replaceIdentifier name withAst y = Ok y') ys ys'
  | VObj _ => replaceIdentifier name withAst v = Ok v'
  | _ => v' = v
  end.

(** The new fields: the same keys in the same order, each with its new
    value. *)
Definition fieldsResult (name withAst : value) (fs fs' : list (string * value)) : Prop :=
  Forall2 (fun kv kv' => fst kv = fst kv' /\ fieldResult name withAst (snd kv) (snd kv')) fs fs'.

(** The worked example of the specification: [function f(x) { return x*2; }]
    inlined with the argument [a+1]. *)
Definition timesTwo : value :=
  FunctionDeclaration "f" [Identifier "x"]
    [ReturnStatement (BinaryExpression "*" (Identifier "x") (NumLiteral 2))].

Definition aPlusOne : value := BinaryExpression "+" (Identifier "a") (NumLiteral 1).

(** The statement [module.exports = { ... }]. *)
Definition exportsAssignment (properties : list value) : value :=
  ExpressionStatement
    (AssignmentExpression (MemberExpression (Identifier "module") (Identifier "exports"))
       (ObjectExpression properties)).

(** The state after one more diagnostic. *)
Definition withError (st : loaderState) (msg : string) : loaderState :=
  LoaderState (errors st ++ [msg]) (dependencies st) (cacheableFlag st) (consoleOut st).

Definition withDependency (st : loaderState) (p : string) : loaderState :=
  LoaderState (errors st) (dependencies st ++ [p]) (cacheableFlag st) (consoleOut st).

(** The text [source.replace(MACRO, ...)] produces: the callback of the
    second variant has no effect besides setting [hasMacros]. *)
Fixpoint normalized (segs : list segment) : string :=
  match segs with
  | [] => ""
  | SChar c :: r => String c (normalized r)
  | SMatch cs :: r =>
      ("___js_inline_loader_inline('" ++ toString (group 1 cs) ++ "',"
       ++ toString (group 2 cs)
       ++ (if truthy (group 3 cs) then ")" else ","))
      ++ normalized r
  end.

(** One round of the loop that found a site and got an answer for it, an
    expansion or a placeholder: from the text and the state before it to the
    spliced text and the state after it. *)
Inductive round (H : host) : string * loaderState -> string * loaderState -> Prop :=
| round_intro (source replacement : string)
    (ast token arguments a0 a1 gModule gFunction fnArgs range r0 r1 : value)
    (st st' : loaderState) :
    esprima_parse H (Some source) moduleRangeOptions = Ok ast ->
    JsInlineLoader.findInlineToken ast = Ok token ->
    truthy token = true ->
    get token "arguments" = Ok arguments ->
    get_index arguments 0 = Ok a0 -> get a0 "value" = Ok gModule ->
    get_index arguments 1 = Ok a1 -> get a1 "name" = Ok gFunction ->
    JsInlineLoader.slice2 arguments = Ok fnArgs ->
    JsInlineLoader.getFunctionCode H gModule gFunction fnArgs st = (st', Ok replacement) ->
    get token "range" = Ok range ->
    get_index range 0 = Ok r0 -> get_index range 1 = Ok r1 ->
    round H (source, st)
      (JsInlineLoader.substringTo source r0 ++ replacement
       ++ JsInlineLoader.substringFrom source r1, st').

(** ** More shapes of the module tree *)

Definition MethodDefinition (key fn : value) (static : bool) : value :=
  VObj [("type", VStr "MethodDefinition"); ("key", key); ("computed", VBool false);
        ("value", fn); ("kind", VStr "method"); ("static", VBool static)].

Definition ClassDeclaration (id : value) (members : list value) : value :=
  VObj [("type", VStr "ClassDeclaration"); ("id", id); ("superClass", VNull);
        ("body", VObj [("type", VStr "ClassBody"); ("body", VArr members)])].

Definition ExportDefaultDeclaration (declaration : value) : value :=
  VObj [("type", VStr "ExportDefaultDeclaration"); ("declaration", declaration)].

Definition ArrayExpression (elements : list value) : value :=
  VObj [("type", VStr "ArrayExpression"); ("elements", VArr elements)].

(** A method of a class, by name, function and [static] flag, and what it
    adds to the table of exported functions. *)
Definition method (m : string * value * bool) : value :=
  MethodDefinition (Identifier (fst (fst m))) (snd (fst m)) (snd m).

Definition withMethod (table : gmap string value) (m : string * value * bool)
    : gmap string value :=
  if snd m then assigned table (fst (fst m)) (snd (fst m)) else table.

(** A property [key: function(...) {...}] of the bag, and what it adds. *)
Definition inPlace (p : string * value) : value :=
  Property (Identifier (fst p)) (snd p) false.

Definition withInPlace (table : gmap string value) (p : string * value)
    : gmap string value :=
  assigned table (fst p) (snd p).

(** The [type] of a node, [undefined] where there is none to read. *)
Definition typeOf (v : value) : value :=
  match get v "type" with
  | Ok ty => ty
  | Throw _ => VUndef
  end.

(** A declarator [name = init] of a [var] statement, and what it does to
    the table of exported functions. *)
Definition declarator (d : string * value) : value :=
  VariableDeclarator (Identifier (fst d)) (snd d).

Definition withDeclarator (table : gmap string value) (d : string * value)
    : gmap string value :=
  if strictEq (typeOf (snd d)) (VStr "FunctionExpression") then delete (fst d) table
  else table.

(** The extensions [loadModuleContents] tries, in order: the configured
    ones, or the empty one and [.js]. *)
Definition extensions (H : host) : list string :=
  default [""; ".js"] (resolve_extensions H).

(** The function [loadModuleContents] folds over them, [read] being the
    read of the file under an extension. *)
Definition firstRead (read : string -> option string) (payload : option string)
    (ext : string) : option string :=
  match payload with
  | Some _ => payload
  | None => read ext
  end.

(** ** The search of [findInlineToken], flattened

    The values on which a search that is never cut short calls
    [findInlineToken], in the order of the calls: the value itself; then,
    key by key, the value of the key when it is an object, or the elements
    of the value when it is an array, each one for which [typeof] answers
    ['object'] ([null] is one of them). *)
Definition below (rec : value -> list value) (v : value) : list value :=
  match v with
  | VObj _ => rec v
  | VArr ys => flat_map (fun y => if JsInlineLoader.typeofObject y then rec y else []) ys
  | _ => []
  end.

Fixpoint entries (ast : value) {struct ast} : list value :=
  ast ::
  match ast with
  | VObj fs => flat_map (fun kv => below entries (snd kv)) fs
  | VArr xs => flat_map (below entries) xs
  | _ => []
  end.

(** A node that is a call of the synthetic function. *)
Definition isInlineCall (v : value) : bool :=
  match v with
  | VObj fs =>
      match JsInlineLoader.isMagicCall fs with
      | Ok found => found
      | Throw _ => false
      end
  | _ => false
  end.

(** What one call does with its own argument, before it looks below:
    the read of [ast.type] throws on [null]; a call of the synthetic
    function is the answer. *)
Definition visit (n : value) : res value :=
  match n with
  | VUndef | VNull => Throw TypeError
  | VObj fs => found <- JsInlineLoader.isMagicCall fs ;; Ok (if found then n else VNull)
  | _ => Ok VNull
  end.

(** A value the search passes over: not [null], not a call of the
    synthetic function, and its callee, if it is a call, can be read. *)
Definition passed (n : value) : Prop := visit n = Ok VNull.

(** A text with a percent sign in it. *)
Fixpoint hasPercent (s : string) : bool :=
  match s with
  | EmptyString => false
  | String c t => Ascii.eqb c "%" || hasPercent t
  end.

(** A position with no percent sign in the text after it. *)
Definition clean (cur : cursor) : Prop := hasPercent (rest cur) = false.

(** The segments of a sweep that finds no match. *)
Fixpoint characters (s : string) : list segment :=
  match s with
  | EmptyString => []
  | String c t => SChar c :: characters t
  end.

(** The state after [this.cacheable()]. *)
Definition madeCacheable (st : loaderState) : loaderState :=
  LoaderState (errors st) (dependencies st) true (consoleOut st).

(** A placeholder: the comment put in the place of a site that was
    reported. *)
Definition placeholder (s : string) : Prop := exists body, s = "/* " ++ body ++ " */".

(** A line: a text without a line terminator. *)
Fixpoint noBreak (s : string) : bool :=
  match s with
  | EmptyString => true
  | String c t => negb (isLineTerminator c) && noBreak t
  end.

Definition CRLF : string := String (ascii_of_nat 13) LF.

(** The expansion of a site of [function-inline-loader.js], from the lines
    of the rendered code: behind the indentation of the site and, when the
    site has text in front of the macro on its line, behind that text, the
    lines after the first indented four columns deeper. *)
Definition indented (gIndent : string) (gAssignExpr : value) (lines : list string) : string :=
  if truthy gAssignExpr
  then gIndent ++ toString gAssignExpr ++ join (LF ++ gIndent ++ "    ") lines
  else gIndent ++ join (LF ++ gIndent) lines.

(** ** Trees without an occurrence of a name

    [free name t]: the tree [t], made of nodes, arrays of nodes and scalars
    as the parser makes them, has no identifier node named [name]; its
    statement lists have the shape the shadow scan reads. *)
Definition allOf {A} (P : A -> Prop) : list A -> Prop :=
  fix all (l : list A) : Prop :=
    match l with
    | [] => True
    | x :: r => P x /\ all r
    end.

Definition freeField (rec : value -> Prop) (v : value) : Prop :=
  match v with
  | VObj _ => rec v
  | VArr ys => allOf (fun y => match y with VObj _ => rec y | _ => False end) ys
  | _ => True
  end.

Fixpoint free (name : string) (t : value) {struct t} : Prop :=
  match t with
  | VObj fs =>
      isTarget (VStr name) fs = false
      /\ (forall stmts, assoc "body" fs = Some (VArr stmts) -> Forall statementOk stmts)
      /\ allOf (fun kv => freeField (free name) (snd kv)) fs
  | _ => False
  end.

(** A function node with [n] parameters: a node that is not an identifier,
    with an array of [n] parameters and a body that is a node and not an
    identifier either. *)
Definition functionOfArity (n : nat) (fnAst : value) : Prop :=
  exists (fs bfs : list (string * value)) (ty bty : string) (ps : list value),
    fnAst = VObj fs
    /\ assoc "type" fs = Some (VStr ty) /\ ty <> "Identifier"
    /\ assoc "params" fs = Some (VArr ps) /\ length ps = n
    /\ assoc "body" fs = Some (VObj bfs)
    /\ assoc "type" bfs = Some (VStr bty) /\ bty <> "Identifier".

(** ** More hosts for worked examples *)

(** A host whose printer knows calls:
    [callee(arg, ...)] in the format of escodegen, over the expressions of
    the printer above; and as module a function that returns a call of the
    synthetic function on itself. *)
Definition printCall (e : value) : res string :=
  ty <- get e "type" ;;
  if strictEq ty (VStr "CallExpression")
  then
    callee <- get e "callee" ;;
    c <- printExpression 100 0 callee ;;
    arguments <- get e "arguments" ;;
    match arguments with
    | VArr xs => ss <- mapM (printExpression 100 0) xs ;; Ok (c ++ "(" ++ join ", " ss ++ ")")
    | _ => Throw TypeError
    end
  else printExpression 100 0 e.

(** [export function f() { return ___js_inline_loader_inline('m', f); }] *)
Definition selfText : string :=
  "export function f() { return ___js_inline_loader_inline('m', f); }".

Definition selfTree : value :=
  Program [ExportNamedDeclaration
             (FunctionDeclaration "f" []
                [ReturnStatement
                   (CallExpression (Identifier JsInlineLoader.magic)
                      [StrLiteral "m"; Identifier "f"])])].

Definition selfSite : string := "___js_inline_loader_inline('m', f)".

Definition selfHost : host :=
  Host (fun code _ =>
          match lookupText (default "null" code)
                  [(selfText, selfTree);
                   (selfSite,
                    Program [ExpressionStatement
                               (magicCall 0 34 [StrLiteral "m"; Identifier "f"])])] with
          | Some t => Ok t
          | None => Throw (SyntaxError "Line 1: Unexpected token")
          end)
       printCall
       (fun p => lookupText p [("/src/m", selfText)])
       (fun ctx f => ctx ++ "/" ++ f)
       "/src"
       None.

(** A host that renders every function as the same two lines. *)
Definition twoLineHost : host :=
  Host (fun code _ =>
          match lookupText (default "null" code) exampleTrees with
          | Some t => Ok t
          | None => Throw (SyntaxError "Line 1: Unexpected token")
          end)
       (fun _ => Ok ("a();" ++ LF ++ "b();"))
       (fun p => lookupText p exampleFiles)
       (fun ctx f => ctx ++ "/" ++ f)
       "/src"
       None.

(** A host for a site with more of an expression behind the call on its
    line: [var a = %inline('m').f(1) + g(2);]. *)
Definition trailingHost : host :=
  exampleHost exampleFiles
    [(sumText, sumTree);
     ("X(1) + g(2)",
      Program [ExpressionStatement
                 (BinaryExpression "+"
                    (CallExpression (Identifier "X") [NumLiteral 1])
                    (CallExpression (Identifier "g") [NumLiteral 2]))])].

(** ** Cursors after a piece of text

    The characters of [s] put in front of the consumed characters, the
    character before the position behind [s], and a text all of whose
    characters are of a class. *)
Fixpoint revOnto (s : string) (acc : list ascii) : list ascii :=
  match s with
  | EmptyString => acc
  | String c t => revOnto t (c :: acc)
  end.

Fixpoint lastOf (b : option ascii) (s : string) : option ascii :=
  match s with
  | EmptyString => b
  | String c t => lastOf (Some c) t
  end.

Fixpoint allChars (p : ascii -> bool) (s : string) : bool :=
  match s with
  | EmptyString => true
  | String c t => p c && allChars p t
  end.

(** The text that starts with none of the characters of a class. *)
Definition startsWithout (p : ascii -> bool) (s : string) : bool :=
  match s with
  | EmptyString => true
  | String c _ => negb (p c)
  end.

(** The text [source.replace(MACRO, ...)] makes of a source in
    [js-inline-loader.js]. *)
Definition normalizedSource (source : string) : string :=
  normalized (segments JsInlineLoader.MACRO None source 0).

(** The part of [INLINE_MACRO] from the text %inline on. *)
Definition macroCall : regex :=
   RSeq (RLit "%inline")
  (RSeq (RStar isSpace)
  (RSeq (RLit "(")
  (RSeq (RStar isSpace)
  (RSeq (RClass isQuote)
  (RSeq (RGroup 3 (RPlus (fun c => negb (isQuote c))))
  (RSeq (RClass isQuote)
  (RSeq (RStar isSpace)
  (RSeq (RLit ")")
  (RSeq (RStar isSpace)
  (RSeq (RLit ".")
  (RSeq (RGroup 4 (RPlus isWord))
  (RSeq (RStar isSpace)
  (RSeq (RLit "(")
  (RSeq (RGroup 5 (RStarLazy (fun _ => true)))
  (RSeq (RLit ");") REol))))))))))))))).

(** The value of the second group of [INLINE_MACRO], from the text in front
    of the macro on its line: [undefined] when there is none. *)
Definition assignGroup (assign : string) : value :=
  if String.eqb assign "" then VUndef else VStr assign.

(** * Properties *)

(** ** Basic facts about the primitives *)

Lemma bind_Ok {A B} (m : res A) (k : A -> res B) (b : B) :
  (x <- m ;; k x) = Ok b -> exists a, m = Ok a /\ k a = Ok b.
Proof. destruct m as [a|e]; simpl; [eauto | discriminate]. Qed.

Lemma strictEq_str_true (v : value) (s : string) :
  strictEq v (VStr s) = true <-> v = VStr s.
Proof.
  destruct v; simpl; split; try discriminate; try congruence.
  - intros E. apply String.eqb_eq in E. congruence.
  - intros E. injection E as ->. apply String.eqb_refl.
Qed.

Lemma strictEq_str_refl (s : string) : strictEq (VStr s) (VStr s) = true.
Proof. apply strictEq_str_true. reflexivity. Qed.

Lemma get_Ok_truthy (v : value) : truthy v = true -> exists x, get v "type" = Ok x.
Proof. destruct v; simpl; try discriminate; eauto. Qed.

Lemma get_type_str_truthy (v : value) (s : string) :
  get v "type" = Ok (VStr s) -> truthy v = true.
Proof.
  destruct v; simpl; try discriminate; try reflexivity.
  all: intros E; injection E as E; discriminate.
Qed.

(** ** The shadow scan computes the predicate of the specification *)

#[local] Arguments scanDeclarations : simpl never.
#[local] Arguments scanStatement : simpl never.
#[local] Arguments scanBody : simpl never.

Lemma scanDeclarations_spec (name : string) (ds : list value) (acc : bool) :
  Forall declaratorOk ds ->
  exists b, scanDeclarations (VStr name) (VArr ds) acc = Ok b
            /\ (b = true <-> acc = true \/ Exists (declares name) ds).
Proof.
  unfold scanDeclarations, forEach.
  intros Hok. revert acc.
  induction Hok as [|d ds (id & n & Hid & Hn) _ IH]; intros acc; simpl.
  - exists acc. split; [reflexivity|].
    rewrite Exists_nil. tauto.
  - rewrite Hid. simpl. rewrite Hn. simpl.
    destruct (IH (if strictEq n (VStr name) then true else acc)) as (b & Hb & Hiff).
    exists b. split; [exact Hb|].
    rewrite Hiff, Exists_cons. unfold declares at 1.
    destruct (strictEq n (VStr name)) eqn:E.
    + apply strictEq_str_true in E. subst n. split; [|tauto].
      intros _. right. left. exists id. split; assumption.
    + split; [tauto|]. intros [Hacc|[(id' & Hid' & Hn')|Hex]]; try tauto.
      rewrite Hid in Hid'. injection Hid' as <-.
      rewrite Hn in Hn'. injection Hn' as ->.
      rewrite strictEq_str_refl in E. discriminate.
Qed.

Lemma scanStatement_spec (name : string) (stmt : value) (acc : bool) :
  statementOk stmt ->
  exists b, scanStatement (VStr name) acc stmt = Ok b
            /\ (b = true <-> acc = true \/ shadows name stmt).
Proof.
  intros ((ty & Hty) & Hdecl & Hfor).
  unfold scanStatement. rewrite Hty. simpl.
  unfold shadows, declaresName, declarationOk in *.
  destruct (strictEq ty (VStr "VariableDeclaration")) eqn:Evar.
  - apply strictEq_str_true in Evar. subst ty.
    destruct (Hdecl Hty) as (ds & Hds & Hok).
    rewrite Hds. simpl.
    destruct (scanDeclarations_spec name ds acc Hok) as (b & Hb & Hiff).
    rewrite Hb. simpl.
    exists b. split; [reflexivity|].
    rewrite Hiff. split.
    + intros [?|Hex]; [tauto|]. right. left. eauto.
    + intros [?|[(_ & ds' & Hds' & Hex)|(Hf & _)]]; [tauto| |congruence].
      assert (ds' = ds) as -> by congruence. tauto.
  - simpl.
    destruct (strictEq ty (VStr "ForStatement")) eqn:Efor.
    + apply strictEq_str_true in Efor. subst ty.
      assert (exists init, get stmt "init" = Ok init) as (init & Hinit).
      { destruct stmt; simpl in *; try discriminate; eauto. }
      rewrite Hinit. simpl.
      destruct (truthy init) eqn:Etr.
      * destruct (get_Ok_truthy init Etr) as (ity & Hity).
        rewrite Hity. simpl.
        destruct (strictEq ity (VStr "VariableDeclaration")) eqn:Ei.
        -- apply strictEq_str_true in Ei. subst ity.
           destruct (Hfor Hty init Hinit Hity) as (ds & Hds & Hok).
           rewrite Hds. simpl.
           destruct (scanDeclarations_spec name ds acc Hok) as (b & Hb & Hiff).
           exists b. split; [exact Hb|].
           rewrite Hiff. split.
           ++ intros [?|Hex]; [tauto|]. right. right. split; [exact Hty|].
              exists init. eauto.
           ++ intros [?|[(Hv & _)|(_ & init' & Hinit' & _ & ds' & Hds' & Hex)]];
                [tauto|congruence|].
              assert (init' = init) as -> by congruence.
              assert (ds' = ds) as -> by congruence. tauto.
        -- exists acc. split; [reflexivity|]. split; [tauto|].
           intros [?|[(Hv & _)|(_ & init' & Hinit' & Hity' & _)]];
             [tauto|congruence|].
           assert (init' = init) as -> by congruence.
           assert (ity = VStr "VariableDeclaration") as -> by congruence.
           rewrite strictEq_str_refl in Ei. discriminate.
      * exists acc. split; [reflexivity|]. split; [tauto|].
        intros [?|[(Hv & _)|(_ & init' & Hinit' & Hity' & _)]];
          [tauto|congruence|].
        assert (init' = init) as -> by congruence.
        apply get_type_str_truthy in Hity'. congruence.
    + exists acc. split; [reflexivity|]. split; [tauto|].
      intros [?|[(Hv & _)|(Hf & _)]]; [tauto| |].
      * assert (ty = VStr "VariableDeclaration") as -> by congruence. discriminate.
      * assert (ty = VStr "ForStatement") as -> by congruence. discriminate.
Qed.

Lemma scanBody_fold (name : string) (stmts : list value) (acc : bool) :
  Forall statementOk stmts ->
  exists b, foldM (scanStatement (VStr name)) stmts acc = Ok b
            /\ (b = true <-> acc = true \/ Exists (shadows name) stmts).
Proof.
  intros Hok. revert acc.
  induction Hok as [|s stmts Hs _ IH]; intros acc; simpl.
  - exists acc. split; [reflexivity|]. rewrite Exists_nil. tauto.
  - destruct (scanStatement_spec name s acc Hs) as (b1 & Hb1 & Hiff1).
    rewrite Hb1. simpl.
    destruct (IH b1) as (b & Hb & Hiff).
    exists b. split; [exact Hb|].
    rewrite Hiff, Hiff1, Exists_cons. tauto.
Qed.

Lemma scanBody_spec (name : string) (stmts : list value) :
  Forall statementOk stmts ->
  exists b, scanBody (VStr name) (VArr stmts) = Ok b
            /\ (b = true <-> Exists (shadows name) stmts).
Proof.
  intros Hok.
  destruct (scanBody_fold name stmts false Hok) as (b & Hb & Hiff).
  exists b. split; [exact Hb|].
  rewrite Hiff. split; [|tauto]. intros [?|?]; [discriminate|assumption].
Qed.

Lemma isTarget_not_identifier (name : value) (fs : list (string * value)) :
  assoc "type" fs <> Some (VStr "Identifier") -> isTarget name fs = false.
Proof.
  intros Hty. unfold isTarget.
  destruct (strictEq (default VUndef (assoc "type" fs)) (VStr "Identifier")) eqn:E;
    [|reflexivity].
  apply strictEq_str_true in E.
  destruct (assoc "type" fs); simpl in E; congruence.
Qed.

(** C1: a block-like node whose statement list holds a variable declaration
    of the substituted name, or a for-statement whose initializer is such a
    declaration, comes back from [replaceIdentifier] unchanged. *)
Theorem C1_shadowing_block_is_returned_unchanged
    (name : string) (withAst : value) (fs : list (string * value)) (stmts : list value) :
  assoc "body" fs = Some (VArr stmts) ->
  assoc "type" fs <> Some (VStr "Identifier") ->
  Forall statementOk stmts ->
  Exists (shadows name) stmts ->
  replaceIdentifier (VStr name) withAst (VObj fs) = Ok (VObj fs).
Proof.
  intros Hbody Hty Hok Hex.
  simpl. rewrite (isTarget_not_identifier _ _ Hty).
  unfold isShadowedIn. rewrite Hbody. simpl.
  destruct (scanBody_spec name stmts Hok) as (b & Hb & Hiff).
  rewrite Hb. simpl.
  apply Hiff in Hex. subst b. reflexivity.
Qed.

Lemma C1_witness :
  let stmts := [VariableDeclaration [VariableDeclarator (Identifier "x") (NumLiteral 5)];
                ReturnStatement (BinaryExpression "*" (Identifier "x") (NumLiteral 2))] in
  Exists (shadows "x") stmts
  /\ replaceIdentifier (VStr "x") (BinaryExpression "+" (Identifier "a") (NumLiteral 1))
       (BlockStatement stmts) = Ok (BlockStatement stmts).
Proof.
  intros stmts.
  assert (Hex : Exists (shadows "x") stmts).
  { apply Exists_cons_hd. left. split; [reflexivity|].
    eexists. split; [reflexivity|].
    apply Exists_cons_hd. eexists. split; reflexivity. }
  split; [exact Hex|].
  apply (C1_shadowing_block_is_returned_unchanged "x" _ _ stmts).
  - reflexivity.
  - discriminate.
  - repeat constructor; try (eexists; reflexivity); try discriminate.
    intros _. eexists. split; [reflexivity|].
    repeat constructor. do 2 eexists. split; reflexivity.
  - exact Hex.
Defined.

(** The loop form: [{ for (var x = 0; x < 10; x++) { return x; } }]. *)
Example for_initializer_shadows :
  let b := BlockStatement
             [ForStatement
                (VariableDeclaration [VariableDeclarator (Identifier "x") (NumLiteral 0)])
                (BinaryExpression "<" (Identifier "x") (NumLiteral 10))
                (VObj [("type", VStr "UpdateExpression"); ("operator", VStr "++");
                       ("argument", Identifier "x"); ("prefix", VBool false)])
                (BlockStatement [ReturnStatement (Identifier "x")])] in
  replaceIdentifier (VStr "x") (Identifier "y") b = Ok b.
Proof. reflexivity. Qed.

(** ** The recursion into the fields *)

Lemma mapM_Ok {A B} (f : A -> res B) (l : list A) (l' : list B) :
  mapM f l = Ok l' <-> Forall2 (fun x y => f x = Ok y) l l'.
Proof.
  revert l'. induction l as [|x l IH]; intros l'; simpl.
  - split.
    + intros E. injection E as <-. constructor.
    + intros F. inversion F. reflexivity.
  - split.
    + intros E. apply bind_Ok in E as (y & Hy & E).
      apply bind_Ok in E as (ys & Hys & E). injection E as <-.
      constructor; [exact Hy|]. apply IH. exact Hys.
    + intros F. inversion F as [|? y ? ys Hy Hys]; subst.
      rewrite Hy. simpl. apply IH in Hys. rewrite Hys. reflexivity.
Qed.

Lemma replaceValue_Ok (name withAst v v' : value) :
  replaceValue (replaceIdentifier name withAst) v = Ok v' <-> fieldResult name withAst v v'.
Proof.
  destruct v; simpl; try (split; congruence); try reflexivity.
  split.
  - intros E. apply bind_Ok in E as (ys' & Hys & E). injection E as <-.
    exists ys'. split; [reflexivity|]. apply mapM_Ok. exact Hys.
  - intros (ys' & -> & F). apply mapM_Ok in F. rewrite F. reflexivity.
Qed.

Lemma reduceKeys_Ok (f : value -> res value) (fs fs' : list (string * value)) :
  reduceKeys f fs = Ok fs'
  <-> Forall2 (fun kv kv' => fst kv = fst kv' /\ f (snd kv) = Ok (snd kv')) fs fs'.
Proof.
  revert fs'. induction fs as [|[k v] fs IH]; intros fs'; simpl.
  - split.
    + intros E. injection E as <-. constructor.
    + intros F. inversion F. reflexivity.
  - split.
    + intros E. apply bind_Ok in E as (v' & Hv & E).
      apply bind_Ok in E as (r' & Hr & E). injection E as <-.
      constructor; [split; [reflexivity|exact Hv]|]. apply IH. exact Hr.
    + intros F. inversion F as [|? [k' v'] ? r' [Hk Hv] Hr]; subst. simpl in *. subst k'.
      rewrite Hv. simpl. apply IH in Hr. rewrite Hr. reflexivity.
Qed.

Lemma replaceIdentifier_fields (name withAst : value) (fs : list (string * value)) (r : value) :
  isTarget name fs = false ->
  isShadowedIn name fs = Ok false ->
  replaceIdentifier name withAst (VObj fs) = Ok r
  <-> exists fs', r = VObj fs' /\ fieldsResult name withAst fs fs'.
Proof.
  intros Ht Hs. simpl. rewrite Ht, Hs. simpl.
  unfold fieldsResult. split.
  - intros E. apply bind_Ok in E as (fs' & Hfs & E). injection E as <-.
    exists fs'. split; [reflexivity|].
    apply reduceKeys_Ok in Hfs.
    eapply Forall2_impl; [exact Hfs|].
    intros kv kv' [Hk Hv]. split; [exact Hk|]. apply replaceValue_Ok. exact Hv.
  - intros (fs' & -> & F).
    assert (E : reduceKeys (replaceValue (replaceIdentifier name withAst)) fs = Ok fs').
    { apply reduceKeys_Ok. eapply Forall2_impl; [exact F|].
      intros kv kv' [Hk Hv]. split; [exact Hk|]. apply replaceValue_Ok. exact Hv. }
    rewrite E. reflexivity.
Qed.

Lemma fieldsResult_assoc (name withAst : value) (fs fs' : list (string * value))
    (k : string) (v : value) :
  fieldsResult name withAst fs fs' ->
  assoc k fs = Some v ->
  exists v', assoc k fs' = Some v' /\ fieldResult name withAst v v'.
Proof.
  unfold fieldsResult. induction 1 as [|[k1 v1] [k1' v1'] fs fs' [Hk Hv] _ IH]; simpl.
  - discriminate.
  - simpl in Hk, Hv. subst k1'.
    destruct (String.eqb k k1).
    + intros E. injection E as <-. eauto.
    + exact IH.
Qed.

(** C2: an identifier node named like the substituted name comes back as
    the replacement tree itself; any other node that is not shadowed comes
    back as a node with the same keys, where an array field is mapped
    element by element, a node field is substituted recursively and a scalar
    field is copied; so [x] replaced by [a+1] in [return x*2;] renders as
    the text of [(a+1)*2]. *)
Theorem C2_identifier_replaced_and_fields_recursed :
  (forall (name : string) (withAst : value) (fs : list (string * value)),
      assoc "type" fs = Some (VStr "Identifier") ->
      assoc "name" fs = Some (VStr name) ->
      replaceIdentifier (VStr name) withAst (VObj fs) = Ok withAst)
  /\ (forall (name withAst : value) (fs : list (string * value)) (r : value),
         isTarget name fs = false ->
         isShadowedIn name fs = Ok false ->
         replaceIdentifier name withAst (VObj fs) = Ok r
         <-> exists fs', r = VObj fs' /\ fieldsResult name withAst fs fs')
  /\ (forall H : host,
         (fnAst <- substituteArguments (VArr [aPlusOne]) timesTwo ;;
          JsInlineLoader.renderFunction H fnAst)
         = escodegen_generate H (BinaryExpression "*" aPlusOne (NumLiteral 2)))
  /\ (fnAst <- substituteArguments (VArr [aPlusOne]) timesTwo ;;
      JsInlineLoader.renderFunction (exampleHost [] []) fnAst) = Ok "(a + 1) * 2".
Proof.
  split; [|split; [|split]].
  - intros name withAst fs Hty Hname. simpl.
    unfold isTarget. rewrite Hty, Hname. simpl.
    rewrite !String.eqb_refl. reflexivity.
  - intros name withAst fs r. apply replaceIdentifier_fields.
  - intros H. reflexivity.
  - reflexivity.
Qed.

Lemma C2_witness :
  replaceIdentifier (VStr "x") aPlusOne (Identifier "x") = Ok aPlusOne
  /\ exists fs',
       replaceIdentifier (VStr "x") aPlusOne
         (ReturnStatement (BinaryExpression "*" (Identifier "x") (NumLiteral 2))) = Ok (VObj fs')
       /\ fieldsResult (VStr "x") aPlusOne
            [("type", VStr "ReturnStatement");
             ("argument", BinaryExpression "*" (Identifier "x") (NumLiteral 2))] fs'.
Proof.
  split.
  - apply (proj1 C2_identifier_replaced_and_fields_recursed "x" aPlusOne); reflexivity.
  - exists [("type", VStr "ReturnStatement");
            ("argument", BinaryExpression "*" aPlusOne (NumLiteral 2))].
    split; [reflexivity|].
    assert (E : replaceIdentifier (VStr "x") aPlusOne
                  (ReturnStatement (BinaryExpression "*" (Identifier "x") (NumLiteral 2)))
                = Ok (VObj [("type", VStr "ReturnStatement");
                            ("argument", BinaryExpression "*" aPlusOne (NumLiteral 2))]))
      by reflexivity.
    apply (proj1 (proj2 C2_identifier_replaced_and_fields_recursed)) in E;
      [|reflexivity|reflexivity].
    destruct E as (fs' & Efs & F). injection Efs as <-. exact F.
Defined.

(** ** Formal parameters do not shadow *)

(** C10: a function expression whose parameter list holds the substituted
    name is not passed over: [replaceIdentifier] goes through its fields like
    through those of any other node, so the parameter identifier itself is
    replaced, and its body is substituted exactly as it would be on its
    own. *)
Theorem C10_parameters_do_not_shadow
    (name : string) (withAst : value) (fs bfs : list (string * value)) (ps : list value) :
  assoc "type" fs = Some (VStr "FunctionExpression") ->
  assoc "params" fs = Some (VArr ps) ->
  assoc "body" fs = Some (VObj bfs) ->
  In (Identifier name) ps ->
  (forall r, replaceIdentifier (VStr name) withAst (VObj fs) = Ok r
             <-> exists fs', r = VObj fs' /\ fieldsResult (VStr name) withAst fs fs')
  /\ (forall r, replaceIdentifier (VStr name) withAst (VObj fs) = Ok r ->
        exists ps' body',
          get r "params" = Ok (VArr ps')
          /\ Forall2 (fun p p' => replaceIdentifier (VStr name) withAst p = Ok p') ps ps'
          /\ (forall i : nat, ps !! i = Some (Identifier name) -> ps' !! i = Some withAst)
          /\ In withAst ps'
          /\ get r "body" = Ok body'
          /\ replaceIdentifier (VStr name) withAst (VObj bfs) = Ok body').
Proof.
  intros Hty Hps Hbody Hin.
  assert (Ht : isTarget (VStr name) fs = false).
  { apply isTarget_not_identifier. rewrite Hty. discriminate. }
  assert (Hs : isShadowedIn (VStr name) fs = Ok false).
  { unfold isShadowedIn. rewrite Hbody. reflexivity. }
  assert (Hid : replaceIdentifier (VStr name) withAst (Identifier name) = Ok withAst).
  { simpl. unfold isTarget. simpl. rewrite String.eqb_refl. reflexivity. }
  split.
  - intros r. apply replaceIdentifier_fields; assumption.
  - intros r Hr.
    apply replaceIdentifier_fields in Hr as (fs' & -> & F); [|assumption..].
    destruct (fieldsResult_assoc _ _ _ _ _ _ F Hps) as (vps & Hps' & (ps' & -> & F2)).
    destruct (fieldsResult_assoc _ _ _ _ _ _ F Hbody) as (body' & Hbody' & Hb).
    simpl in Hb.
    assert (Hidx : forall i : nat, ps !! i = Some (Identifier name) -> ps' !! i = Some withAst).
    { intros i Hi.
      destruct (Forall2_lookup_l _ _ _ _ _ F2 Hi) as (p' & Hp' & E).
      rewrite Hid in E. injection E as <-. exact Hp'. }
    exists ps', body'. simpl. rewrite Hps', Hbody'. simpl.
    repeat split; try assumption.
    apply list_elem_of_In in Hin. apply list_elem_of_lookup in Hin as (i & Hi).
    apply list_elem_of_In. apply list_elem_of_lookup. exists i. auto.
Qed.

Lemma C10_witness :
  let fn := FunctionExpression [Identifier "x"] [ReturnStatement (Identifier "x")] in
  replaceIdentifier (VStr "x") aPlusOne fn
  = Ok (FunctionExpression [aPlusOne] [ReturnStatement aPlusOne])
  /\ exists ps' body',
       get (FunctionExpression [aPlusOne] [ReturnStatement aPlusOne]) "params" = Ok (VArr ps')
       /\ In aPlusOne ps'
       /\ get (FunctionExpression [aPlusOne] [ReturnStatement aPlusOne]) "body" = Ok body'.
Proof.
  intros fn. split; [reflexivity|].
  destruct (proj2 (C10_parameters_do_not_shadow "x" aPlusOne
                     [("type", VStr "FunctionExpression"); ("id", VNull);
                      ("params", VArr [Identifier "x"]); ("defaults", VArr []);
                      ("body", BlockStatement [ReturnStatement (Identifier "x")]);
                      ("generator", VBool false); ("expression", VBool false)]
                     [("type", VStr "BlockStatement");
                      ("body", VArr [ReturnStatement (Identifier "x")])]
                     [Identifier "x"]
                     eq_refl eq_refl eq_refl (or_introl eq_refl))
                  (FunctionExpression [aPlusOne] [ReturnStatement aPlusOne]) eq_refl)
    as (ps' & body' & Hp & _ & _ & Hin & Hb & _).
  exists ps', body'. auto.
Defined.

(** ** [renderFunction] *)

(** What [js-inline-loader.js] renders, case by case. *)
Lemma JsInlineLoader_renderFunction_spec (H : host) (fs bfs : list (string * value))
    (stmts : list value) :
  assoc "body" fs = Some (VObj bfs) ->
  assoc "body" bfs = Some (VArr stmts) ->
  JsInlineLoader.renderFunction H (VObj fs) =
    match stmts with
    | [] => Ok ""
    | s0 :: _ =>
        ty <- get s0 "type" ;;
        if strictEq ty (VStr "ReturnStatement")
        then argument <- get s0 "argument" ;; escodegen_generate H argument
        else escodegen_generate H
               (VObj [("type", VStr "Program"); ("body", VArr stmts);
                      ("sourceType", VStr "script")])
    end.
Proof.
  intros Hb Hs. unfold JsInlineLoader.renderFunction. simpl.
  rewrite Hb. simpl. rewrite Hs. simpl.
  destruct stmts as [|s0 r]; [reflexivity|].
  reflexivity.
Qed.

(** [function-inline-loader.js] renders a body that is not empty in the
    same way. *)
Lemma FunctionInlineLoader_renderFunction_nonempty (H : host) (fs bfs : list (string * value))
    (s0 : value) (stmts : list value) :
  assoc "body" fs = Some (VObj bfs) ->
  assoc "body" bfs = Some (VArr (s0 :: stmts)) ->
  FunctionInlineLoader.renderFunction H (VObj fs)
  = JsInlineLoader.renderFunction H (VObj fs).
Proof.
  intros Hb Hs.
  rewrite (JsInlineLoader_renderFunction_spec H fs bfs (s0 :: stmts) Hb Hs).
  unfold FunctionInlineLoader.renderFunction. simpl.
  rewrite Hb. simpl. rewrite Hs. reflexivity.
Qed.

(** C3, in [js-inline-loader.js]: empty text for an empty body, the text of
    the returned expression when the first statement is a return statement,
    the statement list as a program otherwise. *)
Lemma JsInlineLoader_renderFunction_cases (H : host) (n : string) (params : list value) :
  JsInlineLoader.renderFunction H (FunctionDeclaration n params []) = Ok ""
  /\ (forall arg rest,
        JsInlineLoader.renderFunction H
          (FunctionDeclaration n params (ReturnStatement arg :: rest))
        = escodegen_generate H arg)
  /\ (forall s0fs rest,
        assoc "type" s0fs <> Some (VStr "ReturnStatement") ->
        JsInlineLoader.renderFunction H (FunctionDeclaration n params (VObj s0fs :: rest))
        = escodegen_generate H
            (VObj [("type", VStr "Program"); ("body", VArr (VObj s0fs :: rest));
                   ("sourceType", VStr "script")])).
Proof.
  split; [reflexivity|split].
  - intros arg rest. reflexivity.
  - intros s0fs rest Hty.
    unfold FunctionDeclaration, BlockStatement.
    erewrite JsInlineLoader_renderFunction_spec by reflexivity.
    cbn [get bind].
    destruct (strictEq (default VUndef (assoc "type" s0fs)) (VStr "ReturnStatement")) eqn:E;
      [|reflexivity].
    apply strictEq_str_true in E.
    destruct (assoc "type" s0fs); simpl in E; congruence.
Qed.

(** C3, in [function-inline-loader.js]: the function reads the type of the
    first statement of the body before anything else, and on an empty body
    there is none: the read of [undefined.type] throws.  The other variant
    has the test of the length in front. *)
Theorem C3_render_empty_body_throws_in_function_inline_loader
    (H : host) (n : string) (params : list value) :
  FunctionInlineLoader.renderFunction H (FunctionDeclaration n params []) = Throw TypeError
  /\ JsInlineLoader.renderFunction H (FunctionDeclaration n params []) = Ok "".
Proof. split; reflexivity. Qed.

(** ** [getExportedFunctions] *)

Lemma foldM_app {A S} (f : S -> A -> res S) (l1 l2 : list A) (s : S) :
  foldM f (l1 ++ l2)%list s = (s' <- foldM f l1 s ;; foldM f l2 s').
Proof.
  revert s. induction l1 as [|x l1 IH]; intros s; simpl; [reflexivity|].
  destruct (f s x); simpl; [apply IH|reflexivity].
Qed.

(** A statement whose type is none of the five the walk looks at leaves the
    table as it is. *)
Lemma exportStep_other_type (scopeFunctions : scope) (fs : list (string * value)) (ty : string) :
  assoc "type" fs = Some (VStr ty) ->
  ty <> "ExportNamedDeclaration" -> ty <> "FunctionDeclaration" ->
  ty <> "VariableDeclaration" -> ty <> "ExportDefaultDeclaration" ->
  ty <> "ExpressionStatement" ->
  exportStep scopeFunctions (VObj fs) = Ok scopeFunctions.
Proof.
  intros Hty H1 H2 H3 H4 H5.
  unfold exportStep, isExportsAssignment. simpl. rewrite Hty. simpl.
  apply String.eqb_neq in H1, H2, H3, H4, H5.
  rewrite H1, H2, H3, H4, H5. reflexivity.
Qed.

(** C6: an expression statement is taken for an assignment before its
    expression has been looked at: the walk reads the [type] of its [left],
    and an expression that is a call (or a directive, or any expression
    other than an assignment) has no [left].  The read throws, and with it
    the whole resolver, where the statement should have been ignored. *)
Theorem C6_expression_statement_without_left_throws
    (scopeFunctions : scope) (callee : value) (args : list value) :
  exportStep scopeFunctions (ExpressionStatement (CallExpression callee args)) = Throw TypeError
  /\ getExportedFunctions (Program [ExpressionStatement (CallExpression callee args)])
     = Throw TypeError.
Proof. split; reflexivity. Qed.

(** *** The table as a plain object *)

Lemma foldM_invariant {A S} (P : S -> Prop) (f : S -> A -> res S) :
  (forall s x s', P s -> f s x = Ok s' -> P s') ->
  forall (l : list A) (s s' : S), P s -> foldM f l s = Ok s' -> P s'.
Proof.
  intros Hf l. induction l as [|x l IH]; intros s s' Hs E; cbn [foldM] in E.
  - injection E as <-. exact Hs.
  - apply bind_Ok in E as (s1 & E1 & E). exact (IH s1 s' (Hf s x s1 Hs E1) E).
Qed.

Lemma forEach_invariant {S} (P : S -> Prop) (f : S -> value -> res S) :
  (forall s x s', P s -> f s x = Ok s' -> P s') ->
  forall (v : value) (s s' : S), P s -> forEach v f s = Ok s' -> P s'.
Proof.
  intros Hf v s s' Hs E. destruct v; try discriminate E.
  exact (foldM_invariant P f Hf _ s s' Hs E).
Qed.

Lemma setEntry_noProtoKey (functions : scope) (key : value) (e : entry) :
  noProtoKey functions -> noProtoKey (setEntry functions key e).
Proof.
  unfold noProtoKey, setEntry. intros Hf.
  destruct (String.eqb (toString key) "__proto__") eqn:E; cbn [own]; [exact Hf|].
  apply String.eqb_neq in E. rewrite lookup_insert_ne by exact E. exact Hf.
Qed.

Lemma readKey_own (functions : scope) (k : string) (e : entry) :
  readKey functions k = OwnRecord e <-> own functions !! k = Some e.
Proof.
  unfold readKey. destruct (own functions !! k) as [e'|]; [split; congruence|].
  split; [|discriminate].
  destruct (proto functions);
    repeat match goal with |- context [if ?c then _ else _] => destruct c end;
    discriminate.
Qed.

Lemma markExported_noProtoKey (functions functions' : scope) (k : string) :
  noProtoKey functions -> markExported functions k = Ok functions' -> noProtoKey functions'.
Proof.
  unfold noProtoKey, markExported. intros Hf E.
  destruct (readKey functions k) as [e|p|p| |v] eqn:R.
  - injection E as <-. cbn [own]. apply readKey_own in R.
    rewrite lookup_insert_ne; [exact Hf|]. intros ->. congruence.
  - injection E as <-. exact Hf.
  - destruct (ast p); try discriminate E; injection E as <-; try exact Hf.
    unfold markNode. cbn [own]. rewrite lookup_fmap, Hf. reflexivity.
  - injection E as <-. exact Hf.
  - destruct v; try discriminate E; injection E as <-; exact Hf.
Qed.

Ltac walk E :=
  repeat match type of E with
         | bind _ _ = Ok _ => apply bind_Ok in E as (? & _ & E)
         | (if ?c then _ else _) = Ok _ => destruct c
         | Ok _ = Ok _ => injection E as <-
         end.

Lemma bagProperty_noProtoKey (functions functions' : scope) (node : value) :
  noProtoKey functions -> bagProperty functions node = Ok functions' -> noProtoKey functions'.
Proof.
  unfold bagProperty. intros Hf E. walk E;
    first [ exact Hf
          | apply setEntry_noProtoKey; exact Hf
          | exact (markExported_noProtoKey _ _ _ Hf E) ].
Qed.

Lemma exportStep_noProtoKey (functions functions' : scope) (node : value) :
  noProtoKey functions -> exportStep functions node = Ok functions' -> noProtoKey functions'.
Proof.
  unfold exportStep, exportNamed, plainFunction. intros Hf E. walk E;
    first [ exact Hf
          | apply setEntry_noProtoKey; exact Hf
          | revert E; apply forEach_invariant; [|exact Hf] ].
  - intros s0 y s1 Hs E0. unfold variableDeclarator in E0. walk E0;
      first [exact Hs | apply setEntry_noProtoKey; exact Hs].
  - intros s0 y s1 Hs E0. unfold classMember in E0. walk E0;
      first [exact Hs | apply setEntry_noProtoKey; exact Hs].
  - intros s0 y s1 Hs E0. exact (bagProperty_noProtoKey _ _ _ Hs E0).
Qed.

(** The walk never makes [__proto__] a key of the table. *)
Lemma walk_noProtoKey (stmts : list value) (functions : scope) :
  foldM exportStep stmts ∅ = Ok functions -> noProtoKey functions.
Proof.
  apply (foldM_invariant noProtoKey exportStep).
  - intros s x s' Hs E. exact (exportStep_noProtoKey s s' x Hs E).
  - reflexivity.
Qed.

Lemma keepExported_noProtoKey (functions : scope) :
  noProtoKey functions -> keepExported functions !! "__proto__" = None.
Proof. unfold noProtoKey, keepExported. intros Hf. rewrite lookup_omap, Hf. reflexivity. Qed.

Lemma toString_str (s : string) : toString (VStr s) = s.
Proof. reflexivity. Qed.

(** The result after an assignment of a record to a key. *)
Lemma keepExported_setEntry (functions : scope) (k : string) (e : entry) :
  k <> "__proto__" ->
  keepExported (setEntry functions (VStr k) e)
  = if exported e then <[k := ast e]> (keepExported functions)
    else delete k (keepExported functions).
Proof.
  intros Hk. unfold setEntry, keepExported. rewrite toString_str.
  apply String.eqb_neq in Hk. rewrite Hk. cbn [own].
  destruct (exported e) eqn:E.
  - apply omap_insert_Some. rewrite E. reflexivity.
  - apply omap_insert_None. rewrite E. reflexivity.
Qed.

Lemma keepExported_setEntry_proto (functions : scope) (e : entry) :
  keepExported (setEntry functions (VStr "__proto__") e) = keepExported functions.
Proof. reflexivity. Qed.


Lemma exportStep_exportsAssignment (scopeFunctions : scope) (properties : list value) :
  exportStep scopeFunctions (exportsAssignment properties)
  = foldM bagProperty properties scopeFunctions.
Proof. reflexivity. Qed.

Lemma scopeOf_Program (stmts : list value) :
  scopeOf (Program stmts) = foldM exportStep stmts ∅.
Proof. reflexivity. Qed.





(** The same module through the whole resolver, by computation: exported
    under the same name, and exported under another key only. *)
Example reexport_same_name :
  let fdecl := FunctionDeclaration "f" [] [] in
  getExportedFunctions
    (Program [fdecl; exportsAssignment [Property (Identifier "f") (Identifier "f") true]])
  = Ok {[ "f" := fdecl ]}.
Proof. vm_compute. reflexivity. Qed.

(** ** The drivers *)

Lemma replaceAll_normalize (segs : list segment) (st : loaderState) :
  replaceAll (JsInlineLoader.normalize) segs st = (st, Ok (normalized segs)).
Proof.
  induction segs as [|[c|cs] r IH]; cbn [replaceAll normalized].
  - reflexivity.
  - unfold iobind. rewrite IH. reflexivity.
  - unfold iobind at 1. cbn [JsInlineLoader.normalize ret].
    unfold iobind. rewrite IH. reflexivity.
Qed.

(** The two patterns at work. *)
Example MACRO_sweep :
  normalized (segments JsInlineLoader.MACRO None
                "a = %inline('m').f(1, 2); b = %inline( 'x/y' ) . g ( );" 0)
  = "a = ___js_inline_loader_inline('m',f,1, 2); b = ___js_inline_loader_inline('x/y',g);".
Proof. vm_compute. reflexivity. Qed.

Example INLINE_MACRO_groups :
  segments FunctionInlineLoader.INLINE_MACRO None "  var a = %inline('m').f(1, 2);" 0
  = [SMatch [(5%nat, "1, 2"); (4%nat, "f"); (3%nat, "m"); (2%nat, "var a = "); (1%nat, "  ")]].
Proof. vm_compute. reflexivity. Qed.

(** The closing sequence must end a line. *)
Example INLINE_MACRO_needs_line_end :
  existsb (fun seg => match seg with SMatch _ => true | SChar _ => false end)
    (segments FunctionInlineLoader.INLINE_MACRO None "%inline('m').f(1); x" 0) = false.
Proof. vm_compute. reflexivity. Qed.

(** *** Variant 2: the three failures of a site that are reported *)

Lemma JsInlineLoader_missing_module (H : host) (gModule : string) (gFunction fnArgs : value)
    (st : loaderState) :
  loadModuleContents H (path_resolve H (context H) gModule) = None ->
  JsInlineLoader.getFunctionCode H (VStr gModule) gFunction fnArgs st
  = (withError st ("Could not find module `" ++ gModule ++ "`"),
     Ok ("/* Missing module " ++ gModule ++ " */")).
Proof.
  intros Hl. unfold JsInlineLoader.getFunctionCode, iobind, lift. simpl.
  rewrite Hl. reflexivity.
Qed.

Lemma JsInlineLoader_unparseable_module (H : host) (gModule contents : string)
    (gFunction fnArgs : value) (e : exn) (st : loaderState) :
  loadModuleContents H (path_resolve H (context H) gModule) = Some contents ->
  esprima_parse H (Some contents) moduleOptions = Throw e ->
  JsInlineLoader.getFunctionCode H (VStr gModule) gFunction fnArgs st
  = (withError st ("%inline(" ++ DQ ++ gModule ++ DQ ++ "): " ++ exnToString e),
     Ok ("/* Parsing error in module " ++ gModule ++ " */")).
Proof.
  intros Hl Hp. unfold JsInlineLoader.getFunctionCode, iobind, lift. simpl.
  rewrite Hl, Hp. reflexivity.
Qed.

Lemma JsInlineLoader_unknown_function (H : host) (gModule contents gFunction : string)
    (fnArgs : value) (ast : value) (table : gmap string value) (st : loaderState) :
  loadModuleContents H (path_resolve H (context H) gModule) = Some contents ->
  esprima_parse H (Some contents) moduleOptions = Ok ast ->
  getExportedFunctions ast = Ok table ->
  table !! gFunction = None ->
  inherited gFunction = VUndef ->
  JsInlineLoader.getFunctionCode H (VStr gModule) (VStr gFunction) fnArgs st
  = (withError (withDependency st (path_resolve H (context H) gModule))
       ("%inline(" ++ DQ ++ gModule ++ DQ ++ "): Undefined function `" ++ gFunction),
     Ok ("/* Unknown inline " ++ gFunction ++ " */")).
Proof.
  intros Hl Hp Hx Hn Hi. unfold JsInlineLoader.getFunctionCode, iobind, lift. simpl.
  rewrite Hl, Hp. unfold addDependency. rewrite Hx.
  unfold lookupFunction. simpl. rewrite Hn, Hi. reflexivity.
Qed.

(** A round of the loop whose site was answered, by an expansion or by a
    placeholder, goes on to the next round on the spliced text. *)
Lemma JsInlineLoader_round (H : host) (fuel : nat) (source replacement : string)
    (ast token arguments a0 a1 gModule gFunction fnArgs range r0 r1 : value)
    (st st' : loaderState) :
  esprima_parse H (Some source) moduleRangeOptions = Ok ast ->
  JsInlineLoader.findInlineToken ast = Ok token ->
  truthy token = true ->
  get token "arguments" = Ok arguments ->
  get_index arguments 0 = Ok a0 -> get a0 "value" = Ok gModule ->
  get_index arguments 1 = Ok a1 -> get a1 "name" = Ok gFunction ->
  JsInlineLoader.slice2 arguments = Ok fnArgs ->
  JsInlineLoader.getFunctionCode H gModule gFunction fnArgs st = (st', Ok replacement) ->
  get token "range" = Ok range ->
  get_index range 0 = Ok r0 -> get_index range 1 = Ok r1 ->
  JsInlineLoader.replaceInlineFunc H (S fuel) source st
  = JsInlineLoader.replaceInlineFunc H fuel
      (JsInlineLoader.substringTo source r0 ++ replacement
       ++ JsInlineLoader.substringFrom source r1) st'.
Proof.
  intros Hp Hf Ht Ha Ha0 Hm Ha1 Hfn Hs Hc Hr Hr0 Hr1.
  simpl. rewrite Hp. unfold iobind, lift.
  rewrite Hf, Ht. simpl. rewrite Ha, Ha0, Hm, Ha1, Hfn, Hs, Hc, Hr, Hr0, Hr1.
  reflexivity.
Qed.

(** Variant 2 has no test of the number of arguments: once the function is
    found, whatever the arguments, no diagnostic is emitted. *)
Lemma JsInlineLoader_reports_no_arity (H : host) (gModule contents : string)
    (gFunction fnArgs : value) (ast : value) (table : gmap string value) (st : loaderState) :
  loadModuleContents H (path_resolve H (context H) gModule) = Some contents ->
  esprima_parse H (Some contents) moduleOptions = Ok ast ->
  getExportedFunctions ast = Ok table ->
  truthy (lookupFunction table gFunction) = true ->
  fst (JsInlineLoader.getFunctionCode H (VStr gModule) gFunction fnArgs st)
  = withDependency st (path_resolve H (context H) gModule).
Proof.
  intros Hl Hp Hx Ht. unfold JsInlineLoader.getFunctionCode, iobind, lift. simpl.
  rewrite Hl, Hp. unfold addDependency. rewrite Hx, Ht. simpl.
  destruct (substituteArguments fnArgs (lookupFunction table gFunction)); reflexivity.
Qed.

(** *** Variant 1: the test of the number of arguments *)

Lemma FunctionInlineLoader_arity_mismatch (H : host)
    (gIndent gAssignExpr : value) (gFile gFunction gArgs : string)
    (ast fnAst : value) (table : gmap string value) (args ps : list value) (st : loaderState) :
  esprima_parse H (loadModuleContents H (path_resolve H (context H) gFile)) moduleOptions
  = Ok ast ->
  getExportedFunctions ast = Ok table ->
  table !! gFunction = Some fnAst ->
  truthy fnAst = true ->
  compileArgumentAst H gArgs = Ok (VArr args) ->
  get fnAst "params" = Ok (VArr ps) ->
  length args <> length ps ->
  FunctionInlineLoader.inlineMacro H gIndent gAssignExpr (VStr gFile) (VStr gFunction)
    (VStr gArgs) st
  = (withError (withDependency st (path_resolve H (context H) gFile))
       ("Function " ++ gFunction ++ " is expecting exactly "
        ++ pretty (Z.of_nat (length ps)) ++ " arguments, but got "
        ++ pretty (Z.of_nat (length args))),
     Ok ("/* Invalid syntax for " ++ gFunction ++ " */")).
Proof.
  intros Hp Hx Hf Ht Hc Hps Hlen.
  unfold FunctionInlineLoader.inlineMacro, iobind, lift. simpl.
  rewrite Hp. unfold addDependency. rewrite Hx.
  unfold lookupFunction. simpl. rewrite Hf. simpl. rewrite Ht. simpl.
  rewrite Hc, Hps. simpl.
  destruct (Z.of_nat (length args) =? Z.of_nat (length ps)) eqn:E; [lia|].
  reflexivity.
Qed.

(** A site answered by the callback does not stop the sweep: the text
    after it is swept in the state the callback left. *)
Lemma replaceAll_site (callback : captures -> io string) (cs : captures)
    (rest : list segment) (st st' : loaderState) (s : string) :
  callback cs st = (st', Ok s) ->
  replaceAll callback (SMatch cs :: rest) st
  = (t <~ replaceAll callback rest ;; ret (s ++ t)) st'.
Proof. intros Hc. simpl. unfold iobind at 1. rewrite Hc. reflexivity. Qed.

(** Variant 1 has no handler around the parse of the module: the error of
    the parser leaves the callback, and the sweep, as it is. *)
Lemma FunctionInlineLoader_unparseable_module_raises (H : host)
    (gIndent gAssignExpr gFunction gArgs : value) (gFile : string) (e : exn)
    (st : loaderState) :
  esprima_parse H (loadModuleContents H (path_resolve H (context H) gFile)) moduleOptions
  = Throw e ->
  FunctionInlineLoader.inlineMacro H gIndent gAssignExpr (VStr gFile) gFunction gArgs st
  = (st, Throw e).
Proof.
  intros Hp. unfold FunctionInlineLoader.inlineMacro, iobind, lift. simpl.
  rewrite Hp. reflexivity.
Qed.

Lemma replaceAll_site_raises (callback : captures -> io string) (cs : captures)
    (rest : list segment) (st st' : loaderState) (e : exn) :
  callback cs st = (st', Throw e) ->
  replaceAll callback (SMatch cs :: rest) st = (st', Throw e).
Proof. intros Hc. simpl. unfold iobind. rewrite Hc. reflexivity. Qed.

(** C4: [js-inline-loader.js] substitutes as many parameters as there are
    arguments and never compares the two counts.  With two arguments for the
    three parameters of [f] the site is expanded with [c] left in place and
    nothing is reported; with four, the read of the name of a fourth
    parameter throws and the whole transform with it.
    [function-inline-loader.js] has the comparison: on the same sites it
    reports and puts the placeholder, and expands the site after it. *)
Theorem C4_js_inline_loader_has_no_arity_check :
  JsInlineLoader.module_exports demoHost 5 "%inline('m').f(1, 2);" initialState
  = (LoaderState [] ["/src/m"] true [], Ok (Some "1 + 2 + c;"))
  /\ JsInlineLoader.module_exports demoHost 5 "%inline('m').f(1, 2, 3, 4);" initialState
     = (LoaderState [] ["/src/m"] true [], Throw TypeError)
  /\ FunctionInlineLoader.module_exports demoHost
       ("%inline('m').f(1, 2);" ++ LF ++ "var s = %inline('m').f(1, 2, 3);") initialState
     = (LoaderState ["Function f is expecting exactly 3 arguments, but got 2"]
          ["/src/m"; "/src/m"] true ["var s = 1 + 2 + 3"],
        Ok ("/* Invalid syntax for f */" ++ LF ++ "var s = 1 + 2 + 3")).
Proof. split; [|split]; vm_compute; reflexivity. Qed.

(** C5: [function-inline-loader.js] parses the module without a handler and
    without a test of what [loadModuleContents] returned: a module whose
    text is not a program makes the transform throw, where
    [js-inline-loader.js] reports and puts the placeholder.  In
    [js-inline-loader.js] in turn the next round parses the text with the
    placeholder in it; the placeholder is a comment, so where the site stood
    for an expression that text does not parse, and the sites after it are
    not expanded. *)
Theorem C5_function_inline_loader_raises_on_unparseable_module :
  FunctionInlineLoader.module_exports demoHost "%inline('broken').f();" initialState
  = (LoaderState [] [] true [], Throw (SyntaxError "Line 1: Unexpected token"))
  /\ JsInlineLoader.module_exports demoHost 5 "%inline('broken').f();" initialState
     = (LoaderState ["%inline(" ++ DQ ++ "broken" ++ DQ ++ "): Error: Line 1: Unexpected token"]
          [] true [],
        Ok (Some "/* Parsing error in module broken */;"))
  /\ JsInlineLoader.module_exports demoHost 5
       "var a = %inline('nofile').f(1); %inline('m').f(1, 2, 3);" initialState
     = (LoaderState
          ["Could not find module `nofile`";
           "Inline processing failed: SyntaxError: Error: Line 1: Unexpected token"]
          [] true [],
        Ok (Some "var a = /* Missing module nofile */; ___js_inline_loader_inline('m',f,1, 2, 3);")).
Proof. split; [|split]; vm_compute; reflexivity. Qed.

(** The transform of variant 2 when the normalised text does not parse. *)
Lemma JsInlineLoader_first_round_failure (H : host) (fuel : nat) (source : string) (e : exn)
    (st : loaderState) :
  JsInlineLoader.hasMatch (segments JsInlineLoader.MACRO None source 0) = true ->
  esprima_parse H (Some (normalized (segments JsInlineLoader.MACRO None source 0)))
    moduleRangeOptions = Throw e ->
  JsInlineLoader.module_exports H (S fuel) source st
  = (withError (LoaderState (errors st) (dependencies st) true (consoleOut st))
       ("Inline processing failed: SyntaxError: " ++ exnToString e),
     Ok (Some (normalized (segments JsInlineLoader.MACRO None source 0)))).
Proof.
  intros Hm Hp. unfold JsInlineLoader.module_exports, iobind, cacheable.
  rewrite replaceAll_normalize, Hm. simpl. rewrite Hp. reflexivity.
Qed.

Lemma replaceInlineFunc_rounds (H : host) (n fuel : nat) (x y : string * loaderState) :
  nsteps (round H) n x y ->
  JsInlineLoader.replaceInlineFunc H (n + fuel) (fst x) (snd x)
  = JsInlineLoader.replaceInlineFunc H fuel (fst y) (snd y).
Proof.
  induction 1 as [|n x y z Hr _ IH]; [reflexivity|].
  rewrite <- IH. destruct Hr. cbn [fst snd].
  change (S n + fuel)%nat with (S (n + fuel)).
  eapply JsInlineLoader_round; eassumption.
Qed.

Lemma module_exports_with_macros (H : host) (fuel : nat) (source : string) (st : loaderState) :
  JsInlineLoader.hasMatch (segments JsInlineLoader.MACRO None source 0) = true ->
  JsInlineLoader.module_exports H fuel source st
  = JsInlineLoader.replaceInlineFunc H fuel
      (normalized (segments JsInlineLoader.MACRO None source 0))
      (LoaderState (errors st) (dependencies st) true (consoleOut st)).
Proof.
  intros Hm. unfold JsInlineLoader.module_exports, iobind, cacheable.
  rewrite replaceAll_normalize, Hm. reflexivity.
Qed.

(** C8 (as amended): the loop works on the normalised text, the source with
    every macro token rewritten into the synthetic call.  When, after [n]
    rounds that each spliced an answer into it, this working text does not
    parse, the transform reports it and returns the working text as it
    stands: the answers of the [n] rounds in place, the rest untouched, the
    sites not yet reached still in their synthetic form.  No error is
    raised. *)
Theorem C8_unparseable_host_returns_working_text
    (H : host) (n fuel : nat) (source text : string) (e : exn) (st st' : loaderState) :
  JsInlineLoader.hasMatch (segments JsInlineLoader.MACRO None source 0) = true ->
  nsteps (round H) n
    (normalized (segments JsInlineLoader.MACRO None source 0),
     LoaderState (errors st) (dependencies st) true (consoleOut st))
    (text, st') ->
  esprima_parse H (Some text) moduleRangeOptions = Throw e ->
  JsInlineLoader.module_exports H (n + S fuel) source st
  = (withError st' ("Inline processing failed: SyntaxError: " ++ exnToString e),
     Ok (Some text)).
Proof.
  intros Hm Hn Hp.
  rewrite (module_exports_with_macros H _ source st Hm).
  pose proof (replaceInlineFunc_rounds H n (S fuel) _ _ Hn) as Hr.
  cbn [fst snd] in Hr. rewrite Hr.
  cbn [JsInlineLoader.replaceInlineFunc]. rewrite Hp. reflexivity.
Qed.

(** An instance: a first site whose module is missing, in the position of
    an expression.  Its placeholder is a comment, the text with it no longer
    parses, and the second site stays as it was. *)
Lemma C8_witness :
  JsInlineLoader.module_exports demoHost 2
    "var a = %inline('nofile').f(1); %inline('m').f(1, 2, 3);" initialState
  = (LoaderState
       ["Could not find module `nofile`";
        "Inline processing failed: SyntaxError: Error: Line 1: Unexpected token"]
       [] true [],
     Ok (Some "var a = /* Missing module nofile */; ___js_inline_loader_inline('m',f,1, 2, 3);")).
Proof.
  apply (C8_unparseable_host_returns_working_text demoHost 1 0
           "var a = %inline('nofile').f(1); %inline('m').f(1, 2, 3);"
           "var a = /* Missing module nofile */; ___js_inline_loader_inline('m',f,1, 2, 3);"
           (SyntaxError "Line 1: Unexpected token") initialState
           (LoaderState ["Could not find module `nofile`"] [] true [])).
  - vm_compute. reflexivity.
  - apply nsteps_once.
    assert (Hround :
      round demoHost
        ("var a = ___js_inline_loader_inline('nofile',f,1); ___js_inline_loader_inline('m',f,1, 2, 3);",
         LoaderState [] [] true [])
        (JsInlineLoader.substringTo
           "var a = ___js_inline_loader_inline('nofile',f,1); ___js_inline_loader_inline('m',f,1, 2, 3);"
           (VNum 8)
         ++ "/* Missing module nofile */"
         ++ JsInlineLoader.substringFrom
              "var a = ___js_inline_loader_inline('nofile',f,1); ___js_inline_loader_inline('m',f,1, 2, 3);"
              (VNum 48),
         LoaderState ["Could not find module `nofile`"] [] true [])).
    { eapply round_intro.
      - vm_compute. reflexivity.
      - vm_compute. reflexivity.
      - reflexivity.
      - reflexivity.
      - reflexivity.
      - reflexivity.
      - reflexivity.
      - reflexivity.
      - reflexivity.
      - vm_compute. reflexivity.
      - reflexivity.
      - reflexivity.
      - reflexivity. }
    exact Hround.
  - reflexivity.
Defined.

(** C8 as stated fails: on a source that ends inside a macro call the
    transform returns the normalised text, not the source it was given. *)
Lemma C8_counterexample :
  JsInlineLoader.module_exports demoHost 5 "%inline('m').f(" initialState
  = (LoaderState ["Inline processing failed: SyntaxError: Error: Line 1: Unexpected token"]
       [] true [],
     Ok (Some "___js_inline_loader_inline('m',f,"))
  /\ "___js_inline_loader_inline('m',f," <> "%inline('m').f(".
Proof. split; [vm_compute; reflexivity|discriminate]. Qed.

(** ** [replaceIdentifier] and the objects it is given *)

Module StoreFacts.
Import Store.

Lemma keeps_ret {A} (h0 : heap) (a : A) : keeps h0 (hret a).
Proof. intros h Hh. exact Hh. Qed.

Lemma keeps_pure {A} (h0 : heap) (f : heap -> outcome A) : keeps h0 (fun h => (h, f h)).
Proof. intros h Hh. exact Hh. Qed.

Lemma keeps_bind {A B} (h0 : heap) (m : hm A) (k : A -> hm B) :
  keeps h0 m -> (forall a, keeps h0 (k a)) -> keeps h0 (hbind m k).
Proof.
  intros Hm Hk h Hh. unfold hbind.
  specialize (Hm h Hh). destruct (m h) as [h' [a|e|]]; simpl in *; try assumption.
  apply Hk. exact Hm.
Qed.

Lemma keeps_hget (h0 : heap) (v : hvalue) (k : string) : keeps h0 (hget v k).
Proof. intros h Hh. exact Hh. Qed.

Lemma keeps_alloc (h0 : heap) (c : cell) : keeps h0 (alloc c).
Proof. intros h Hh. simpl. apply prefix_app_r. exact Hh. Qed.

Lemma prefix_insert_above {A} (l1 l2 : list A) (i : nat) (x : A) :
  l1 `prefix_of` l2 -> (length l1 <= i)%nat -> l1 `prefix_of` <[i := x]> l2.
Proof.
  intros [k ->] Hi.
  rewrite insert_app_r_alt by exact Hi. eexists. reflexivity.
Qed.

Lemma keeps_setField (h0 : heap) (o : loc) (k : string) (v : hvalue) :
  (length h0 <= o)%nat -> keeps h0 (setField o k v).
Proof.
  intros Ho h Hh. unfold setField.
  destruct (h !! o) as [[xs|fs]|]; simpl; try assumption.
  apply prefix_insert_above; assumption.
Qed.

Lemma keeps_hmapM {A B} (h0 : heap) (f : A -> hm B) (l : list A) :
  (forall x, keeps h0 (f x)) -> keeps h0 (hmapM f l).
Proof.
  intros Hf. induction l as [|x l IH]; simpl.
  - apply keeps_ret.
  - apply keeps_bind; [apply Hf|]. intros y.
    apply keeps_bind; [exact IH|]. intros ys. apply keeps_ret.
Qed.

Lemma keeps_hfoldM {A S} (h0 : heap) (f : S -> A -> hm S) (l : list A) (s : S) :
  (forall s x, keeps h0 (f s x)) -> keeps h0 (hfoldM f l s).
Proof.
  intros Hf. revert s. induction l as [|x l IH]; intros s; simpl.
  - apply keeps_ret.
  - apply keeps_bind; [apply Hf|]. intros s'. apply IH.
Qed.

Lemma keeps_hforEach {S} (h0 : heap) (v : hvalue) (f : S -> hvalue -> hm S) (s : S) :
  (forall s x, keeps h0 (f s x)) -> keeps h0 (hforEach v f s).
Proof.
  intros Hf h Hh. unfold hforEach.
  destruct (arrayOf h v); [|exact Hh].
  apply keeps_hfoldM; assumption.
Qed.

(** The steps of a proof that a computation keeps a heap: a sequence is
    taken apart, a test is decided, the primitives keep. *)
Ltac keeps_step :=
  first [ apply keeps_ret | apply keeps_hget | apply keeps_alloc
        | apply keeps_bind; [|intros ?]
        | match goal with |- keeps _ (if ?b then _ else _) => destruct b end ].

Lemma keeps_scanDeclarations (h0 : heap) (name decls : hvalue) (b : bool) :
  keeps h0 (scanDeclarations name decls b).
Proof. apply keeps_hforEach. intros s x. repeat keeps_step. Qed.

Lemma keeps_scanStatement (h0 : heap) (name : hvalue) (b : bool) (node : hvalue) :
  keeps h0 (scanStatement name b node).
Proof.
  unfold scanStatement.
  repeat first [keeps_step | apply keeps_scanDeclarations].
Qed.

Lemma keeps_replaceValue (h0 : heap) (rec : hvalue -> hm hvalue) (v : hvalue) :
  (forall x, keeps h0 (rec x)) -> keeps h0 (replaceValue rec v).
Proof.
  intros Hrec h Hh. unfold replaceValue.
  destruct v; try exact Hh.
  destruct (arrayOf h (HRef l)) as [ys|].
  - revert h Hh. change (keeps h0 (ys' <<- hmapM rec ys ;; a <<- alloc (CArr ys') ;; hret (HRef a))).
    apply keeps_bind; [apply keeps_hmapM; exact Hrec|]. intros ys'.
    apply keeps_bind; [apply keeps_alloc|]. intros a. apply keeps_ret.
  - apply Hrec. exact Hh.
Qed.

Lemma keeps_reduceKeys (h0 : heap) (rec : hvalue -> hm hvalue) (newAst : loc)
    (entries : list (string * hvalue)) :
  (forall x, keeps h0 (rec x)) -> (length h0 <= newAst)%nat ->
  keeps h0 (reduceKeys rec newAst entries).
Proof.
  intros Hrec Hn. induction entries as [|[k v] r IH]; simpl.
  - apply keeps_ret.
  - apply keeps_bind; [apply keeps_replaceValue; exact Hrec|]. intros v'.
    apply keeps_bind; [apply keeps_setField; exact Hn|]. intros _. exact IH.
Qed.

Lemma keeps_replaceIdentifier (fuel : nat) (h0 : heap) (name withAst inAst : hvalue) :
  keeps h0 (replaceIdentifier fuel name withAst inAst).
Proof.
  revert inAst. induction fuel as [|fuel IH]; intros inAst.
  - intros h Hh. exact Hh.
  - cbn [replaceIdentifier].
    apply keeps_bind; [apply keeps_hget|]. intros ty.
    apply keeps_bind.
    { destruct (hstrictEq ty (HStr "Identifier")); [|apply keeps_ret].
      apply keeps_bind; [apply keeps_hget|]. intros n. apply keeps_ret. }
    intros [|]; [apply keeps_ret|].
    apply keeps_bind; [apply keeps_hget|]. intros body.
    apply keeps_bind.
    { intros h Hh. destruct (arrayOf h body); [|exact Hh].
      apply keeps_hforEach; [|exact Hh]. intros s x. apply keeps_scanStatement. }
    intros [|]; [apply keeps_ret|].
    apply keeps_bind; [intros h Hh; exact Hh|]. intros entries.
    intros h Hh. unfold hbind at 1. cbn [alloc].
    assert (Hn : (length h0 <= length h)%nat) by (apply prefix_length; exact Hh).
    assert (Hh' : h0 `prefix_of` (h ++ [CObj []])%list) by (apply prefix_app_r; exact Hh).
    generalize (keeps_reduceKeys h0 (replaceIdentifier fuel name withAst) (length h) entries
                  (fun x => IH x) Hn _ Hh').
    unfold hbind.
    destruct (reduceKeys (replaceIdentifier fuel name withAst) (length h) entries
                (h ++ [CObj []])%list) as [h2 [u|e|]]; simpl; auto.
Qed.

Lemma readonly_ret {A} (a : A) : readonly (hret a).
Proof. intros h. reflexivity. Qed.

Lemma readonly_hget (v : hvalue) (k : string) : readonly (hget v k).
Proof. intros h. reflexivity. Qed.

Lemma readonly_bind {A B} (m : hm A) (k : A -> hm B) :
  readonly m -> (forall a, readonly (k a)) -> readonly (hbind m k).
Proof.
  intros Hm Hk h. unfold hbind. specialize (Hm h).
  destruct (m h) as [h' [a|e|]]; simpl in *; try assumption.
  subst h'. apply Hk.
Qed.

Lemma readonly_hfoldM {A S} (f : S -> A -> hm S) (l : list A) (s : S) :
  (forall s x, readonly (f s x)) -> readonly (hfoldM f l s).
Proof.
  intros Hf. revert s. induction l as [|x l IH]; intros s; simpl.
  - apply readonly_ret.
  - apply readonly_bind; [apply Hf|]. intros s'. apply IH.
Qed.

Lemma readonly_hforEach {S} (v : hvalue) (f : S -> hvalue -> hm S) (s : S) :
  (forall s x, readonly (f s x)) -> readonly (hforEach v f s).
Proof.
  intros Hf h. unfold hforEach.
  destruct (arrayOf h v); [|reflexivity].
  apply readonly_hfoldM. exact Hf.
Qed.

Ltac readonly_step :=
  first [ apply readonly_ret | apply readonly_hget
        | apply readonly_bind; [|intros ?]
        | match goal with |- readonly (if ?b then _ else _) => destruct b end ].

Lemma readonly_scanDeclarations (name decls : hvalue) (b : bool) :
  readonly (scanDeclarations name decls b).
Proof. apply readonly_hforEach. intros s x. repeat readonly_step. Qed.

Lemma readonly_scanStatement (name : hvalue) (b : bool) (node : hvalue) :
  readonly (scanStatement name b node).
Proof.
  unfold scanStatement.
  repeat first [readonly_step | apply readonly_scanDeclarations].
Qed.

Lemma hbind_inv {A B} (m : hm A) (k : A -> hm B) (h h' : heap) (b : B) :
  hbind m k h = (h', Val b) -> exists h1 a, m h = (h1, Val a) /\ k a h1 = (h', Val b).
Proof.
  unfold hbind. destruct (m h) as [h1 [a|e|]]; try discriminate. eauto.
Qed.

Lemma readonly_inv {A} (m : hm A) (h h1 : heap) (o : outcome A) :
  readonly m -> m h = (h1, o) -> h1 = h.
Proof. intros R E. specialize (R h). rewrite E in R. exact R. Qed.

(** What a call returns: the replacement as it was given, the target as it
    was given, or the object it allocated first, which is new. *)
Lemma replaceIdentifier_result (fuel : nat) (name withAst inAst : hvalue) (h h' : heap)
    (r : hvalue) :
  replaceIdentifier fuel name withAst inAst h = (h', Val r) ->
  (r = withAst /\ h' = h) \/ (r = inAst /\ h' = h) \/ r = HRef (length h).
Proof.
  destruct fuel as [|fuel]; [discriminate|].
  cbn [replaceIdentifier]. intros E.
  apply hbind_inv in E as (h1 & ty & Ety & E).
  apply (readonly_inv _ _ _ _ (readonly_hget inAst "type")) in Ety as ->.
  apply hbind_inv in E as (h1 & tg & Etg & E).
  assert (h1 = h) as ->.
  { assert (R : readonly (if hstrictEq ty (HStr "Identifier")
                          then n <<- hget inAst "name";; hret (hstrictEq n name)
                          else hret false)).
    { destruct (hstrictEq ty (HStr "Identifier")); [|apply readonly_ret].
      apply readonly_bind; [apply readonly_hget|]. intros n. apply readonly_ret. }
    exact (readonly_inv _ _ _ _ R Etg). }
  destruct tg.
  { injection E as <- <-. left. auto. }
  apply hbind_inv in E as (h1 & body & Eb & E).
  apply (readonly_inv _ _ _ _ (readonly_hget inAst "body")) in Eb as ->.
  apply hbind_inv in E as (h1 & sh & Esh & E).
  assert (h1 = h) as ->.
  { destruct (arrayOf h body).
    - exact (readonly_inv _ _ _ _
               (readonly_hforEach body (scanStatement name) false
                  (fun s x => readonly_scanStatement name s x)) Esh).
    - injection Esh as <- _. reflexivity. }
  destruct sh.
  { injection E as <- <-. right. left. auto. }
  apply hbind_inv in E as (h1 & entries & Een & E).
  assert (h1 = h) as -> by (unfold ownEntries in Een; injection Een as <- _; reflexivity).
  apply hbind_inv in E as (h1 & newAst & Eal & E).
  cbn [alloc] in Eal. injection Eal as <- <-.
  apply hbind_inv in E as (h2 & u & _ & E).
  injection E as _ <-. right. right. reflexivity.
Qed.

Lemma loadList_ext_Some {A B} (f g : A -> option B) (l : list A) (l' : list B) :
  (forall x y, f x = Some y -> g x = Some y) ->
  loadList f l = Some l' -> loadList g l = Some l'.
Proof.
  intros Hfg. revert l'. induction l as [|x l IH]; intros l'; simpl; [auto|].
  destruct (f x) as [y|] eqn:Ef; [|discriminate].
  destruct (loadList f l) as [ys|]; [|discriminate].
  intros E. injection E as <-.
  rewrite (Hfg x y Ef), (IH ys eq_refl). reflexivity.
Qed.

(** A tree that can be read without passing through [X] reads the same
    wherever the objects outside [X] are found again. *)
Lemma loadAvoid_embeds (X X' : loc -> bool) (fuel : nat) (h h' : heap) (v : hvalue) (t : value) :
  (forall l c, X l = false -> h !! l = Some c -> X' l = false /\ h' !! l = Some c) ->
  loadAvoid X fuel h v = Some t -> loadAvoid X' fuel h' v = Some t.
Proof.
  intros Hs. revert v t.
  induction fuel as [|fuel IH]; intros v t; cbn [loadAvoid]; [discriminate|].
  destruct v; try (intros E; exact E).
  destruct (X l) eqn:HX; [discriminate|].
  destruct (h !! l) as [c|] eqn:Hl; [|discriminate].
  destruct (Hs l c HX Hl) as [-> ->].
  destruct c as [xs|fs].
  - destruct (loadList (loadAvoid X fuel h) xs) as [xs'|] eqn:E; [|discriminate].
    rewrite (loadList_ext_Some _ (loadAvoid X' fuel h') _ _ IH E). auto.
  - destruct (loadList _ fs) as [fs'|] eqn:E; [|discriminate].
    erewrite loadList_ext_Some; [| |exact E]; [auto|].
    intros [k x] [k' y]. simpl.
    destruct (loadAvoid X fuel h x) as [z|] eqn:Ez; [|discriminate].
    rewrite (IH _ _ Ez). auto.
Qed.

Lemma loadAvoid_stable (X : loc -> bool) (fuel : nat) (h h' : heap) (v : hvalue) (t : value) :
  stable X h h' -> loadAvoid X fuel h v = Some t -> loadAvoid X fuel h' v = Some t.
Proof.
  intros Hs. apply loadAvoid_embeds. intros l c HX Hl. split; [exact HX|]. exact (Hs l c HX Hl).
Qed.

Lemma stable_prefix (X : loc -> bool) (h h' : heap) : h `prefix_of` h' -> stable X h h'.
Proof. intros Hp l c _ Hl. exact (prefix_lookup_Some _ _ _ _ Hl Hp). Qed.

Lemma load_prefix (fuel : nat) (h h' : heap) (v : hvalue) (t : value) :
  h `prefix_of` h' -> load fuel h v = Some t -> load fuel h' v = Some t.
Proof. intros Hp. apply loadAvoid_stable. apply stable_prefix. exact Hp. Qed.

End StoreFacts.

(** ** The store model computes what the tree model computes *)

Module Refinement.
Import Relate.

Lemma loadList_Forall2 {A B} (f : A -> option B) (l : list A) (l' : list B) :
  Store.loadList f l = Some l' <-> Forall2 (fun x y => f x = Some y) l l'.
Proof.
  revert l'. induction l as [|x l IH]; intros l'; simpl.
  - split.
    + intros E. injection E as <-. constructor.
    + intros F. inversion F. reflexivity.
  - split.
    + destruct (f x) as [y|] eqn:Ef; [|discriminate].
      destruct (Store.loadList f l) as [ys|]; [|discriminate].
      intros E. injection E as <-. constructor; [exact Ef|]. apply IH. reflexivity.
    + intros F. inversion F as [|? y ? ys Hy Hys]; subst.
      rewrite Hy. apply IH in Hys. rewrite Hys. reflexivity.
Qed.

Lemma loadAvoid_unfold (X : nat -> bool) (d : nat) (h : Store.heap) (v : Store.hvalue) :
  Store.loadAvoid X (S d) h v =
  match v with
  | Store.HUndef => Some VUndef
  | Store.HNull => Some VNull
  | Store.HBool b => Some (VBool b)
  | Store.HNum n => Some (VNum n)
  | Store.HStr s => Some (VStr s)
  | Store.HRef l =>
      if X l then None
      else
        match h !! l with
        | Some (Store.CArr xs) =>
            match Store.loadList (Store.loadAvoid X d h) xs with
            | Some xs' => Some (VArr xs')
            | None => None
            end
        | Some (Store.CObj fs) =>
            match Store.loadList (fun kv : string * Store.hvalue =>
                                    match Store.loadAvoid X d h (snd kv) with
                                    | Some x => Some (fst kv, x)
                                    | None => None
                                    end) fs with
            | Some fs' => Some (VObj fs')
            | None => None
            end
        | None => None
        end
  end.
Proof. reflexivity. Qed.

Lemma loadAvoid_S (X : nat -> bool) (d : nat) (h : Store.heap) (v : Store.hvalue) (t : value) :
  Store.loadAvoid X d h v = Some t -> Store.loadAvoid X (S d) h v = Some t.
Proof.
  revert v t. induction d as [|d IH]; intros v t; [discriminate|].
  intros E. rewrite loadAvoid_unfold in E. rewrite loadAvoid_unfold.
  destruct v; try exact E.
  destruct (X l); [discriminate|].
  destruct (h !! l) as [[xs|fs]|]; [| |discriminate].
  - destruct (Store.loadList (Store.loadAvoid X d h) xs) as [xs'|] eqn:El; [|discriminate].
    rewrite (StoreFacts.loadList_ext_Some _ (Store.loadAvoid X (S d) h) _ _ IH El). exact E.
  - destruct (Store.loadList _ fs) as [fs'|] eqn:El; [|discriminate].
    erewrite StoreFacts.loadList_ext_Some; [exact E| |exact El].
    intros [k x] [k' y]. cbn [fst snd].
    destruct (Store.loadAvoid X d h x) as [z|] eqn:Ez; [|discriminate].
    rewrite (IH _ _ Ez). auto.
Qed.

Lemma loadAvoid_le (X : nat -> bool) (d d' : nat) (h : Store.heap) (v : Store.hvalue)
    (t : value) :
  (d <= d')%nat -> Store.loadAvoid X d h v = Some t -> Store.loadAvoid X d' h v = Some t.
Proof.
  induction 1 as [|d' _ IH]; [auto|].
  intros E. apply loadAvoid_S. apply IH. exact E.
Qed.

Lemma readsAvoid_stable (X : nat -> bool) (h h' : Store.heap) (hv : Store.hvalue) (v : value) :
  Store.stable X h h' -> Store.readsAvoid X h hv v -> Store.readsAvoid X h' hv v.
Proof. intros Hs [d Hd]. exists d. eapply StoreFacts.loadAvoid_stable; eassumption. Qed.

Lemma readsAvoid_primitive (X : nat -> bool) (h : Store.heap) (v : value) (hv : Store.hvalue) :
  Store.primitive v = Some hv -> Store.readsAvoid X h hv v.
Proof.
  intros E. exists 1%nat. destruct v; simpl in E; try discriminate; injection E as <-; reflexivity.
Qed.

Lemma loadAvoid_inv (X : nat -> bool) (d : nat) (h : Store.heap) (hv : Store.hvalue) (t : value) :
  Store.loadAvoid X (S d) h hv = Some t ->
  match hv with
  | Store.HRef l =>
      X l = false
      /\ ((exists hxs xs, h !! l = Some (Store.CArr hxs) /\ t = VArr xs
                          /\ Forall2 (fun hx x => Store.loadAvoid X d h hx = Some x) hxs xs)
          \/ (exists hfs fs, h !! l = Some (Store.CObj hfs) /\ t = VObj fs
                             /\ fieldsRead (fun hx x => Store.loadAvoid X d h hx = Some x) hfs fs))
  | _ => Store.primitive t = Some hv
  end.
Proof.
  rewrite loadAvoid_unfold. destruct hv; try (intros E; injection E as <-; reflexivity).
  destruct (X l); [discriminate|]. intros H. split; [reflexivity|].
  destruct (h !! l) as [[xs|fs]|]; [| |discriminate].
  - destruct (Store.loadList _ xs) as [xs'|] eqn:El; [|discriminate].
    injection H as <-. left. exists xs, xs'. split; [reflexivity|]. split; [reflexivity|].
    apply loadList_Forall2. exact El.
  - destruct (Store.loadList _ fs) as [fs'|] eqn:El; [|discriminate].
    injection H as <-. right. exists fs, fs'. split; [reflexivity|]. split; [reflexivity|].
    apply loadList_Forall2 in El. unfold fieldsRead.
    eapply Forall2_impl; [exact El|].
    intros [k x] [k' y]. cbn [fst snd].
    destruct (Store.loadAvoid X d h x); [|discriminate].
    intros E. injection E as <- <-. auto.
Qed.

Lemma assoc_fieldsRead (R : Store.hvalue -> value -> Prop)
    (hfs : list (string * Store.hvalue)) (fs : list (string * value)) (k : string) :
  fieldsRead R hfs fs ->
  match assoc k fs with
  | Some v => exists hv, Store.hassoc k hfs = Some hv /\ R hv v
  | None => Store.hassoc k hfs = None
  end.
Proof.
  unfold fieldsRead. induction 1 as [|[hk hv] [k' v] hfs fs [Hk Hv] _ IH]; simpl; [reflexivity|].
  simpl in Hk, Hv. subst hk.
  destruct (String.eqb k k'); [eauto|exact IH].
Qed.

Lemma readsAvoid_inv (X : nat -> bool) (h : Store.heap) (hv : Store.hvalue) (t : value) :
  Store.readsAvoid X h hv t ->
  match hv with
  | Store.HRef l =>
      X l = false
      /\ ((exists hxs xs, h !! l = Some (Store.CArr hxs) /\ t = VArr xs
                          /\ Forall2 (Store.readsAvoid X h) hxs xs)
          \/ (exists hfs fs, h !! l = Some (Store.CObj hfs) /\ t = VObj fs
                             /\ fieldsRead (Store.readsAvoid X h) hfs fs))
  | _ => Store.primitive t = Some hv
  end.
Proof.
  intros [[|d] Hd]; [discriminate|].
  apply loadAvoid_inv in Hd. destruct hv; try exact Hd.
  destruct Hd as [HX [(hxs & xs & Hl & -> & F)|(hfs & fs & Hl & -> & F)]]; (split; [exact HX|]).
  - left. exists hxs, xs. repeat split; try assumption.
    eapply Forall2_impl; [exact F|]. intros hx x E. exists d. exact E.
  - right. exists hfs, fs. repeat split; try assumption.
    eapply Forall2_impl; [exact F|]. intros hx x [Hk E]. split; [exact Hk|]. exists d. exact E.
Qed.

Lemma hget_sim (X : nat -> bool) (h : Store.heap) (hv : Store.hvalue) (v : value) (k : string) :
  Store.readsAvoid X h hv v ->
  match get v k with
  | Ok x => exists hx, Store.hget hv k h = (h, Store.Val hx) /\ Store.readsAvoid X h hx x
  | Throw e => Store.hget hv k h = (h, Store.Raise e)
  end.
Proof.
  intros Hr. apply readsAvoid_inv in Hr. unfold Store.hget.
  destruct hv.
  1-5: destruct v; simpl in Hr; try discriminate; try (injection Hr as <-); simpl;
       try reflexivity;
       (eexists; split; [reflexivity|]; apply readsAvoid_primitive;
        try destruct (String.eqb k "length"); reflexivity).
  destruct Hr as [_ [(hxs & xs & Hl & -> & F)|(hfs & fs & Hl & -> & F)]]; rewrite Hl; simpl.
  - eexists. split; [reflexivity|].
    rewrite (Forall2_length _ _ _ F).
    apply readsAvoid_primitive. destruct (String.eqb k "length"); reflexivity.
  - pose proof (assoc_fieldsRead _ _ _ k F) as Ha.
    destruct (assoc k fs) as [x|].
    + destruct Ha as (hx & -> & Hx). eexists. split; [reflexivity|]. exact Hx.
    + rewrite Ha. eexists. split; [reflexivity|]. apply readsAvoid_primitive. reflexivity.
Qed.

Lemma strictEq_sim (X : nat -> bool) (h : Store.heap) (hv hc : Store.hvalue) (v c : value) :
  Store.readsAvoid X h hv v -> Store.primitive c = Some hc ->
  Store.hstrictEq hv hc = strictEq v c.
Proof.
  intros Hr Hc. apply readsAvoid_inv in Hr.
  destruct hv.
  1-5: destruct v; simpl in Hr; try discriminate; try (injection Hr as <-);
       destruct c; simpl in Hc; try discriminate; try (injection Hc as <-); reflexivity.
  destruct Hr as [_ [(hxs & xs & _ & -> & _)|(hfs & fs & _ & -> & _)]];
    destruct c; simpl in Hc; try discriminate; try (injection Hc as <-); reflexivity.
Qed.

Lemma truthy_sim (X : nat -> bool) (h : Store.heap) (hv : Store.hvalue) (v : value) :
  Store.readsAvoid X h hv v -> Store.htruthy hv = truthy v.
Proof.
  intros Hr. apply readsAvoid_inv in Hr.
  destruct hv.
  1-5: destruct v; simpl in Hr; try discriminate; try (injection Hr as <-); reflexivity.
  destruct Hr as [_ [(hxs & xs & _ & -> & _)|(hfs & fs & _ & -> & _)]]; reflexivity.
Qed.

Lemma arrayOf_sim (X : nat -> bool) (h : Store.heap) (hv : Store.hvalue) (v : value) :
  Store.readsAvoid X h hv v ->
  match v with
  | VArr xs => exists hxs, Store.arrayOf h hv = Some hxs /\ Forall2 (Store.readsAvoid X h) hxs xs
  | _ => Store.arrayOf h hv = None
  end.
Proof.
  intros Hr. apply readsAvoid_inv in Hr.
  destruct hv.
  1-5: destruct v; simpl in Hr; try discriminate; reflexivity.
  destruct Hr as [_ [(hxs & xs & Hl & -> & F)|(hfs & fs & Hl & -> & _)]]; simpl; rewrite Hl.
  - eauto.
  - reflexivity.
Qed.

(** *** The shadow scan *)

(** A read followed by a computation that reads only. *)
Lemma hget_bind_sim {B} (X : nat -> bool) (h : Store.heap) (hv : Store.hvalue) (v : value)
    (key : string) (K : Store.hvalue -> Store.hm B) (k : value -> res B) :
  Store.readsAvoid X h hv v ->
  (forall hx x, Store.readsAvoid X h hx x -> K hx h = (h, Store.outcomeOf (k x))) ->
  Store.hbind (Store.hget hv key) K h = (h, Store.outcomeOf (bind (get v key) k)).
Proof.
  intros Hr HK. unfold Store.hbind.
  pose proof (hget_sim X h hv v key Hr) as Hg.
  destruct (get v key) as [x|e].
  - destruct Hg as (hx & -> & Rx). apply HK. exact Rx.
  - rewrite Hg. reflexivity.
Qed.

Lemma hfoldM_sim {S} (X : nat -> bool) (h : Store.heap)
    (F : S -> Store.hvalue -> Store.hm S) (f : S -> value -> res S)
    (hxs : list Store.hvalue) (xs : list value) (s : S) :
  Forall2 (Store.readsAvoid X h) hxs xs ->
  (forall s hx x, Store.readsAvoid X h hx x -> F s hx h = (h, Store.outcomeOf (f s x))) ->
  Store.hfoldM F hxs s h = (h, Store.outcomeOf (foldM f xs s)).
Proof.
  intros Hall HF. revert s.
  induction Hall as [|hx x hxs xs Hx _ IH]; intros s; [reflexivity|].
  cbn [Store.hfoldM foldM]. unfold Store.hbind. rewrite (HF s hx x Hx).
  destruct (f s x) as [s'|e]; [|reflexivity].
  cbn [Store.outcomeOf bind]. apply IH.
Qed.

Section Scan.
Variable X : nat -> bool.
Variable h : Store.heap.
Variables (name : value) (hname : Store.hvalue).
Hypothesis Hname : Store.primitive name = Some hname.

Lemma scanDeclarations_sim (hdecls : Store.hvalue) (decls : value) (b : bool) :
  Store.readsAvoid X h hdecls decls ->
  Store.scanDeclarations hname hdecls b h = (h, Store.outcomeOf (scanDeclarations name decls b)).
Proof.
  intros Hr. unfold Store.scanDeclarations, scanDeclarations, Store.hforEach, forEach.
  pose proof (arrayOf_sim _ _ _ _ Hr) as Ha.
  destruct decls; try (rewrite Ha; reflexivity).
  destruct Ha as (hxs & -> & F).
  apply (hfoldM_sim X h _ _ hxs xs b F).
  intros s hx x Hx.
  apply (hget_bind_sim X h hx x "id" _
           (fun id => n <- get id "name" ;; Ok (if strictEq n name then true else s)) Hx).
  intros hid id Rid.
  apply (hget_bind_sim X h hid id "name" _
           (fun n => Ok (if strictEq n name then true else s)) Rid).
  intros hn n Rn. unfold Store.hret. rewrite (strictEq_sim _ _ _ _ _ _ Rn Hname). reflexivity.
Qed.

Lemma declarations_sim (hnode : Store.hvalue) (node : value) (b : bool) :
  Store.readsAvoid X h hnode node ->
  Store.hbind (Store.hget hnode "declarations")
    (fun decls => Store.scanDeclarations hname decls b) h
  = (h, Store.outcomeOf (decls <- get node "declarations" ;; scanDeclarations name decls b)).
Proof.
  intros Hr.
  apply (hget_bind_sim X h hnode node "declarations"
           (fun decls => Store.scanDeclarations hname decls b)
           (fun decls => scanDeclarations name decls b) Hr).
  intros hd d Rd. apply scanDeclarations_sim. exact Rd.
Qed.

Lemma scanStatement_sim (hnode : Store.hvalue) (node : value) (b : bool) :
  Store.readsAvoid X h hnode node ->
  Store.scanStatement hname b hnode h = (h, Store.outcomeOf (scanStatement name b node)).
Proof.
  intros Hr. unfold Store.scanStatement, scanStatement.
  apply (hget_bind_sim X h hnode node "type" _
           (fun ty =>
              isShadowed <-
                (if strictEq ty (VStr "VariableDeclaration")
                 then decls <- get node "declarations" ;; scanDeclarations name decls b
                 else Ok b) ;;
              if strictEq ty (VStr "ForStatement")
              then
                init <- get node "init" ;;
                if truthy init
                then
                  ity <- get init "type" ;;
                  if strictEq ity (VStr "VariableDeclaration")
                  then decls <- get init "declarations" ;;
                       scanDeclarations name decls isShadowed
                  else Ok isShadowed
                else Ok isShadowed
              else Ok isShadowed) Hr).
  intros hty ty Rty.
  rewrite (strictEq_sim _ _ _ (Store.HStr "VariableDeclaration") _ (VStr "VariableDeclaration")
             Rty eq_refl).
  rewrite (strictEq_sim _ _ _ (Store.HStr "ForStatement") _ (VStr "ForStatement")
             Rty eq_refl).
  unfold Store.hbind at 1.
  assert (Hfirst :
    (if strictEq ty (VStr "VariableDeclaration")
     then Store.hbind (Store.hget hnode "declarations")
            (fun decls => Store.scanDeclarations hname decls b)
     else Store.hret b) h
    = (h, Store.outcomeOf
            (if strictEq ty (VStr "VariableDeclaration")
             then decls <- get node "declarations" ;; scanDeclarations name decls b
             else Ok b))).
  { destruct (strictEq ty (VStr "VariableDeclaration")); [|reflexivity].
    apply declarations_sim. exact Hr. }
  rewrite Hfirst. clear Hfirst.
  destruct (if strictEq ty (VStr "VariableDeclaration")
            then decls <- get node "declarations" ;; scanDeclarations name decls b
            else Ok b) as [b'|e]; [|reflexivity].
  cbn [Store.outcomeOf bind].
  destruct (strictEq ty (VStr "ForStatement")); [|reflexivity].
  apply (hget_bind_sim X h hnode node "init" _
           (fun init =>
              if truthy init
              then
                ity <- get init "type" ;;
                if strictEq ity (VStr "VariableDeclaration")
                then decls <- get init "declarations" ;; scanDeclarations name decls b'
                else Ok b'
              else Ok b') Hr).
  intros hinit init Ri.
  rewrite (truthy_sim _ _ _ _ Ri).
  destruct (truthy init); [|reflexivity].
  apply (hget_bind_sim X h hinit init "type" _
           (fun ity =>
              if strictEq ity (VStr "VariableDeclaration")
              then decls <- get init "declarations" ;; scanDeclarations name decls b'
              else Ok b') Ri).
  intros hity ity Rity.
  rewrite (strictEq_sim _ _ _ (Store.HStr "VariableDeclaration") _ (VStr "VariableDeclaration")
             Rity eq_refl).
  destruct (strictEq ity (VStr "VariableDeclaration")); [|reflexivity].
  apply declarations_sim. exact Ri.
Qed.

Lemma scanBody_sim (hbody : Store.hvalue) (stmts : list value) :
  Store.readsAvoid X h hbody (VArr stmts) ->
  Store.hforEach hbody (Store.scanStatement hname) false h
  = (h, Store.outcomeOf (scanBody name (VArr stmts))).
Proof.
  intros Hr. unfold Store.hforEach, scanBody, forEach.
  destruct (arrayOf_sim _ _ _ _ Hr) as (hxs & -> & F).
  apply (hfoldM_sim X h _ _ hxs stmts false F).
  intros s hx x Hx. apply scanStatement_sim. exact Hx.
Qed.

End Scan.

(** *** The recursion *)

Lemma distinctKeys_arr (xs : list value) :
  Store.distinctKeys (VArr xs) <-> Forall Store.distinctKeys xs.
Proof.
  cbn [Store.distinctKeys]. induction xs as [|x xs IH].
  - split; [constructor|trivial].
  - rewrite Forall_cons, <- IH. reflexivity.
Qed.

Lemma distinctKeys_obj (fs : list (string * value)) :
  Store.distinctKeys (VObj fs)
  <-> NoDup (map fst fs) /\ Forall (fun kv => Store.distinctKeys (snd kv)) fs.
Proof.
  cbn [Store.distinctKeys].
  assert (E : (fix all (l : list (string * value)) : Prop :=
                 match l with
                 | [] => True
                 | kv :: r => Store.distinctKeys kv.2 /\ all r
                 end) fs
              <-> Forall (fun kv => Store.distinctKeys (snd kv)) fs).
  { induction fs as [|kv fs IH].
    - split; [constructor|trivial].
    - rewrite Forall_cons, <- IH. reflexivity. }
  rewrite E. reflexivity.
Qed.

Lemma Forall2_readsAvoid_depth (X : nat -> bool) (h : Store.heap)
    (hxs : list Store.hvalue) (xs : list value) :
  Forall2 (Store.readsAvoid X h) hxs xs ->
  exists d, Forall2 (fun hx x => Store.loadAvoid X d h hx = Some x) hxs xs.
Proof.
  induction 1 as [|hx x hxs xs [d1 H1] _ [d2 IH]].
  - exists 0%nat. constructor.
  - exists (Nat.max d1 d2). constructor.
    + eapply loadAvoid_le; [|exact H1]. lia.
    + eapply Forall2_impl; [exact IH|].
      intros a b E. eapply loadAvoid_le; [|exact E]. lia.
Qed.

Lemma fieldsRead_depth (X : nat -> bool) (h : Store.heap)
    (hfs : list (string * Store.hvalue)) (fs : list (string * value)) :
  fieldsRead (Store.readsAvoid X h) hfs fs ->
  exists d, fieldsRead (fun hx x => Store.loadAvoid X d h hx = Some x) hfs fs.
Proof.
  unfold fieldsRead. induction 1 as [|hkv kv hfs fs [Hk [d1 H1]] _ [d2 IH]].
  - exists 0%nat. constructor.
  - exists (Nat.max d1 d2). constructor.
    + split; [exact Hk|]. eapply loadAvoid_le; [|exact H1]. lia.
    + eapply Forall2_impl; [exact IH|].
      intros a b [Hab E]. split; [exact Hab|]. eapply loadAvoid_le; [|exact E]. lia.
Qed.

(** A fresh array of readable elements can be read. *)
Lemma readsAvoid_array (X : nat -> bool) (h : Store.heap) (l : nat)
    (hxs : list Store.hvalue) (xs : list value) :
  X l = false -> h !! l = Some (Store.CArr hxs) ->
  Forall2 (Store.readsAvoid X h) hxs xs ->
  Store.readsAvoid X h (Store.HRef l) (VArr xs).
Proof.
  intros HX Hl F. destruct (Forall2_readsAvoid_depth _ _ _ _ F) as [d Fd].
  exists (S d). rewrite loadAvoid_unfold, HX, Hl.
  apply loadList_Forall2 in Fd. rewrite Fd. reflexivity.
Qed.

Lemma readsAvoid_object (X : nat -> bool) (h : Store.heap) (l : nat)
    (hfs : list (string * Store.hvalue)) (fs : list (string * value)) :
  X l = false -> h !! l = Some (Store.CObj hfs) ->
  fieldsRead (Store.readsAvoid X h) hfs fs ->
  Store.readsAvoid X h (Store.HRef l) (VObj fs).
Proof.
  intros HX Hl F. destruct (fieldsRead_depth _ _ _ _ F) as [d Fd].
  exists (S d). rewrite loadAvoid_unfold, HX, Hl.
  assert (E : Store.loadList
                (fun kv : string * Store.hvalue =>
                   match Store.loadAvoid X d h (snd kv) with
                   | Some x => Some (fst kv, x)
                   | None => None
                   end) hfs = Some fs).
  { apply loadList_Forall2. unfold fieldsRead in Fd.
    eapply Forall2_impl; [exact Fd|].
    intros [hk hv] [k v] [Hk Hv]. cbn [fst snd] in *. rewrite Hv, Hk. reflexivity. }
  rewrite E. reflexivity.
Qed.

(** The same, with the children lifted to the depth of the node. *)
Lemma loadAvoid_ref_inv (X : nat -> bool) (d : nat) (h : Store.heap) (l : nat) (t : value) :
  Store.loadAvoid X d h (Store.HRef l) = Some t ->
  X l = false
  /\ ((exists hxs xs, h !! l = Some (Store.CArr hxs) /\ t = VArr xs
                      /\ Forall2 (fun hx x => Store.loadAvoid X d h hx = Some x) hxs xs)
      \/ (exists hfs fs, h !! l = Some (Store.CObj hfs) /\ t = VObj fs
                         /\ fieldsRead (fun hx x => Store.loadAvoid X d h hx = Some x) hfs fs)).
Proof.
  destruct d as [|d]; [discriminate|]. intros E. apply loadAvoid_inv in E.
  destruct E as [HX [(hxs & xs & Hl & -> & F)|(hfs & fs & Hl & -> & F)]]; (split; [exact HX|]).
  - left. exists hxs, xs. repeat split; try assumption.
    eapply Forall2_impl; [exact F|]. intros a b E. apply loadAvoid_S. exact E.
  - right. exists hfs, fs. repeat split; try assumption.
    eapply Forall2_impl; [exact F|]. intros a b [Hk E]. split; [exact Hk|].
    apply loadAvoid_S. exact E.
Qed.

Lemma loadAvoid_primitive_inv (X : nat -> bool) (d : nat) (h : Store.heap)
    (hv : Store.hvalue) (t : value) :
  Store.loadAvoid X d h hv = Some t ->
  match hv with
  | Store.HRef _ => True
  | _ => Store.primitive t = Some hv
  end.
Proof.
  destruct d as [|d]; [discriminate|]. intros E. apply loadAvoid_inv in E.
  destruct hv; try exact E. exact I.
Qed.

Lemma covered_prefix (X : nat -> bool) (h h' : Store.heap) :
  covered X h -> h `prefix_of` h' -> covered X h'.
Proof.
  intros Hc Hp l Hl. specialize (Hc l Hl). apply prefix_length in Hp. lia.
Qed.

Lemma covered_fresh (X : nat -> bool) (h : Store.heap) : covered X h -> X (length h) = false.
Proof.
  intros Hc. destruct (X (length h)) eqn:E; [|reflexivity].
  specialize (Hc _ E). lia.
Qed.

Section Recursion.
Variables (name : value) (hname : Store.hvalue).
Hypothesis Hname : Store.primitive name = Some hname.
Variable d : nat.
Hypothesis IH : refinesAt name hname d.

Lemma hmapM_sim (X : nat -> bool) (h : Store.heap) (hw : Store.hvalue) (w : value)
    (hys : list Store.hvalue) (ys : list value) :
  covered X h ->
  Forall2 (fun hy y => Store.loadAvoid X d h hy = Some y) hys ys ->
  Forall Store.distinctKeys ys ->
  Store.readsAvoid X h hw w ->
  exists h' ho,
    Store.hmapM (Store.replaceIdentifier d hname hw) hys h = (h', ho)
    /\ h `prefix_of` h'
    /\ agrees (Forall2 (Store.readsAvoid X h')) ho (mapM (replaceIdentifier name w) ys).
Proof.
  intros Hc F. revert h Hc F.
  induction ys as [|y ys IHl] in hys |- *; intros h Hc F Hd Hw.
  - inversion F; subst. exists h, (Store.Val []). split; [reflexivity|].
    split; [reflexivity|]. exists []. split; [reflexivity|constructor].
  - inversion F as [|hy ? hys' ? Hy Hys]; subst.
    apply Forall_cons in Hd as [Hdy Hdys].
    destruct (IH X h hy hw y w Hc Hy Hdy Hw) as (h1 & ho1 & E1 & Hp1 & A1).
    cbn [mapM Store.hmapM]. unfold Store.hbind at 1. rewrite E1.
    unfold agrees in A1.
    destruct (replaceIdentifier name w y) as [r|e].
    + destruct A1 as (hr & -> & Rr). cbn [bind].
      assert (Hs1 : Store.stable X h h1) by (apply StoreFacts.stable_prefix; exact Hp1).
      destruct (IHl hys' h1) as (h2 & ho2 & E2 & Hp2 & A2).
      * eapply covered_prefix; eassumption.
      * eapply Forall2_impl; [exact Hys|]. intros a b E.
        eapply StoreFacts.loadAvoid_stable; eassumption.
      * exact Hdys.
      * eapply readsAvoid_stable; eassumption.
      * unfold Store.hbind. rewrite E2. unfold agrees in A2 |- *.
        destruct (mapM (replaceIdentifier name w) ys) as [rs|e].
        -- destruct A2 as (hrs & -> & Frs). cbn [bind].
           exists h2, (Store.Val (hr :: hrs)). split; [reflexivity|].
           split; [etransitivity; eassumption|].
           exists (hr :: hrs). split; [reflexivity|]. constructor; [|exact Frs].
           eapply readsAvoid_stable; [|exact Rr]. apply StoreFacts.stable_prefix. exact Hp2.
        -- subst ho2. exists h2, (Store.Raise e). split; [reflexivity|].
           split; [etransitivity; eassumption|reflexivity].
    + subst ho1. exists h1, (Store.Raise e). split; [reflexivity|].
      split; [exact Hp1|reflexivity].
Qed.

Lemma loadsWithin_of_load (X : nat -> bool) (h : Store.heap) (hv : Store.hvalue) (v : value) :
  Store.loadAvoid X d h hv = Some v -> loadsWithin d X h hv v.
Proof.
  intros E. unfold loadsWithin. destruct hv; try exact E.
  all: apply loadAvoid_primitive_inv in E; exact E.
Qed.

Lemma replaceValue_sim (X : nat -> bool) (h : Store.heap) (hv hw : Store.hvalue) (v w : value) :
  covered X h ->
  loadsWithin d X h hv v ->
  Store.distinctKeys v ->
  Store.readsAvoid X h hw w ->
  exists h' ho,
    Store.replaceValue (Store.replaceIdentifier d hname hw) hv h = (h', ho)
    /\ h `prefix_of` h'
    /\ agrees (Store.readsAvoid X h') ho (replaceValue (replaceIdentifier name w) v).
Proof.
  intros Hc Hl Hd Hw. unfold loadsWithin in Hl.
  destruct hv.
  1-5: destruct v; simpl in Hl; try discriminate; try (injection Hl as <-);
       eexists h, _; (split; [reflexivity|]); (split; [reflexivity|]);
       eexists; (split; [reflexivity|]); apply readsAvoid_primitive; reflexivity.
  pose proof Hl as Hinv. apply loadAvoid_ref_inv in Hinv.
  destruct Hinv as [HX [(hys & ys & Hcell & -> & F)|(hfs & fs & Hcell & -> & F)]].
  - (* an array: mapped into a fresh array *)
    apply distinctKeys_arr in Hd.
    destruct (hmapM_sim X h hw w hys ys Hc F Hd Hw) as (h1 & ho1 & E1 & Hp1 & A1).
    cbn [replaceValue]. unfold Store.replaceValue. cbn [Store.arrayOf]. rewrite Hcell.
    unfold Store.hbind at 1. rewrite E1. unfold agrees in A1 |- *.
    destruct (mapM (replaceIdentifier name w) ys) as [rs|e].
    + destruct A1 as (hrs & -> & Frs). cbn [bind].
      eexists (h1 ++ [Store.CArr hrs])%list, _. split; [reflexivity|]. split.
      { etransitivity; [exact Hp1|]. apply prefix_app_r. reflexivity. }
      exists (Store.HRef (length h1)). split; [reflexivity|].
      apply readsAvoid_array with (hxs := hrs).
      * apply covered_fresh. eapply covered_prefix; eassumption.
      * apply list_lookup_middle. reflexivity.
      * eapply Forall2_impl; [exact Frs|]. intros a b Rab.
        eapply readsAvoid_stable; [|exact Rab].
        apply StoreFacts.stable_prefix. apply prefix_app_r. reflexivity.
    + subst ho1. eexists h1, _. split; [reflexivity|]. split; [exact Hp1|reflexivity].
  - (* a node: the recursive call *)
    destruct (IH X h (Store.HRef l) hw (VObj fs) w Hc Hl Hd Hw) as (h1 & ho1 & E1 & Hp1 & A1).
    exists h1, ho1. split; [|split; [exact Hp1|exact A1]].
    unfold Store.replaceValue. cbn [Store.arrayOf]. rewrite Hcell. exact E1.
Qed.

Lemma loadsWithin_embeds (X X' : nat -> bool) (h h' : Store.heap) (hv : Store.hvalue)
    (v : value) :
  (forall l c, X l = false -> h !! l = Some c -> X' l = false /\ h' !! l = Some c) ->
  loadsWithin d X h hv v -> loadsWithin d X' h' hv v.
Proof.
  intros Hs. unfold loadsWithin. destruct hv; try (intros E; exact E).
  apply StoreFacts.loadAvoid_embeds. exact Hs.
Qed.

Lemma loadsWithin_stable (X : nat -> bool) (h h' : Store.heap) (hv : Store.hvalue) (v : value) :
  Store.stable X h h' -> loadsWithin d X h hv v -> loadsWithin d X h' hv v.
Proof.
  intros Hs. apply loadsWithin_embeds. intros l c HX Hl. split; [exact HX|]. exact (Hs l c HX Hl).
Qed.

Lemma putField_fresh (k : string) (v : Store.hvalue) (acc : list (string * Store.hvalue)) :
  ~ In k (map fst acc) -> Store.putField k v acc = (acc ++ [(k, v)])%list.
Proof.
  induction acc as [|[k' v'] acc IHa]; simpl; [reflexivity|].
  intros Hn. destruct (String.eqb k k') eqn:E.
  - apply String.eqb_eq in E. subst k'. tauto.
  - rewrite IHa by tauto. reflexivity.
Qed.

Lemma stable_insert (X : nat -> bool) (h : Store.heap) (l : nat) (c : Store.cell) :
  X l = true -> Store.stable X h (<[l := c]> h).
Proof.
  intros HX l' c' HX' Hl'.
  rewrite list_lookup_insert_ne; [exact Hl'|]. congruence.
Qed.

Lemma stable_trans (X : nat -> bool) (h1 h2 h3 : Store.heap) :
  Store.stable X h1 h2 -> Store.stable X h2 h3 -> Store.stable X h1 h3.
Proof. intros H12 H23 l c HX Hl. apply H23; [exact HX|]. apply H12; assumption. Qed.

(** The reduction over the keys, from a heap [H] where the object under
    construction, at [n0], holds the fields [acc]. *)
Lemma reduceKeys_sim (X : nat -> bool) (n0 : nat) (hw : Store.hvalue) (w : value)
    (hes : list (string * Store.hvalue)) (es : list (string * value)) :
  forall (H : Store.heap) (acc : list (string * Store.hvalue)),
    X n0 = true ->
    covered X H ->
    H !! n0 = Some (Store.CObj acc) ->
    fieldsRead (loadsWithin d X H) hes es ->
    Forall (fun kv => Store.distinctKeys (snd kv)) es ->
    NoDup (map fst hes) ->
    (forall k, In k (map fst hes) -> ~ In k (map fst acc)) ->
    Store.readsAvoid X H hw w ->
    exists H' ho,
      Store.reduceKeys (Store.replaceIdentifier d hname hw) n0 hes H = (H', ho)
      /\ Store.stable X H H'
      /\ match reduceKeys (replaceValue (replaceIdentifier name w)) es with
         | Ok es' =>
             ho = Store.Val tt
             /\ exists hes', H' !! n0 = Some (Store.CObj (acc ++ hes'))
                             /\ fieldsRead (Store.readsAvoid X H') hes' es'
         | Throw e => ho = Store.Raise e
         end.
Proof.
  induction es as [|[k v] es IHl] in hes |- *; intros H acc HX Hc Hn F Hd Hnd Hfresh Hw.
  - inversion F; subst. exists H, (Store.Val tt). split; [reflexivity|].
    split; [intros l c _ E; exact E|]. split; [reflexivity|].
    exists []. rewrite app_nil_r. split; [exact Hn|constructor].
  - inversion F as [|[hk hv] ? hes' ? [Hk Hv] Hrest]; subst. cbn [fst snd] in Hk, Hv. subst hk.
    apply Forall_cons in Hd as [Hdv Hdes]. cbn [snd] in Hdv.
    cbn [map fst] in Hnd. apply NoDup_cons in Hnd as [Hk_rest Hnd].
    rewrite list_elem_of_In in Hk_rest.
    destruct (replaceValue_sim X H hv hw v w Hc Hv Hdv Hw) as (H1 & ho1 & E1 & Hp1 & A1).
    cbn [Store.reduceKeys reduceKeys]. unfold Store.hbind at 1. rewrite E1.
    unfold agrees in A1.
    destruct (replaceValue (replaceIdentifier name w) v) as [v'|e].
    + destruct A1 as (hv' & -> & Rv'). cbn [bind].
      assert (Hn1 : H1 !! n0 = Some (Store.CObj acc)) by exact (prefix_lookup_Some _ _ _ _ Hn Hp1).
      unfold Store.hbind at 1. unfold Store.setField at 1. rewrite Hn1.
      rewrite putField_fresh by (apply Hfresh; left; reflexivity).
      set (H2 := <[n0 := Store.CObj (acc ++ [(k, hv')])]> H1).
      assert (Hs12 : Store.stable X H1 H2) by (apply stable_insert; exact HX).
      assert (Hs1 : Store.stable X H H1) by (apply StoreFacts.stable_prefix; exact Hp1).
      assert (Hs2 : Store.stable X H H2) by (eapply stable_trans; eassumption).
      assert (Hlen : (n0 < length H1)%nat) by (apply lookup_lt_Some in Hn1; exact Hn1).
      destruct (IHl hes' H2 (acc ++ [(k, hv')])%list) as (H' & ho & E & Hs & A).
      * exact HX.
      * intros l Hl. unfold H2. rewrite length_insert.
        eapply covered_prefix; eassumption.
      * unfold H2. apply list_lookup_insert_eq. exact Hlen.
      * unfold fieldsRead in *. eapply Forall2_impl; [exact Hrest|].
        intros a b [Hab Lab]. split; [exact Hab|]. eapply loadsWithin_stable; eassumption.
      * exact Hdes.
      * exact Hnd.
      * intros k' Hk' Hin. rewrite map_app, in_app_iff in Hin. destruct Hin as [Hin|Hin].
        -- apply (Hfresh k'); [right; exact Hk'|exact Hin].
        -- simpl in Hin. destruct Hin as [<-|[]]. exact (Hk_rest Hk').
      * eapply readsAvoid_stable; eassumption.
      * exists H', ho. split; [exact E|]. split; [eapply stable_trans; eassumption|].
        destruct (reduceKeys (replaceValue (replaceIdentifier name w)) es) as [es'|e].
        -- destruct A as (-> & hes'' & Hn' & F'). cbn [bind]. split; [reflexivity|].
           exists ((k, hv') :: hes''). split.
           { rewrite Hn'. rewrite <- app_assoc. reflexivity. }
           constructor; [|exact F']. split; [reflexivity|]. cbn [snd].
           eapply readsAvoid_stable; [|exact Rv']. eapply stable_trans; eassumption.
        -- exact A.
    + subst ho1. exists H1, (Store.Raise e). split; [reflexivity|].
      split; [apply StoreFacts.stable_prefix; exact Hp1|reflexivity].
Qed.

(** The fresh object and the reduction into it. *)
Lemma build_sim (X : nat -> bool) (h : Store.heap) (hw : Store.hvalue) (w : value)
    (hes : list (string * Store.hvalue)) (es : list (string * value)) :
  covered X h ->
  fieldsRead (loadsWithin d X h) hes es ->
  Forall (fun kv => Store.distinctKeys (snd kv)) es ->
  NoDup (map fst hes) ->
  Store.readsAvoid X h hw w ->
  exists h' ho,
    Store.hbind (Store.alloc (Store.CObj []))
      (fun newAst =>
         Store.hbind (Store.reduceKeys (Store.replaceIdentifier d hname hw) newAst hes)
           (fun _ => Store.hret (Store.HRef newAst))) h = (h', ho)
    /\ agrees (Store.readsAvoid X h') ho
         (fs' <- reduceKeys (replaceValue (replaceIdentifier name w)) es ;; Ok (VObj fs')).
Proof.
  intros Hc F Hd Hnd Hw.
  set (n0 := length h).
  set (X' := fun l => X l || Nat.eqb l n0).
  set (H1 := (h ++ [Store.CObj []])%list).
  assert (Hemb : forall l c, X l = false -> h !! l = Some c ->
                             X' l = false /\ H1 !! l = Some c).
  { intros l c HX Hl. pose proof (lookup_lt_Some _ _ _ Hl) as Hlt. split.
    - unfold X'. rewrite HX. simpl. apply Nat.eqb_neq. unfold n0. lia.
    - unfold H1. rewrite lookup_app_l by exact Hlt. exact Hl. }
  destruct (reduceKeys_sim X' n0 hw w hes es H1 []) as (H' & ho & E & Hs & A).
  - unfold X'. rewrite Nat.eqb_refl. apply orb_true_r.
  - intros l Hl. unfold H1. rewrite length_app. simpl.
    unfold X' in Hl. apply orb_true_iff in Hl as [Hl|Hl].
    + specialize (Hc l Hl). lia.
    + apply Nat.eqb_eq in Hl. subst l. unfold n0. lia.
  - unfold H1, n0. apply list_lookup_middle. reflexivity.
  - unfold fieldsRead in *. eapply Forall2_impl; [exact F|].
    intros a b [Hab Lab]. split; [exact Hab|]. eapply loadsWithin_embeds; eassumption.
  - exact Hd.
  - exact Hnd.
  - intros k _ [].
  - destruct Hw as [dw Hw]. exists dw. eapply StoreFacts.loadAvoid_embeds; eassumption.
  - unfold Store.hbind at 1. cbn [Store.alloc]. fold n0. fold H1.
    unfold Store.hbind. rewrite E. unfold agrees.
    destruct (reduceKeys (replaceValue (replaceIdentifier name w)) es) as [es'|e].
    + destruct A as (-> & hes' & Hn' & F'). cbn [bind].
      exists H', (Store.Val (Store.HRef n0)). split; [reflexivity|].
      exists (Store.HRef n0). split; [reflexivity|].
      apply readsAvoid_object with (hfs := hes').
      * apply covered_fresh. exact Hc.
      * exact Hn'.
      * unfold fieldsRead in *. eapply Forall2_impl; [exact F'|].
        intros a b [Hab [dab Lab]]. split; [exact Hab|]. exists dab.
        eapply StoreFacts.loadAvoid_embeds; [|exact Lab].
        intros l c HX' Hl. split; [|exact Hl].
        unfold X' in HX'. apply orb_false_iff in HX'. tauto.
    + subst ho. exists H', (Store.Raise e). split; reflexivity.
Qed.

End Recursion.

Lemma indexed_keys_fresh {A} (i j : nat) (l : list A) :
  (j < i)%nat -> ~ In (nat_key j) (map fst (Store.indexed i l)).
Proof.
  revert i. induction l as [|x l IHl]; intros i Hlt; simpl; [tauto|].
  intros [E|Hin].
  - unfold nat_key in E. apply (inj pretty) in E. lia.
  - apply (IHl (S i)); [lia|exact Hin].
Qed.

Lemma indexed_NoDup {A} (i : nat) (l : list A) : NoDup (map fst (Store.indexed i l)).
Proof.
  revert i. induction l as [|x l IHl]; intros i; simpl.
  - constructor.
  - apply NoDup_cons. split; [|apply IHl].
    rewrite list_elem_of_In. apply indexed_keys_fresh. lia.
Qed.

Lemma reduceIndices_indexed (f : value -> res value) (i : nat) (xs : list value) :
  reduceIndices f i xs = reduceKeys f (Store.indexed i xs).
Proof.
  revert i. induction xs as [|x xs IHl]; intros i; simpl; [reflexivity|].
  destruct (f x); simpl; [|reflexivity]. rewrite IHl. reflexivity.
Qed.

Lemma reduceKeys_string_entries (f : value -> res value) (i : nat) (s : string) :
  reduceKeys (replaceValue f) (string_entries i s) = Ok (string_entries i s).
Proof.
  revert i. induction s as [|c s IHs]; intros i; simpl; [reflexivity|].
  rewrite IHs. reflexivity.
Qed.

Lemma string_entries_read (P : Store.hvalue -> value -> Prop) (i : nat) (s : string) :
  (forall c, P (Store.HStr (String c "")) (VStr (String c ""))) ->
  fieldsRead P (Store.indexed i (Store.charsOf s)) (string_entries i s).
Proof.
  intros HP. revert i. induction s as [|c s IHs]; intros i; simpl.
  - constructor.
  - constructor; [split; [reflexivity|apply HP]|apply IHs].
Qed.

Lemma indexed_read (P : Store.hvalue -> value -> Prop) (i : nat)
    (hxs : list Store.hvalue) (xs : list value) :
  Forall2 P hxs xs -> fieldsRead P (Store.indexed i hxs) (Store.indexed i xs).
Proof.
  intros F. revert i. induction F as [|hx x hxs xs Hx _ IHl]; intros i; simpl.
  - constructor.
  - constructor; [split; [reflexivity|exact Hx]|apply IHl].
Qed.

Lemma indexed_distinctKeys (i : nat) (xs : list value) :
  Forall Store.distinctKeys xs ->
  Forall (fun kv => Store.distinctKeys (snd kv)) (Store.indexed i xs).
Proof.
  intros F. revert i. induction F as [|x xs Hx _ IHl]; intros i; simpl; constructor; auto.
Qed.

Lemma string_entries_distinctKeys (i : nat) (s : string) :
  Forall (fun kv => Store.distinctKeys (snd kv)) (string_entries i s).
Proof.
  revert i. induction s as [|c s IHs]; intros i; simpl; constructor; [exact I|apply IHs].
Qed.

Lemma fieldsRead_keys (R : Store.hvalue -> value -> Prop)
    (hfs : list (string * Store.hvalue)) (fs : list (string * value)) :
  fieldsRead R hfs fs -> map fst hfs = map fst fs.
Proof.
  unfold fieldsRead. induction 1 as [|a b hfs fs [Hk _] _ IHl]; simpl; [reflexivity|].
  rewrite Hk, IHl. reflexivity.
Qed.

Lemma hbind_val {A B} (m : Store.hm A) (k : A -> Store.hm B) (h h' : Store.heap) (a : A) :
  m h = (h', Store.Val a) -> Store.hbind m k h = k a h'.
Proof. intros E. unfold Store.hbind. rewrite E. reflexivity. Qed.

Lemma hbind_raise {A B} (m : Store.hm A) (k : A -> Store.hm B) (h h' : Store.heap) (e : exn) :
  m h = (h', Store.Raise e) -> Store.hbind m k h = (h', Store.Raise e).
Proof. intros E. unfold Store.hbind. rewrite E. reflexivity. Qed.

(** The store model, on a tree that lies on the heap, does what the tree
    model does on the tree: with the fuel of the depth of the tree it ends,
    with the same exception or with a reference under which the result of
    the tree model can be read. *)
Theorem store_refines_tree (name : value) (hname : Store.hvalue) (d : nat) :
  Store.primitive name = Some hname -> refinesAt name hname d.
Proof.
  intros Hname. induction d as [|d IH]; intros X h hin hw t w Hc Hl Hd Hw; [discriminate|].
  enough (exists h' ho,
             Store.replaceIdentifier (S d) hname hw hin h = (h', ho)
             /\ agrees (Store.readsAvoid X h') ho (replaceIdentifier name w t))
    as (h' & ho & E & A).
  { exists h', ho. split; [exact E|]. split; [|exact A].
    pose proof (StoreFacts.keeps_replaceIdentifier (S d) h hname hw hin h) as Hk.
    rewrite E in Hk. apply Hk. reflexivity. }
  assert (Rin : Store.readsAvoid X h hin t) by (exists (S d); exact Hl).
  pose proof Hl as Hinv. apply loadAvoid_inv in Hinv.
  destruct hin as [| |b|n|s|l].
  - (* undefined *)
    destruct t; simpl in Hinv; try discriminate.
    eexists _, _. split; reflexivity.
  - (* null *)
    destruct t; simpl in Hinv; try discriminate.
    eexists _, _. split; reflexivity.
  - (* a boolean: no keys *)
    destruct t; simpl in Hinv; try discriminate.
    eexists _, _. split; [reflexivity|].
    eexists. split; [reflexivity|].
    apply readsAvoid_object with (hfs := []).
    + apply covered_fresh. exact Hc.
    + apply list_lookup_middle. reflexivity.
    + constructor.
  - (* a number: no keys *)
    destruct t; simpl in Hinv; try discriminate.
    eexists _, _. split; [reflexivity|].
    eexists. split; [reflexivity|].
    apply readsAvoid_object with (hfs := []).
    + apply covered_fresh. exact Hc.
    + apply list_lookup_middle. reflexivity.
    + constructor.
  - (* a string: its indices *)
    destruct t; simpl in Hinv; try discriminate. injection Hinv as ->.
    destruct (build_sim name hname d IH X h hw w
                (Store.indexed 0 (Store.charsOf s)) (string_entries 0 s))
      as (h' & ho & E & A).
    + exact Hc.
    + apply string_entries_read. intros c. reflexivity.
    + apply string_entries_distinctKeys.
    + apply indexed_NoDup.
    + exact Hw.
    + exists h', ho. split; [exact E|].
      rewrite reduceKeys_string_entries in A. exact A.
  - destruct Hinv as [HX [(hxs & xs & Hcell & -> & F)|(hfs & fs & Hcell & -> & F)]].
    + (* an array: its indices *)
      destruct (build_sim name hname d IH X h hw w (Store.indexed 0 hxs) (Store.indexed 0 xs))
        as (h' & ho & E & A).
      * exact Hc.
      * apply indexed_read. eapply Forall2_impl; [exact F|].
        intros a b Eab. apply loadsWithin_of_load. exact Eab.
      * apply indexed_distinctKeys. apply distinctKeys_arr. exact Hd.
      * apply indexed_NoDup.
      * exact Hw.
      * exists h', ho. split.
        -- cbn [Store.replaceIdentifier].
           rewrite (hbind_val _ _ h h Store.HUndef)
             by (unfold Store.hget; rewrite Hcell; reflexivity).
           cbn [Store.hstrictEq]. rewrite (hbind_val _ _ h h false) by reflexivity.
           rewrite (hbind_val _ _ h h Store.HUndef)
             by (unfold Store.hget; rewrite Hcell; reflexivity).
           rewrite (hbind_val _ _ h h false) by reflexivity.
           rewrite (hbind_val _ _ h h (Store.indexed 0 hxs))
             by (unfold Store.ownEntries; rewrite Hcell; reflexivity).
           exact E.
        -- cbn [replaceIdentifier]. rewrite reduceIndices_indexed. exact A.
    + (* an object *)
      apply distinctKeys_obj in Hd as [Hnd Hdfs].
      pose proof (hget_sim X h _ _ "type" Rin) as Gty. cbn [get] in Gty.
      destruct Gty as (hty & Ety & Rty).
      pose proof (hget_sim X h _ _ "name" Rin) as Gn. cbn [get] in Gn.
      destruct Gn as (hn & En & Rn).
      pose proof (hget_sim X h _ _ "body" Rin) as Gb. cbn [get] in Gb.
      destruct Gb as (hbody & Eb & Rb).
      pose proof (strictEq_sim X h hty (Store.HStr "Identifier") _ (VStr "Identifier")
                    Rty eq_refl) as Sty.
      pose proof (strictEq_sim X h hn hname _ name Rn Hname) as Sn.
      cbn [Store.replaceIdentifier replaceIdentifier].
      rewrite (hbind_val _ _ h h hty Ety).
      assert (Etarget :
        (if Store.hstrictEq hty (Store.HStr "Identifier")
         then Store.hbind (Store.hget (Store.HRef l) "name")
                (fun n => Store.hret (Store.hstrictEq n hname))
         else Store.hret false) h = (h, Store.Val (isTarget name fs))).
      { unfold isTarget. rewrite Sty.
        destruct (strictEq (default VUndef (assoc "type" fs)) (VStr "Identifier"));
          [|reflexivity].
        rewrite (hbind_val _ _ h h hn En). unfold Store.hret. rewrite Sn. reflexivity. }
      rewrite (hbind_val _ _ h h _ Etarget).
      destruct (isTarget name fs).
      { exists h, (Store.Val hw). split; [reflexivity|].
        exists hw. split; [reflexivity|exact Hw]. }
      rewrite (hbind_val _ _ h h hbody Eb).
      assert (Eshadow :
        (fun h0 : Store.heap =>
           match Store.arrayOf h0 hbody with
           | Some _ => Store.hforEach hbody (Store.scanStatement hname) false h0
           | None => (h0, Store.Val false)
           end) h = (h, Store.outcomeOf (isShadowedIn name fs))).
      { unfold isShadowedIn. pose proof (arrayOf_sim X h _ _ Rb) as Ha.
        destruct (default VUndef (assoc "body" fs)) as [| | | | |stmts|bfs] eqn:Ebody;
          try (rewrite Ha; reflexivity).
        destruct Ha as (hstmts & -> & _). cbn [isArray].
        apply (scanBody_sim X h name hname Hname hbody stmts Rb). }
      destruct (isShadowedIn name fs) as [[|]|e]; cbn [Store.outcomeOf] in Eshadow.
      * rewrite (hbind_val _ _ h h true Eshadow).
        exists h, (Store.Val (Store.HRef l)). split; [reflexivity|].
        exists (Store.HRef l). split; [reflexivity|exact Rin].
      * rewrite (hbind_val _ _ h h false Eshadow).
        rewrite (hbind_val _ _ h h hfs)
          by (unfold Store.ownEntries; rewrite Hcell; reflexivity).
        cbn [bind].
        apply (build_sim name hname d IH X h hw w hfs fs).
        -- exact Hc.
        -- unfold fieldsRead in *. eapply Forall2_impl; [exact F|].
           intros a b [Hab Eab]. split; [exact Hab|]. apply loadsWithin_of_load. exact Eab.
        -- exact Hdfs.
        -- rewrite (fieldsRead_keys _ _ _ F). exact Hnd.
        -- exact Hw.
      * rewrite (hbind_raise _ _ h h e Eshadow).
        exists h, (Store.Raise e). split; reflexivity.
Qed.

(** *** Putting a tree on the heap *)

Lemma value_induction (P : value -> Prop) :
  P VUndef -> P VNull -> (forall b, P (VBool b)) -> (forall n, P (VNum n)) ->
  (forall s, P (VStr s)) ->
  (forall xs, Forall P xs -> P (VArr xs)) ->
  (forall fs, Forall (fun kv => P (snd kv)) fs -> P (VObj fs)) ->
  forall v, P v.
Proof.
  intros HU HN HB HZ HS HA HO.
  fix rec 1. intros [| |b|n|s|xs|fs].
  - exact HU.
  - exact HN.
  - apply HB.
  - apply HZ.
  - apply HS.
  - apply HA. induction xs as [|x xs IHxs]; constructor; [apply rec|exact IHxs].
  - apply HO. induction fs as [|[k x] fs IHfs]; constructor; [apply rec|exact IHfs].
Qed.

Lemma store_reads (v : value) :
  forall h, h `prefix_of` fst (Store.store v h)
            /\ Store.readsAvoid everywhere (fst (Store.store v h)) (snd (Store.store v h)) v.
Proof.
  induction v as [| |b|n|s|xs IHxs|fs IHfs] using value_induction; intros h;
    try (split; [reflexivity|]; apply readsAvoid_primitive; reflexivity).
  - (* an array *)
    cbn [Store.store].
    set (go := fix go (l : list value) (h : Store.heap) : Store.heap * list Store.hvalue :=
                 match l with
                 | [] => (h, [])
                 | x :: r =>
                     let '(h1, hx) := Store.store x h in
                     let '(h2, hr) := go r h1 in (h2, hx :: hr)
                 end).
    assert (Hgo : forall h, h `prefix_of` fst (go xs h)
                            /\ Forall2 (Store.readsAvoid everywhere (fst (go xs h)))
                                 (snd (go xs h)) xs).
    { clear h. induction IHxs as [|x xs Hx _ IHl]; intros h.
      - split; [reflexivity|constructor].
      - cbn [go]. fold go. destruct (Hx h) as [Hp1 R1].
        destruct (Store.store x h) as [h1 hx]. cbn [fst snd] in Hp1, R1.
        destruct (IHl h1) as [Hp2 R2].
        destruct (go xs h1) as [h2 hr]. cbn [fst snd] in Hp2, R2 |- *.
        split; [etransitivity; eassumption|].
        constructor; [|exact R2].
        eapply readsAvoid_stable; [|exact R1]. apply StoreFacts.stable_prefix. exact Hp2. }
    destruct (Hgo h) as [Hp R]. destruct (go xs h) as [h' hxs]. cbn [fst snd] in *.
    split; [etransitivity; [exact Hp|]; apply prefix_app_r; reflexivity|].
    apply readsAvoid_array with (hxs := hxs).
    + reflexivity.
    + apply list_lookup_middle. reflexivity.
    + eapply Forall2_impl; [exact R|]. intros a b Rab.
      eapply readsAvoid_stable; [|exact Rab].
      apply StoreFacts.stable_prefix. apply prefix_app_r. reflexivity.
  - (* an object *)
    cbn [Store.store].
    set (go := fix go (l : list (string * value)) (h : Store.heap)
                   : Store.heap * list (string * Store.hvalue) :=
                 match l with
                 | [] => (h, [])
                 | (k, x) :: r =>
                     let '(h1, hx) := Store.store x h in
                     let '(h2, hr) := go r h1 in (h2, (k, hx) :: hr)
                 end).
    assert (Hgo : forall h, h `prefix_of` fst (go fs h)
                            /\ fieldsRead (Store.readsAvoid everywhere (fst (go fs h)))
                                 (snd (go fs h)) fs).
    { clear h. induction IHfs as [|[k x] fs Hx _ IHl]; intros h.
      - split; [reflexivity|constructor].
      - cbn [go]. fold go. cbn [snd] in Hx. destruct (Hx h) as [Hp1 R1].
        destruct (Store.store x h) as [h1 hx]. cbn [fst snd] in Hp1, R1.
        destruct (IHl h1) as [Hp2 R2].
        destruct (go fs h1) as [h2 hr]. cbn [fst snd] in Hp2, R2 |- *.
        split; [etransitivity; eassumption|].
        constructor; [|exact R2]. split; [reflexivity|]. cbn [snd].
        eapply readsAvoid_stable; [|exact R1]. apply StoreFacts.stable_prefix. exact Hp2. }
    destruct (Hgo h) as [Hp R]. destruct (go fs h) as [h' hfs]. cbn [fst snd] in *.
    split; [etransitivity; [exact Hp|]; apply prefix_app_r; reflexivity|].
    apply readsAvoid_object with (hfs := hfs).
    + reflexivity.
    + apply list_lookup_middle. reflexivity.
    + unfold fieldsRead in *. eapply Forall2_impl; [exact R|]. intros a b [Hab Rab].
      split; [exact Hab|]. eapply readsAvoid_stable; [|exact Rab].
      apply StoreFacts.stable_prefix. apply prefix_app_r. reflexivity.
Qed.

End Refinement.

(** C9: whatever the heap, the references and the outcome (a result, an
    exception, the recursion cut short), every object that was on the heap
    before the call is there unchanged after it: the call only adds objects,
    so the target tree and the replacement tree read exactly as before.  The
    reference it returns is that of a new object, unless it is the
    replacement (for the identifier itself) or the target (for a shadowed
    block), returned as they were given.  And when the target and the
    replacement are trees on the heap, the call ends within the fuel of the
    depth of the target and agrees with the function on trees: the same
    exception, or a reference under which the tree that function returns
    can be read. *)
Theorem C9_replaceIdentifier_mutates_no_object_it_was_given :
  (forall (fuel : nat) (name withAst inAst : Store.hvalue) (h : Store.heap),
      let h' := fst (Store.replaceIdentifier fuel name withAst inAst h) in
      h `prefix_of` h'
      /\ (forall (l : nat) (c : Store.cell), h !! l = Some c -> h' !! l = Some c)
      /\ (forall (d : nat) (t : value),
             Store.load d h inAst = Some t -> Store.load d h' inAst = Some t)
      /\ (forall (d : nat) (t : value),
             Store.load d h withAst = Some t -> Store.load d h' withAst = Some t)
      /\ (forall r : Store.hvalue,
             snd (Store.replaceIdentifier fuel name withAst inAst h) = Store.Val r ->
             r = withAst \/ r = inAst \/ r = Store.HRef (length h)))
  /\ (forall (d : nat) (name t w : value) (hname withAst inAst : Store.hvalue) (h : Store.heap),
         Store.primitive name = Some hname ->
         Store.load d h inAst = Some t ->
         Store.distinctKeys t ->
         (exists dw, Store.load dw h withAst = Some w) ->
         exists h' ho,
           Store.replaceIdentifier d hname withAst inAst h = (h', ho)
           /\ match replaceIdentifier name w t with
              | Ok r => exists hr, ho = Store.Val hr /\ exists dr, Store.load dr h' hr = Some r
              | Throw e => ho = Store.Raise e
              end).
Proof.
  split.
  - intros fuel name withAst inAst h h'.
    assert (Hp : h `prefix_of` h').
    { apply (StoreFacts.keeps_replaceIdentifier fuel h name withAst inAst h). reflexivity. }
    split; [exact Hp|]. split; [|split; [|split]].
    + intros l c Hl. exact (prefix_lookup_Some _ _ _ _ Hl Hp).
    + intros d t. apply StoreFacts.load_prefix. exact Hp.
    + intros d t. apply StoreFacts.load_prefix. exact Hp.
    + intros r Hr.
      destruct (Store.replaceIdentifier fuel name withAst inAst h) as [h2 o] eqn:E.
      cbn [snd] in Hr. subst o.
      destruct (StoreFacts.replaceIdentifier_result _ _ _ _ _ _ _ E) as [[-> _]|[[-> _]| ->]];
        auto.
  - intros d name t w hname withAst inAst h Hname Hl Hd Hw.
    destruct (Refinement.store_refines_tree name hname d Hname (fun _ => false)
                h inAst withAst t w) as (h' & ho & E & _ & A).
    + intros l Hf. discriminate.
    + exact Hl.
    + exact Hd.
    + exact Hw.
    + exists h', ho. split; [exact E|]. exact A.
Qed.

(** The worked example on the heap: [function f(x) { return x*2; }] and
    [a+1] are put on an empty heap, and [x] is replaced. *)
Lemma C9_witness :
  let h1 := fst (Store.store aPlusOne []) in
  let withAst := snd (Store.store aPlusOne []) in
  let h := fst (Store.store timesTwo h1) in
  let inAst := snd (Store.store timesTwo h1) in
  exists h' ho,
    Store.replaceIdentifier 8 (Store.HStr "x") withAst inAst h = (h', ho)
    /\ (exists hr, ho = Store.Val hr
                   /\ exists dr, Store.load dr h' hr
                                 = Some (FunctionDeclaration "f" [aPlusOne]
                                           [ReturnStatement
                                              (BinaryExpression "*" aPlusOne (NumLiteral 2))]))
    /\ Store.load 8 h' inAst = Some timesTwo
    /\ Store.load 8 h' withAst = Some aPlusOne.
Proof.
  intros h1 withAst h inAst.
  destruct (proj2 C9_replaceIdentifier_mutates_no_object_it_was_given
              8%nat (VStr "x") timesTwo aPlusOne (Store.HStr "x") withAst inAst h)
    as (h' & ho & E & A).
  - reflexivity.
  - vm_compute. reflexivity.
  - vm_compute. repeat split; repeat constructor; vm_compute; intros Hin;
      repeat (apply elem_of_cons in Hin as [Hin|Hin]; [discriminate|]);
      apply elem_of_nil in Hin; exact Hin.
  - exists 8%nat. vm_compute. reflexivity.
  - exists h', ho. split; [exact E|]. split; [exact A|].
    destruct (proj1 C9_replaceIdentifier_mutates_no_object_it_was_given
                8%nat (Store.HStr "x") withAst inAst h) as (_ & _ & Hin & Hw & _).
    rewrite E in Hin, Hw. cbn [fst] in Hin, Hw. split.
    + apply Hin. vm_compute. reflexivity.
    + apply Hw. vm_compute. reflexivity.
Defined.

(** * Further properties *)

(** ** [getExportedFunctions]: the declaration shapes one by one *)

Lemma get_throws (v : value) (k : string) (e : exn) : get v k = Throw e -> e = TypeError.
Proof. destruct v; simpl; congruence. Qed.

Lemma bind_Throw {A B} (m : res A) (k : A -> res B) (e : exn) :
  (x <- m ;; k x) = Throw e -> m = Throw e \/ exists a, m = Ok a /\ k a = Throw e.
Proof. destruct m as [a|e']; simpl; [eauto | intros E; injection E as ->; left; reflexivity]. Qed.

Lemma keepExported_assigned (functions : scope) (n : string) (e : entry) :
  exported e = true ->
  keepExported (setEntry functions (VStr n) e) = assigned (keepExported functions) n (ast e).
Proof.
  intros He. unfold assigned. destruct (String.eqb n "__proto__") eqn:E.
  - apply String.eqb_eq in E. subst n. reflexivity.
  - apply String.eqb_neq in E. rewrite (keepExported_setEntry _ _ _ E), He. reflexivity.
Qed.

Lemma keepExported_hidden (functions : scope) (n : string) (e : entry) :
  noProtoKey functions ->
  exported e = false ->
  keepExported (setEntry functions (VStr n) e) = delete n (keepExported functions).
Proof.
  intros Hf He. destruct (String.eqb n "__proto__") eqn:E.
  - apply String.eqb_eq in E. subst n. rewrite keepExported_setEntry_proto.
    symmetry. apply delete_id. exact (keepExported_noProtoKey _ Hf).
  - apply String.eqb_neq in E. rewrite (keepExported_setEntry _ _ _ E), He. reflexivity.
Qed.

(** The table after one more statement, from the walk of the statements
    before it. *)
Lemma getExportedFunctions_after (pre : list value) (functions functions' : scope)
    (node : value) :
  foldM exportStep pre ∅ = Ok functions ->
  exportStep functions node = Ok functions' ->
  getExportedFunctions (Program (pre ++ [node])) = Ok (keepExported functions').
Proof.
  intros Hpre Hnode. unfold getExportedFunctions.
  rewrite scopeOf_Program, foldM_app, Hpre. cbn [bind foldM]. rewrite Hnode. reflexivity.
Qed.

(** A statement on which the walk throws ends the resolver. *)
Lemma getExportedFunctions_raises (pre post : list value) (functions : scope)
    (node : value) (e : exn) :
  foldM exportStep pre ∅ = Ok functions ->
  exportStep functions node = Throw e ->
  getExportedFunctions (Program (pre ++ node :: post)) = Throw e.
Proof.
  intros Hpre Hnode. unfold getExportedFunctions.
  rewrite scopeOf_Program, foldM_app, Hpre. cbn [bind foldM]. rewrite Hnode. reflexivity.
Qed.

(** X1: [export function n(...) {...}] puts the declaration into the result
    under [n], in the place of whatever the statements before it had left
    there; the other names keep what they had.  The one name for which it
    does not is [__proto__]: the assignment gives the table a new prototype
    and no key, and the result is what it was. *)
Theorem X1_exported_declaration_is_recorded
    (pre : list value) (functions : scope) (dfs : list (string * value)) (id : value)
    (n : string) :
  foldM exportStep pre ∅ = Ok functions ->
  assoc "type" dfs = Some (VStr "FunctionDeclaration") ->
  assoc "id" dfs = Some id ->
  get id "name" = Ok (VStr n) ->
  getExportedFunctions (Program (pre ++ [ExportNamedDeclaration (VObj dfs)]))
  = Ok (if String.eqb n "__proto__" then keepExported functions
        else <[n := VObj dfs]> (keepExported functions)).
Proof.
  intros Hpre Hty Hid Hn.
  change (if String.eqb n "__proto__" then keepExported functions
          else <[n := VObj dfs]> (keepExported functions))
    with (assigned (keepExported functions) n (ast (newRecord functions true (VObj dfs)))).
  rewrite <- keepExported_assigned by reflexivity.
  apply (getExportedFunctions_after pre functions); [exact Hpre|].
  unfold exportStep, ExportNamedDeclaration, exportNamed. cbn -[setEntry].
  rewrite Hty. cbn -[setEntry]. rewrite Hid. cbn -[setEntry]. rewrite Hn. reflexivity.
Qed.

(** [module.exports = { f: function() {} }; export function f(x) { return x; }] *)
Lemma X1_witness :
  let old := FunctionExpression [] [] in
  let new := FunctionDeclaration "f" [Identifier "x"] [ReturnStatement (Identifier "x")] in
  exists table : gmap string value,
    getExportedFunctions
      (Program ([exportsAssignment [inPlace ("f", old)]] ++ [ExportNamedDeclaration new]))
    = Ok table
    /\ table !! "f" = Some new.
Proof.
  intros old new. eexists. split.
  - apply (X1_exported_declaration_is_recorded [exportsAssignment [inPlace ("f", old)]]
             (Scope {[ "f" := Entry true old 0 0 ]} None false 1) _ (Identifier "f") "f").
    + vm_compute. reflexivity.
    + reflexivity.
    + reflexivity.
    + reflexivity.
  - cbn [String.eqb Ascii.eqb Bool.eqb]. apply lookup_insert_eq.
Defined.

Lemma exportStep_plain (functions : scope) (fs : list (string * value)) (id : value)
    (n : string) :
  assoc "type" fs = Some (VStr "FunctionDeclaration") ->
  assoc "id" fs = Some id ->
  get id "name" = Ok (VStr n) ->
  exportStep functions (VObj fs)
  = Ok (setEntry functions (VStr n) (newRecord functions false (VObj fs))).
Proof.
  intros Hty Hid Hn. unfold exportStep, plainFunction. cbn -[setEntry].
  rewrite Hty. cbn -[setEntry]. rewrite Hid. cbn -[setEntry]. rewrite Hn. reflexivity.
Qed.

(** X2: a plain [function n(...) {...}] is recorded without the mark: [n]
    is not in the result, even when a statement before it had exported a
    function under that name. *)
Theorem X2_plain_declaration_is_not_exported
    (pre : list value) (functions : scope) (fs : list (string * value)) (id : value)
    (n : string) :
  foldM exportStep pre ∅ = Ok functions ->
  assoc "type" fs = Some (VStr "FunctionDeclaration") ->
  assoc "id" fs = Some id ->
  get id "name" = Ok (VStr n) ->
  getExportedFunctions (Program (pre ++ [VObj fs]))
  = Ok (delete n (keepExported functions)).
Proof.
  intros Hpre Hty Hid Hn.
  rewrite <- (keepExported_hidden functions n (newRecord functions false (VObj fs))
                (walk_noProtoKey _ _ Hpre) eq_refl).
  apply (getExportedFunctions_after pre functions); [exact Hpre|].
  apply (exportStep_plain functions fs id n); assumption.
Qed.

(** [module.exports = { f: function() { return 1; } }; function f() { return 2; }] *)
Lemma X2_witness :
  let exported := FunctionExpression [] [ReturnStatement (NumLiteral 1)] in
  let plain := FunctionDeclaration "f" [] [ReturnStatement (NumLiteral 2)] in
  exists table : gmap string value,
    getExportedFunctions (Program ([exportsAssignment [inPlace ("f", exported)]] ++ [plain]))
    = Ok table
    /\ table !! "f" = None.
Proof.
  intros exported plain. eexists. split.
  - apply (X2_plain_declaration_is_not_exported [exportsAssignment [inPlace ("f", exported)]]
             (Scope {[ "f" := Entry true exported 0 0 ]} None false 1) _ (Identifier "f") "f").
    + vm_compute. reflexivity.
    + reflexivity.
    + reflexivity.
    + reflexivity.
  - apply lookup_delete_eq.
Defined.

Lemma variableDeclarator_declarator (functions : scope) (d : string * value) :
  snd d <> VNull -> snd d <> VUndef ->
  noProtoKey functions ->
  exists functions',
    variableDeclarator functions (declarator d) = Ok functions'
    /\ noProtoKey functions'
    /\ keepExported functions' = withDeclarator (keepExported functions) d.
Proof.
  destruct d as [n init]. cbn [fst snd]. intros Hnull Hundef Hf.
  unfold variableDeclarator, declarator, VariableDeclarator, withDeclarator, typeOf.
  cbn [fst snd]. cbn -[strictEq setEntry].
  destruct init as [| |b|z|s|xs|ifs]; try congruence; cbn -[strictEq keepExported setEntry].
  1-4: eexists; split; [reflexivity|]; split; [exact Hf|reflexivity].
  destruct (strictEq (default VUndef (assoc "type" ifs)) (VStr "FunctionExpression")).
  - eexists. split; [reflexivity|]. split; [apply setEntry_noProtoKey; exact Hf|].
    apply keepExported_hidden; [exact Hf|reflexivity].
  - eexists. split; [reflexivity|]. split; [exact Hf|reflexivity].
Qed.

(** X3: a [var] statement whose declarators all have an initializer: a
    name initialized with a function expression is recorded without the
    mark, so it leaves the result, as a plain function declaration does; a
    name initialized with anything else changes nothing.  The declarators
    are taken left to right. *)
Theorem X3_variable_declaration_hides_function_names
    (pre : list value) (functions : scope) (ds : list (string * value)) :
  foldM exportStep pre ∅ = Ok functions ->
  Forall (fun d => snd d <> VNull /\ snd d <> VUndef) ds ->
  getExportedFunctions (Program (pre ++ [VariableDeclaration (map declarator ds)]))
  = Ok (foldl withDeclarator (keepExported functions) ds).
Proof.
  intros Hpre Hds.
  assert (Hwalk : exists functions',
             foldM variableDeclarator (map declarator ds) functions = Ok functions'
             /\ keepExported functions' = foldl withDeclarator (keepExported functions) ds).
  { pose proof (walk_noProtoKey _ _ Hpre) as Hf. clear Hpre. revert functions Hf.
    induction Hds as [|d ds [Hnull Hundef] _ IH]; intros functions Hf.
    - exists functions. split; reflexivity.
    - destruct (variableDeclarator_declarator functions d Hnull Hundef Hf)
        as (f1 & Hd & Hf1 & Hk).
      destruct (IH f1 Hf1) as (f2 & Hrest & Hk2).
      exists f2. split.
      + cbn [map foldM]. rewrite Hd. exact Hrest.
      + cbn [foldl]. rewrite <- Hk. exact Hk2. }
  destruct Hwalk as (functions' & Hwalk & <-).
  apply (getExportedFunctions_after pre functions); [exact Hpre|].
  exact Hwalk.
Qed.

(** [module.exports = { f: function() {}, g: function() {} };
    var f = function() {}, g = 1;] *)
Lemma X3_witness :
  let f := FunctionExpression [] [] in
  let g := FunctionExpression [] [ReturnStatement (NumLiteral 1)] in
  exists table : gmap string value,
    getExportedFunctions
      (Program ([exportsAssignment [inPlace ("f", f); inPlace ("g", g)]]
                ++ [VariableDeclaration
                      (map declarator [("f", FunctionExpression [] []); ("g", NumLiteral 1)])]))
    = Ok table
    /\ table !! "f" = None /\ table !! "g" = Some g.
Proof.
  intros f g. eexists. split.
  - apply (X3_variable_declaration_hides_function_names
             [exportsAssignment [inPlace ("f", f); inPlace ("g", g)]]
             (Scope (<["g" := Entry true g 1 0]> {[ "f" := Entry true f 0 0 ]}) None false 2)
             [("f", FunctionExpression [] []); ("g", NumLiteral 1)]).
    + vm_compute. reflexivity.
    + repeat constructor; discriminate.
  - vm_compute. split; reflexivity.
Defined.

Lemma variableDeclarator_throws (functions : scope) (node : value) (e : exn) :
  variableDeclarator functions node = Throw e -> e = TypeError.
Proof.
  unfold variableDeclarator. intros E.
  apply bind_Throw in E as [E|(init & _ & E)]; [exact (get_throws _ _ _ E)|].
  apply bind_Throw in E as [E|(ity & _ & E)]; [exact (get_throws _ _ _ E)|].
  destruct (strictEq ity (VStr "FunctionExpression")); [|discriminate].
  apply bind_Throw in E as [E|(id & _ & E)]; [exact (get_throws _ _ _ E)|].
  apply bind_Throw in E as [E|(n & _ & E)]; [exact (get_throws _ _ _ E)|].
  discriminate.
Qed.

Lemma foldM_variableDeclarator_null (ds : list value) (functions : scope) :
  Exists (fun d => get d "init" = Ok VNull) ds ->
  foldM variableDeclarator ds functions = Throw TypeError.
Proof.
  intros Hex. revert functions.
  induction Hex as [d ds Hd|d ds _ IH]; intros functions; cbn [foldM].
  - unfold variableDeclarator at 1. rewrite Hd. reflexivity.
  - destruct (variableDeclarator functions d) as [f1|e] eqn:E; cbn [bind].
    + apply IH.
    + rewrite (variableDeclarator_throws _ _ _ E). reflexivity.
Qed.

(** X4: a [var] statement at the top level of the module with a declarator
    that has no initializer ([var x;]) makes the resolver throw: the type
    of the initializer is read without a test that there is one.  Whatever
    stands before or after the statement, no table is returned. *)
Theorem X4_declarator_without_initializer_throws
    (pre post : list value) (functions : scope) (ds : list value) :
  foldM exportStep pre ∅ = Ok functions ->
  Exists (fun d => get d "init" = Ok VNull) ds ->
  getExportedFunctions (Program (pre ++ VariableDeclaration ds :: post)) = Throw TypeError.
Proof.
  intros Hpre Hex.
  apply (getExportedFunctions_raises pre post functions); [exact Hpre|].
  unfold exportStep, VariableDeclaration. cbn.
  apply foldM_variableDeclarator_null. exact Hex.
Qed.

Lemma X4_witness :
  getExportedFunctions
    (Program ([ExportNamedDeclaration (FunctionDeclaration "f" [] [])]
              ++ VariableDeclaration [VariableDeclarator (Identifier "x") VNull] :: []))
  = Throw TypeError.
Proof.
  apply (X4_declarator_without_initializer_throws
           [ExportNamedDeclaration (FunctionDeclaration "f" [] [])] []
           (Scope {[ "f" := Entry true (FunctionDeclaration "f" [] []) 0 0 ]} None false 1)).
  - vm_compute. reflexivity.
  - apply Exists_cons_hd. reflexivity.
Defined.

(** X5: an export statement without a declaration (an export list,
    [export { a, b }], whose [declaration] is [null]) makes the resolver
    throw: the type of the declaration is read without a test that there is
    one. *)
Theorem X5_export_without_declaration_throws
    (pre post : list value) (functions : scope) (fs : list (string * value)) :
  foldM exportStep pre ∅ = Ok functions ->
  assoc "type" fs = Some (VStr "ExportNamedDeclaration") ->
  assoc "declaration" fs = Some VNull ->
  getExportedFunctions (Program (pre ++ VObj fs :: post)) = Throw TypeError.
Proof.
  intros Hpre Hty Hd.
  apply (getExportedFunctions_raises pre post functions); [exact Hpre|].
  unfold exportStep, exportNamed. cbn. rewrite Hty. cbn. rewrite Hd. reflexivity.
Qed.

Lemma X5_witness :
  getExportedFunctions
    (Program ([FunctionDeclaration "a" [] []]
              ++ VObj [("type", VStr "ExportNamedDeclaration"); ("declaration", VNull);
                       ("specifiers",
                        VArr [VObj [("type", VStr "ExportSpecifier");
                                    ("exported", Identifier "a"); ("local", Identifier "a")]]);
                       ("source", VNull)] :: []))
  = Throw TypeError.
Proof.
  apply (X5_export_without_declaration_throws [FunctionDeclaration "a" [] []] []
           (Scope {[ "a" := Entry false (FunctionDeclaration "a" [] []) 0 0 ]} None false 1)).
  - vm_compute. reflexivity.
  - reflexivity.
  - reflexivity.
Defined.

Lemma classMember_method (functions : scope) (m : string * value * bool) :
  exists functions',
    classMember functions (method m) = Ok functions'
    /\ keepExported functions' = withMethod (keepExported functions) m.
Proof.
  destruct m as [[n v] s]. unfold classMember, method, MethodDefinition, withMethod.
  cbn [fst snd]. cbn -[keepExported setEntry].
  destruct s; cbn -[keepExported setEntry].
  - eexists. split; [reflexivity|]. apply keepExported_assigned. reflexivity.
  - eexists. split; reflexivity.
Qed.

(** X6: [export default class { ... }]: every static method is in the
    result under its name, with its function as the tree, a later one
    replacing an earlier one of the same name; the methods that are not
    static add nothing, and neither does a static method named
    [__proto__], which becomes the prototype of the table and no key of
    it. *)
Theorem X6_default_class_exports_its_static_methods
    (pre : list value) (functions : scope) (id : value)
    (ms : list (string * value * bool)) :
  foldM exportStep pre ∅ = Ok functions ->
  getExportedFunctions
    (Program (pre ++ [ExportDefaultDeclaration (ClassDeclaration id (map method ms))]))
  = Ok (foldl withMethod (keepExported functions) ms).
Proof.
  intros Hpre.
  assert (Hwalk : exists functions',
             foldM classMember (map method ms) functions = Ok functions'
             /\ keepExported functions' = foldl withMethod (keepExported functions) ms).
  { clear Hpre. revert functions.
    induction ms as [|m ms IH]; intros functions.
    - exists functions. split; reflexivity.
    - destruct (classMember_method functions m) as (f1 & Hm & Hk).
      destruct (IH f1) as (f2 & Hrest & Hk2).
      exists f2. split.
      + cbn [map foldM]. rewrite Hm. exact Hrest.
      + cbn [foldl]. rewrite <- Hk. exact Hk2. }
  destruct Hwalk as (functions' & Hwalk & <-).
  apply (getExportedFunctions_after pre functions); [exact Hpre|].
  exact Hwalk.
Qed.

(** [export default class {
      static twice(x) { return x * 2; }  helper() {}  static __proto__() {} }] *)
Lemma X6_witness :
  let twice := FunctionExpression [Identifier "x"]
                 [ReturnStatement (BinaryExpression "*" (Identifier "x") (NumLiteral 2))] in
  let other := FunctionExpression [] [] in
  exists table : gmap string value,
    getExportedFunctions
      (Program ([] ++ [ExportDefaultDeclaration
                         (ClassDeclaration VNull
                            (map method [("twice", twice, true); ("helper", other, false);
                                         ("__proto__", other, true)]))]))
    = Ok table
    /\ table !! "twice" = Some twice /\ table !! "helper" = None
    /\ table !! "__proto__" = None.
Proof.
  intros twice other. eexists. split.
  - apply (X6_default_class_exports_its_static_methods [] ∅ VNull
             [("twice", twice, true); ("helper", other, false); ("__proto__", other, true)]).
    reflexivity.
  - vm_compute. repeat split; reflexivity.
Defined.

Lemma bagProperty_inPlace (functions : scope) (p : string * value) :
  typeOf (snd p) = VStr "FunctionExpression" ->
  exists functions',
    bagProperty functions (inPlace p) = Ok functions'
    /\ keepExported functions' = withInPlace (keepExported functions) p.
Proof.
  destruct p as [k fn]. cbn [fst snd]. intros Hty.
  destruct fn as [| |b|z|s|xs|ffs]; try discriminate Hty.
  unfold typeOf in Hty. cbn [get] in Hty.
  unfold bagProperty, inPlace, Property, withInPlace. cbn [fst snd].
  cbn -[keepExported setEntry]. rewrite Hty. cbn -[keepExported setEntry].
  eexists. split; [reflexivity|]. apply keepExported_assigned. reflexivity.
Qed.

(** X7: [module.exports = { k1: function(...) {...}, ... }]: every
    function expression written in place is in the result under its key,
    with the expression as the tree, a later one replacing an earlier one of
    the same key.  The key [__proto__] is the exception: the expression
    becomes the prototype of the table and the result stays as it was. *)
Theorem X7_bag_exports_functions_written_in_place
    (pre : list value) (functions : scope) (ps : list (string * value)) :
  foldM exportStep pre ∅ = Ok functions ->
  Forall (fun p => typeOf (snd p) = VStr "FunctionExpression") ps ->
  getExportedFunctions (Program (pre ++ [exportsAssignment (map inPlace ps)]))
  = Ok (foldl withInPlace (keepExported functions) ps).
Proof.
  intros Hpre Hps.
  assert (Hwalk : exists functions',
             foldM bagProperty (map inPlace ps) functions = Ok functions'
             /\ keepExported functions' = foldl withInPlace (keepExported functions) ps).
  { clear Hpre. revert functions.
    induction Hps as [|p ps Hp _ IH]; intros functions.
    - exists functions. split; reflexivity.
    - destruct (bagProperty_inPlace functions p Hp) as (f1 & Hm & Hk).
      destruct (IH f1) as (f2 & Hrest & Hk2).
      exists f2. split.
      + cbn [map foldM]. rewrite Hm. exact Hrest.
      + cbn [foldl]. rewrite <- Hk. exact Hk2. }
  destruct Hwalk as (functions' & Hwalk & <-).
  apply (getExportedFunctions_after pre functions); [exact Hpre|].
  rewrite exportStep_exportsAssignment. exact Hwalk.
Qed.

(** [module.exports = { f: function() { return 1; }, g: function() { return 2; },
                        __proto__: function() { return 1; } }] *)
Lemma X7_witness :
  let one := FunctionExpression [] [ReturnStatement (NumLiteral 1)] in
  let two := FunctionExpression [] [ReturnStatement (NumLiteral 2)] in
  exists table : gmap string value,
    getExportedFunctions
      (Program ([] ++ [exportsAssignment
                         (map inPlace [("f", one); ("g", two); ("__proto__", one)])]))
    = Ok table
    /\ table !! "f" = Some one /\ table !! "g" = Some two /\ table !! "__proto__" = None.
Proof.
  intros one two. eexists. split.
  - apply (X7_bag_exports_functions_written_in_place [] ∅
             [("f", one); ("g", two); ("__proto__", one)]).
    + reflexivity.
    + repeat constructor.
  - vm_compute. repeat split; reflexivity.
Defined.

Lemma visible_own (functions : scope) (k : string) :
  visible functions k = false -> own functions !! k = None.
Proof.
  unfold visible, readKey. destruct (own functions !! k); [discriminate|reflexivity].
Qed.

(** X8: the bag is read where it stands.  A property [key: f] whose [f] the
    table does not answer to, as no statement before it has recorded it and
    it is no member that the table inherits, adds nothing, and a declaration
    of [f] after it is a plain one: with [module.exports = { key: f }] in
    front of [function f(...) {...}] neither [key] nor [f] is in the
    result. *)
Theorem X8_reference_before_declaration_is_not_exported
    (pre : list value) (functions : scope) (f key : string) (sh : bool)
    (params stmts : list value) :
  foldM exportStep pre ∅ = Ok functions ->
  visible functions f = false ->
  getExportedFunctions
    (Program ((pre ++ [exportsAssignment [Property (Identifier key) (Identifier f) sh]])
              ++ [FunctionDeclaration f params stmts]))
  = Ok (keepExported functions).
Proof.
  intros Hpre Hf.
  assert (Hbag : foldM exportStep
                   (pre ++ [exportsAssignment [Property (Identifier key) (Identifier f) sh]]) ∅
                 = Ok functions).
  { rewrite foldM_app, Hpre. cbn [bind foldM].
    rewrite exportStep_exportsAssignment. cbn [foldM].
    unfold bagProperty, Property, Identifier. cbn -[readKey setEntry markExported].
    unfold visible in Hf. rewrite Hf. reflexivity. }
  rewrite (getExportedFunctions_after _ functions
             (setEntry functions (VStr f)
                (newRecord functions false (FunctionDeclaration f params stmts))) _ Hbag).
  - rewrite (keepExported_hidden functions f
               (newRecord functions false (FunctionDeclaration f params stmts))
               (walk_noProtoKey _ _ Hpre) eq_refl).
    f_equal. apply delete_id.
    unfold keepExported. rewrite lookup_omap, (visible_own _ _ Hf). reflexivity.
  - apply (exportStep_plain functions _ (Identifier f) f); reflexivity.
Qed.

Lemma X8_witness :
  getExportedFunctions
    (Program (([] ++ [exportsAssignment [Property (Identifier "f") (Identifier "f") true]])
              ++ [FunctionDeclaration "f" [] [ReturnStatement (NumLiteral 1)]]))
  = Ok (keepExported ∅)
  /\ keepExported ∅ = (∅ : gmap string value).
Proof.
  split.
  - apply (X8_reference_before_declaration_is_not_exported [] ∅ "f" "f" true []
             [ReturnStatement (NumLiteral 1)]); reflexivity.
  - apply omap_empty.
Defined.

(** ** [loadModuleContents] *)

Section Reading.
Variable read : string -> option string.

Local Abbreviation step := (firstRead read).

Lemma fold_left_found (l : list string) (c : string) :
  fold_left step l (Some c) = Some c.
Proof. induction l as [|x l IH]; [reflexivity|exact IH]. Qed.

Lemma fold_left_first (l : list string) (c : string) :
  fold_left step l None = Some c
  <-> exists (i : nat) (x : string),
        l !! i = Some x /\ read x = Some c
        /\ forall (j : nat) (y : string), (j < i)%nat -> l !! j = Some y -> read y = None.
Proof.
  induction l as [|x l IH]; cbn [fold_left].
  - split; [discriminate|]. intros (i & y & Hi & _). rewrite lookup_nil in Hi. discriminate.
  - unfold firstRead at 2. destruct (read x) as [c0|] eqn:Ex.
    + rewrite fold_left_found. split.
      * intros E. injection E as <-. exists 0%nat, x. split; [reflexivity|].
        split; [exact Ex|]. intros j y Hj. lia.
      * intros ([|i] & y & Hi & Hy & Hbefore).
        -- cbn in Hi. injection Hi as <-. congruence.
        -- rewrite (Hbefore 0%nat x) in Ex; [discriminate|lia|reflexivity].
    + rewrite IH. split.
      * intros (i & y & Hi & Hy & Hbefore). exists (S i), y. split; [exact Hi|].
        split; [exact Hy|]. intros [|j] z Hj Hz.
        -- cbn in Hz. injection Hz as <-. exact Ex.
        -- apply (Hbefore j z); [lia|exact Hz].
      * intros ([|i] & y & Hi & Hy & Hbefore).
        -- cbn in Hi. injection Hi as <-. congruence.
        -- exists i, y. split; [exact Hi|]. split; [exact Hy|].
           intros j z Hj Hz. apply (Hbefore (S j) z); [lia|exact Hz].
Qed.

Lemma fold_left_none (l : list string) :
  fold_left step l None = None <-> Forall (fun x => read x = None) l.
Proof.
  induction l as [|x l IH]; cbn [fold_left].
  - split; [constructor|reflexivity].
  - unfold firstRead at 2. destruct (read x) as [c0|] eqn:Ex.
    + rewrite fold_left_found. split; [discriminate|].
      intros F. inversion F; congruence.
    + rewrite IH. split.
      * intros F. constructor; assumption.
      * intros F. inversion F; assumption.
Qed.
End Reading.

Lemma loadModuleContents_fold (H : host) (modulePath : string) :
  loadModuleContents H modulePath
  = fold_left (firstRead (fun ext => fs_readFileSync H (modulePath ++ ext)))
      (extensions H) None.
Proof. reflexivity. Qed.

(** X9: [loadModuleContents] answers with what it reads under the first
    extension, in the order of the list, under which the file can be read;
    the extensions after it are not looked at.  It answers [null] exactly
    when the file can be read under none of them. *)
Theorem X9_loadModuleContents_first_readable (H : host) (modulePath : string) :
  (forall contents : string,
      loadModuleContents H modulePath = Some contents
      <-> exists (i : nat) (ext : string),
            extensions H !! i = Some ext
            /\ fs_readFileSync H (modulePath ++ ext) = Some contents
            /\ forall (j : nat) (ext' : string),
                 (j < i)%nat -> extensions H !! j = Some ext' ->
                 fs_readFileSync H (modulePath ++ ext') = None)
  /\ (loadModuleContents H modulePath = None
      <-> Forall (fun ext => fs_readFileSync H (modulePath ++ ext) = None) (extensions H)).
Proof.
  rewrite loadModuleContents_fold. split.
  - intros contents.
    apply (fold_left_first (fun ext => fs_readFileSync H (modulePath ++ ext))).
  - apply (fold_left_none (fun ext => fs_readFileSync H (modulePath ++ ext))).
Qed.

Lemma append_empty (s : string) : s ++ "" = s.
Proof.
  induction s as [|c s IH]; [reflexivity|].
  change (String c (s ++ "") = String c s). rewrite IH. reflexivity.
Qed.

(** X10: without configured extensions the file is looked for under the
    path as it is and then under the path with [.js]; a file of the exact
    name wins over the one with the extension. *)
Theorem X10_loadModuleContents_default_extensions (H : host) (modulePath : string) :
  resolve_extensions H = None ->
  loadModuleContents H modulePath
  = match fs_readFileSync H modulePath with
    | Some contents => Some contents
    | None => fs_readFileSync H (modulePath ++ ".js")
    end.
Proof.
  intros Hext. unfold loadModuleContents. rewrite Hext. cbn.
  rewrite append_empty. destruct (fs_readFileSync H modulePath); reflexivity.
Qed.

Lemma X10_witness :
  let H := exampleHost [("/src/m.js", "with the extension"); ("/src/m", "exact")] [] in
  loadModuleContents H "/src/m" = Some "exact"
  /\ loadModuleContents H "/src/n" = None.
Proof.
  intros H. split.
  - rewrite (X10_loadModuleContents_default_extensions H "/src/m" eq_refl). reflexivity.
  - rewrite (X10_loadModuleContents_default_extensions H "/src/n" eq_refl). reflexivity.
Defined.

(** X11: an empty list of configured extensions is a list all the same
    (an empty array is truthy, so the default list is not taken): nothing is
    read, no module is found, and [js-inline-loader.js] answers every site
    with the diagnostic and the placeholder of a missing module, whatever
    files there are. *)
Theorem X11_no_extension_no_module (H : host) (gModule : string) (gFunction fnArgs : value)
    (st : loaderState) :
  resolve_extensions H = Some [] ->
  (forall modulePath : string, loadModuleContents H modulePath = None)
  /\ JsInlineLoader.getFunctionCode H (VStr gModule) gFunction fnArgs st
     = (withError st ("Could not find module `" ++ gModule ++ "`"),
        Ok ("/* Missing module " ++ gModule ++ " */")).
Proof.
  intros Hext.
  assert (Hnone : forall modulePath : string, loadModuleContents H modulePath = None).
  { intros modulePath. unfold loadModuleContents. rewrite Hext. reflexivity. }
  split; [exact Hnone|].
  apply JsInlineLoader_missing_module. apply Hnone.
Qed.

Lemma X11_witness :
  let H := Host (fun _ _ => Ok (Program [])) (fun _ => Ok "") (fun _ => Some "a file")
             (fun ctx f => ctx ++ "/" ++ f) "/src" (Some []) in
  JsInlineLoader.getFunctionCode H (VStr "m") (VStr "f") (VArr []) initialState
  = (LoaderState ["Could not find module `m`"] [] false [], Ok "/* Missing module m */").
Proof.
  intros H.
  exact (proj2 (X11_no_extension_no_module H "m" (VStr "f") (VArr []) initialState eq_refl)).
Defined.

(** ** [findInlineToken] *)

Lemma firstFound_app {A} (f : A -> res value) (l1 l2 : list A) :
  JsInlineLoader.firstFound f (l1 ++ l2)%list
  = (ans <- JsInlineLoader.firstFound f l1 ;;
     if truthy ans then Ok ans else JsInlineLoader.firstFound f l2).
Proof.
  induction l1 as [|x l1 IH]; cbn [JsInlineLoader.firstFound app bind truthy].
  - reflexivity.
  - destruct (f x) as [ans|e]; cbn [bind]; [|reflexivity].
    destruct (truthy ans) eqn:E; [cbn [bind]; rewrite E; reflexivity|exact IH].
Qed.

(** The principle of induction the search needs: it looks at the elements
    of an array that is the value of a key, so what holds of them is at hand
    for the value. *)
Lemma value_induction_elements (P : value -> Prop) :
  P VUndef -> P VNull -> (forall b, P (VBool b)) -> (forall n, P (VNum n)) ->
  (forall s, P (VStr s)) ->
  (forall xs,
      Forall (fun v => P v /\ forall ys, v = VArr ys -> Forall P ys) xs -> P (VArr xs)) ->
  (forall fs,
      Forall (fun kv => P (snd kv) /\ forall ys, snd kv = VArr ys -> Forall P ys) fs ->
      P (VObj fs)) ->
  forall v, P v.
Proof.
  intros HU HN HB HZ HS HA HO v.
  assert (Q : P v /\ forall ys, v = VArr ys -> Forall P ys); [|exact (proj1 Q)].
  induction v as [| |b|n|s|xs IH|fs IH] using Refinement.value_induction;
    try (split; [auto|discriminate]).
  - split.
    + apply HA. exact IH.
    + intros ys E. injection E as <-. eapply Forall_impl; [exact IH|].
      intros v Hv. exact (proj1 Hv).
Qed.

Lemma firstFound_flat_map {A} (f : A -> res value) (g : A -> list value) (l : list A) :
  (forall x, In x l -> f x = JsInlineLoader.firstFound visit (g x)) ->
  JsInlineLoader.firstFound f l = JsInlineLoader.firstFound visit (flat_map g l).
Proof.
  induction l as [|x l IH]; intros Hf; cbn [JsInlineLoader.firstFound flat_map].
  - reflexivity.
  - rewrite firstFound_app, (Hf x) by (left; reflexivity).
    destruct (JsInlineLoader.firstFound visit (g x)) as [ans|e]; cbn [bind]; [|reflexivity].
    destruct (truthy ans); [reflexivity|].
    apply IH. intros y Hy. apply Hf. right. exact Hy.
Qed.

Lemma searchKeys_firstFound (f : value -> res value) (fs : list (string * value)) :
  JsInlineLoader.searchKeys f fs = JsInlineLoader.firstFound (fun kv => f (snd kv)) fs.
Proof.
  induction fs as [|[k v] fs IH]; cbn [JsInlineLoader.searchKeys JsInlineLoader.firstFound snd].
  - reflexivity.
  - destruct (f v) as [ans|e]; cbn [bind]; [|reflexivity].
    destruct (truthy ans); [reflexivity|exact IH].
Qed.

Lemma searchValue_below (v : value) :
  (forall fs, v = VObj fs ->
     JsInlineLoader.findInlineToken v = JsInlineLoader.firstFound visit (entries v)) ->
  (forall ys, v = VArr ys ->
     Forall (fun y => JsInlineLoader.findInlineToken y
                      = JsInlineLoader.firstFound visit (entries y)) ys) ->
  JsInlineLoader.searchValue JsInlineLoader.findInlineToken v
  = JsInlineLoader.firstFound visit (below entries v).
Proof.
  intros Hobj Harr. destruct v as [| |b|n|s|ys|fs]; try reflexivity.
  - cbn [JsInlineLoader.searchValue below].
    apply firstFound_flat_map. intros y Hy.
    destruct (JsInlineLoader.typeofObject y); [|reflexivity].
    specialize (Harr ys eq_refl). rewrite Forall_forall in Harr.
    apply Harr. apply list_elem_of_In. exact Hy.
  - cbn [JsInlineLoader.searchValue below]. apply (Hobj fs). reflexivity.
Qed.

(** The search is a scan of the flattened tree. *)
Lemma findInlineToken_scan (ast : value) :
  JsInlineLoader.findInlineToken ast = JsInlineLoader.firstFound visit (entries ast).
Proof.
  induction ast as [| |b|n|s|xs IH|fs IH] using value_induction_elements;
    try reflexivity.
  - (* an array *)
    cbn [JsInlineLoader.findInlineToken entries JsInlineLoader.firstFound visit bind truthy].
    apply firstFound_flat_map. intros v Hv.
    rewrite Forall_forall in IH. apply list_elem_of_In in Hv.
    destruct (IH v Hv) as [Hself Helems].
    apply searchValue_below; [intros; exact Hself|exact Helems].
  - (* an object *)
    cbn [JsInlineLoader.findInlineToken entries JsInlineLoader.firstFound visit].
    destruct (JsInlineLoader.isMagicCall fs) as [[|]|e]; cbn [bind truthy]; try reflexivity.
    rewrite searchKeys_firstFound.
    apply firstFound_flat_map. intros kv Hkv.
    rewrite Forall_forall in IH. apply list_elem_of_In in Hkv.
    destruct (IH kv Hkv) as [Hself Helems].
    apply searchValue_below; [intros; exact Hself|exact Helems].
Qed.

Lemma isMagicCall_throws (fs : list (string * value)) (e : exn) :
  JsInlineLoader.isMagicCall fs = Throw e -> e = TypeError.
Proof.
  unfold JsInlineLoader.isMagicCall.
  destruct (strictEq (default VUndef (assoc "type" fs)) (VStr "CallExpression"));
    [|discriminate].
  intros E. apply bind_Throw in E as [E|(n & _ & E)]; [exact (get_throws _ _ _ E)|discriminate].
Qed.

Lemma visit_cases (n : value) :
  match visit n with
  | Ok t => (t = VNull /\ isInlineCall n = false) \/ (t = n /\ isInlineCall n = true)
  | Throw e => e = TypeError /\ isInlineCall n = false
  end.
Proof.
  destruct n as [| |b|z|s|xs|fs]; cbn [visit isInlineCall]; auto.
  destruct (JsInlineLoader.isMagicCall fs) as [[|]|e] eqn:E; cbn [bind]; auto.
  split; [exact (isMagicCall_throws _ _ E)|reflexivity].
Qed.

Lemma isInlineCall_truthy (n : value) : isInlineCall n = true -> truthy n = true.
Proof. destruct n; cbn; congruence. Qed.

Lemma firstFound_visit (l : list value) :
  match JsInlineLoader.firstFound visit l with
  | Ok t =>
      (t = VNull /\ Forall passed l)
      \/ (isInlineCall t = true
          /\ exists seen rest, l = (seen ++ t :: rest)%list /\ Forall passed seen)
  | Throw e =>
      e = TypeError
      /\ exists seen n rest,
           l = (seen ++ n :: rest)%list /\ Forall passed seen /\ visit n = Throw TypeError
  end.
Proof.
  induction l as [|n l IH]; cbn [JsInlineLoader.firstFound].
  - left. split; [reflexivity|constructor].
  - pose proof (visit_cases n) as Hn.
    destruct (visit n) as [ans|e] eqn:E; cbn [bind].
    + destruct Hn as [[-> Hcall]|[-> Hcall]].
      * cbn [truthy].
        destruct (JsInlineLoader.firstFound visit l) as [t|e'].
        -- destruct IH as [[-> Hall]|(Ht & seen & rest & -> & Hseen)].
           ++ left. split; [reflexivity|]. constructor; assumption.
           ++ right. split; [exact Ht|]. exists (n :: seen), rest.
              split; [reflexivity|]. constructor; assumption.
        -- destruct IH as (-> & seen & m & rest & -> & Hseen & Hm).
           split; [reflexivity|]. exists (n :: seen), m, rest.
           split; [reflexivity|]. split; [constructor; assumption|exact Hm].
      * rewrite (isInlineCall_truthy n Hcall).
        right. split; [exact Hcall|]. exists [], l. split; [reflexivity|constructor].
    + destruct Hn as [-> _]. split; [reflexivity|].
      exists [], n, l. split; [reflexivity|]. split; [constructor|exact E].
Qed.

(** X12: [findInlineToken] answers in document order.  Among the values a
    full search would call it on, the value itself first and then what lies
    below it key by key and element by element, its answer is the first that
    is a call of the synthetic function, every value before it having been
    passed over; it is [null] when all of them are passed over; and when it
    throws it is at a value ([null] in an array, or a call without a callee)
    that comes before any such call. *)
Theorem X12_findInlineToken_answers_in_document_order (ast : value) :
  match JsInlineLoader.findInlineToken ast with
  | Ok t =>
      (t = VNull /\ Forall passed (entries ast))
      \/ (isInlineCall t = true
          /\ exists seen rest,
               entries ast = (seen ++ t :: rest)%list /\ Forall passed seen)
  | Throw e =>
      e = TypeError
      /\ exists seen n rest,
           entries ast = (seen ++ n :: rest)%list
           /\ Forall passed seen /\ visit n = Throw TypeError
  end.
Proof. rewrite findInlineToken_scan. apply firstFound_visit. Qed.

(** Two sites in one statement list: the answer is the first. *)
Example findInlineToken_takes_the_first_call :
  let first := magicCall 0 33 [StrLiteral "m"; Identifier "f"] in
  let second := magicCall 35 68 [StrLiteral "m"; Identifier "g"] in
  JsInlineLoader.findInlineToken
    (Program [VariableDeclaration [VariableDeclarator (Identifier "a") (NumLiteral 1)];
              ExpressionStatement first; ExpressionStatement second])
  = Ok first.
Proof. reflexivity. Qed.

Lemma firstFound_visit_hole (l : list value) :
  In VNull l -> existsb isInlineCall l = false ->
  JsInlineLoader.firstFound visit l = Throw TypeError.
Proof.
  induction l as [|n l IH]; intros Hin Hno; [destruct Hin|].
  cbn [existsb] in Hno. apply orb_false_iff in Hno as [Hn Hl].
  cbn [JsInlineLoader.firstFound].
  pose proof (visit_cases n) as Hc.
  destruct (visit n) as [ans|e] eqn:E; cbn [bind].
  - destruct Hc as [[-> _]|[_ Hcall]]; [|congruence].
    cbn [truthy]. destruct Hin as [->|Hin]; [discriminate E|].
    apply IH; assumption.
  - destruct Hc as [-> _]. reflexivity.
Qed.

(** X13: [typeof null] is ['object'], so the search calls itself on a
    [null] element of an array (the hole of [[a, , b]]) and the read of its
    type throws.  On a text whose tree has such an element and no call of
    the synthetic function, the search throws instead of answering [null],
    and the loop of the transform with it: nothing is returned and nothing
    is reported. *)
Theorem X13_hole_in_an_array_raises (H : host) (fuel : nat) (source : string) (ast : value)
    (st : loaderState) :
  esprima_parse H (Some source) moduleRangeOptions = Ok ast ->
  In VNull (entries ast) ->
  existsb isInlineCall (entries ast) = false ->
  JsInlineLoader.findInlineToken ast = Throw TypeError
  /\ JsInlineLoader.replaceInlineFunc H (S fuel) source st = (st, Throw TypeError).
Proof.
  intros Hparse Hhole Hno.
  assert (Hfind : JsInlineLoader.findInlineToken ast = Throw TypeError).
  { rewrite findInlineToken_scan. apply firstFound_visit_hole; assumption. }
  split; [exact Hfind|].
  cbn [JsInlineLoader.replaceInlineFunc]. rewrite Hparse.
  unfold iobind, lift. rewrite Hfind. reflexivity.
Qed.

Lemma X13_witness :
  let ast := Program [ExpressionStatement
                        (ArrayExpression [NumLiteral 1; VNull; NumLiteral 2])] in
  let H := exampleHost [] [("[1, , 2];", ast)] in
  JsInlineLoader.findInlineToken ast = Throw TypeError
  /\ JsInlineLoader.replaceInlineFunc H 1 "[1, , 2];" initialState
     = (initialState, Throw TypeError).
Proof.
  intros ast H.
  apply (X13_hole_in_an_array_raises H 0 "[1, , 2];" ast initialState).
  - reflexivity.
  - vm_compute. tauto.
  - reflexivity.
Defined.

(** ** The loop of [replaceInlineFunc] *)

(** X14: the loop ends when the text it works on parses and has no call of
    the synthetic function left: after [n] rounds that each spliced an
    answer, the transform returns the text of the last round, with what the
    rounds reported and registered, and adds nothing of its own. *)
Theorem X14_loop_returns_the_text_without_calls
    (H : host) (n fuel : nat) (source text : string) (ast : value) (st st' : loaderState) :
  JsInlineLoader.hasMatch (segments JsInlineLoader.MACRO None source 0) = true ->
  nsteps (round H) n
    (normalized (segments JsInlineLoader.MACRO None source 0),
     LoaderState (errors st) (dependencies st) true (consoleOut st))
    (text, st') ->
  esprima_parse H (Some text) moduleRangeOptions = Ok ast ->
  JsInlineLoader.findInlineToken ast = Ok VNull ->
  JsInlineLoader.module_exports H (n + S fuel) source st = (st', Ok (Some text)).
Proof.
  intros Hm Hn Hp Hnone.
  rewrite (module_exports_with_macros H _ source st Hm).
  pose proof (replaceInlineFunc_rounds H n (S fuel) _ _ Hn) as Hr.
  cbn [fst snd] in Hr. rewrite Hr.
  cbn [JsInlineLoader.replaceInlineFunc]. rewrite Hp.
  unfold iobind, lift. rewrite Hnone. reflexivity.
Qed.

Lemma X14_witness :
  JsInlineLoader.module_exports demoHost 2 "%inline('m').f(1, 2);" initialState
  = (LoaderState [] ["/src/m"] true [], Ok (Some "1 + 2 + c;")).
Proof.
  apply (X14_loop_returns_the_text_without_calls demoHost 1 0
           "%inline('m').f(1, 2);" "1 + 2 + c;"
           (Program [ExpressionStatement
                       (BinaryExpression "+"
                          (BinaryExpression "+" (NumLiteral 1) (NumLiteral 2))
                          (Identifier "c"))])
           initialState (LoaderState [] ["/src/m"] true [])).
  - vm_compute. reflexivity.
  - apply nsteps_once.
    assert (Hround :
      round demoHost
        ("___js_inline_loader_inline('m',f,1, 2);", LoaderState [] [] true [])
        (JsInlineLoader.substringTo "___js_inline_loader_inline('m',f,1, 2);" (VNum 0)
         ++ "1 + 2 + c"
         ++ JsInlineLoader.substringFrom "___js_inline_loader_inline('m',f,1, 2);" (VNum 38),
         LoaderState [] ["/src/m"] true [])).
    { eapply round_intro.
      - vm_compute. reflexivity.
      - vm_compute. reflexivity.
      - reflexivity.
      - reflexivity.
      - reflexivity.
      - reflexivity.
      - reflexivity.
      - reflexivity.
      - reflexivity.
      - vm_compute. reflexivity.
      - reflexivity.
      - reflexivity.
      - reflexivity. }
    exact Hround.
  - reflexivity.
  - reflexivity.
Defined.

Lemma round_step (H : host) (fuel : nat) (source text : string) (st st' : loaderState) :
  round H (source, st) (text, st') ->
  JsInlineLoader.replaceInlineFunc H (S fuel) source st
  = JsInlineLoader.replaceInlineFunc H fuel text st'.
Proof.
  intros R. inversion R; subst. eapply JsInlineLoader_round; eassumption.
Qed.

(** X15: the loop has no bound.  When the answer spliced for a site gives
    the very text the round started from (a function whose body is a call
    of the synthetic function on itself does), every round finds the same
    site again: whatever the number of rounds allowed, no text is
    returned. *)
Theorem X15_site_that_reproduces_itself_never_ends (H : host) (source : string) :
  (forall st, exists st', round H (source, st) (source, st')) ->
  forall (fuel : nat) (st : loaderState),
    snd (JsInlineLoader.replaceInlineFunc H fuel source st) = Ok None.
Proof.
  intros Hround fuel. induction fuel as [|fuel IH]; intros st; [reflexivity|].
  destruct (Hround st) as (st' & R).
  rewrite (round_step H fuel source source st st' R). apply IH.
Qed.

Lemma X15_witness :
  snd (JsInlineLoader.replaceInlineFunc selfHost 1000 selfSite initialState) = Ok None.
Proof.
  apply (X15_site_that_reproduces_itself_never_ends selfHost selfSite).
  intros st. exists (withDependency st "/src/m").
  assert (Hround :
    round selfHost (selfSite, st)
      (JsInlineLoader.substringTo selfSite (VNum 0)
       ++ "___js_inline_loader_inline('m', f)"
       ++ JsInlineLoader.substringFrom selfSite (VNum 34),
       withDependency st "/src/m")).
  { eapply round_intro.
    - vm_compute. reflexivity.
    - vm_compute. reflexivity.
    - reflexivity.
    - reflexivity.
    - reflexivity.
    - reflexivity.
    - reflexivity.
    - reflexivity.
    - reflexivity.
    - vm_compute. reflexivity.
    - reflexivity.
    - reflexivity.
    - reflexivity. }
  exact Hround.
Defined.

(** ** The two patterns need a percent sign *)

Section NoPercent.
Context {R : Type}.

Lemma starGreedy_clean (p : ascii -> bool) (k : cursor -> option R) :
  (forall cur, clean cur -> k cur = None) ->
  forall (s : string) (cur : cursor),
    hasPercent s = false -> clean cur -> starGreedy p k s cur = None.
Proof.
  intros Hk s. induction s as [|c t IH]; intros cur Hs Hcur; cbn [starGreedy].
  - apply Hk. exact Hcur.
  - cbn [hasPercent] in Hs. apply orb_false_iff in Hs as [_ Ht].
    destruct (p c); [|apply Hk; exact Hcur].
    rewrite IH; [apply Hk; exact Hcur|exact Ht|exact Ht].
Qed.

Lemma starLazy_clean (p : ascii -> bool) (k : cursor -> option R) :
  (forall cur, clean cur -> k cur = None) ->
  forall (s : string) (cur : cursor),
    hasPercent s = false -> clean cur -> starLazy p k s cur = None.
Proof.
  intros Hk s. induction s as [|c t IH]; intros cur Hs Hcur; cbn [starLazy].
  - rewrite (Hk cur Hcur). reflexivity.
  - cbn [hasPercent] in Hs. apply orb_false_iff in Hs as [_ Ht].
    rewrite (Hk cur Hcur). destruct (p c); [|reflexivity].
    apply IH; exact Ht.
Qed.

(** Whatever the pattern, it leaves a text without a percent sign at a
    position of that text. *)
Lemma matchRegex_clean (r : regex) :
  forall (cur : cursor) (cs : captures) (k : cursor -> captures -> option R),
    clean cur ->
    (forall cur' cs', clean cur' -> k cur' cs' = None) ->
    matchRegex r cur cs k = None.
Proof.
  induction r as [p|r1 IH1 r2 IH2|p|p|r1 IH1|n r1 IH1| |]; intros cur cs k Hcur Hk;
    cbn [matchRegex].
  - destruct (rest cur) as [|c t] eqn:E; [reflexivity|].
    destruct (p c); [|reflexivity]. apply Hk.
    unfold clean in *. rewrite E in Hcur. cbn [hasPercent] in Hcur.
    apply orb_false_iff in Hcur as [_ Ht]. exact Ht.
  - apply IH1; [exact Hcur|]. intros cur' cs' Hcur'. apply IH2; assumption.
  - apply starGreedy_clean; [|exact Hcur|exact Hcur]. intros cur' Hcur'. apply Hk. exact Hcur'.
  - apply starLazy_clean; [|exact Hcur|exact Hcur]. intros cur' Hcur'. apply Hk. exact Hcur'.
  - rewrite IH1 by assumption. apply Hk. exact Hcur.
  - apply IH1; [exact Hcur|]. intros cur' cs' Hcur'. apply Hk. exact Hcur'.
  - destruct (before cur) as [c|]; [destruct (isLineTerminator c)|]; auto.
  - destruct (rest cur) as [|c t]; [|destruct (isLineTerminator c)]; auto.
Qed.

(** The literal [%inline] does not match where there is no percent sign. *)
Lemma percent_inline_clean (tail : regex) (cur : cursor) (cs : captures)
    (k : cursor -> captures -> option R) :
  clean cur -> matchRegex (RSeq (RLit "%inline") tail) cur cs k = None.
Proof.
  intros Hcur. cbn [matchRegex RLit].
  destruct (rest cur) as [|c t] eqn:E; [reflexivity|].
  unfold clean in Hcur. rewrite E in Hcur. cbn [hasPercent] in Hcur.
  apply orb_false_iff in Hcur as [Hc _].
  rewrite Ascii.eqb_sym, Hc. reflexivity.
Qed.
End NoPercent.

Lemma MACRO_needs_percent (prev : option ascii) (s : string) :
  hasPercent s = false -> matchAt JsInlineLoader.MACRO prev s = None.
Proof.
  intros Hs. unfold matchAt, JsInlineLoader.MACRO.
  apply percent_inline_clean. exact Hs.
Qed.

Lemma INLINE_MACRO_needs_percent (prev : option ascii) (s : string) :
  hasPercent s = false -> matchAt FunctionInlineLoader.INLINE_MACRO prev s = None.
Proof.
  intros Hs. unfold matchAt, FunctionInlineLoader.INLINE_MACRO.
  change (matchRegex (RSeq ?a ?b) ?c ?d ?k)
    with (matchRegex a c d (fun cur' cs' => matchRegex b cur' cs' k)).
  apply matchRegex_clean; [exact Hs|]. intros cur1 cs1 H1.
  change (matchRegex (RSeq ?a ?b) ?c ?d ?k)
    with (matchRegex a c d (fun cur' cs' => matchRegex b cur' cs' k)).
  apply matchRegex_clean; [exact H1|]. intros cur2 cs2 H2.
  change (matchRegex (RSeq ?a ?b) ?c ?d ?k)
    with (matchRegex a c d (fun cur' cs' => matchRegex b cur' cs' k)).
  apply matchRegex_clean; [exact H2|]. intros cur3 cs3 H3.
  apply percent_inline_clean. exact H3.
Qed.

Lemma segments_without_match (r : regex) :
  (forall prev s, hasPercent s = false -> matchAt r prev s = None) ->
  forall (s : string) (prev : option ascii),
    hasPercent s = false -> segments r prev s 0 = characters s.
Proof.
  intros Hr s. induction s as [|c t IH]; intros prev Hs; cbn [segments characters].
  - rewrite (Hr prev "" Hs). reflexivity.
  - rewrite (Hr prev (String c t) Hs).
    cbn [hasPercent] in Hs. apply orb_false_iff in Hs as [_ Ht].
    rewrite (IH (Some c) Ht). reflexivity.
Qed.

Lemma replaceAll_characters (callback : captures -> io string) (s : string)
    (st : loaderState) :
  replaceAll callback (characters s) st = (st, Ok s).
Proof.
  induction s as [|c t IH]; cbn [characters replaceAll]; [reflexivity|].
  unfold iobind. rewrite IH. reflexivity.
Qed.

Lemma hasMatch_characters (s : string) : JsInlineLoader.hasMatch (characters s) = false.
Proof. induction s as [|c t IH]; [reflexivity|exact IH]. Qed.

(** X16: [js-inline-loader.js] gives back a source without a percent sign
    as it is: the pattern matches nowhere, the parser is not called, no
    file is read, nothing is reported; the loader is marked cacheable and
    that is all.  This holds whatever the source is otherwise, text that
    does not parse included. *)
Theorem X16_js_inline_loader_leaves_a_source_without_percent
    (H : host) (fuel : nat) (source : string) (st : loaderState) :
  hasPercent source = false ->
  JsInlineLoader.module_exports H fuel source st = (madeCacheable st, Ok (Some source)).
Proof.
  intros Hs. unfold JsInlineLoader.module_exports, iobind, cacheable.
  rewrite (segments_without_match _ MACRO_needs_percent source None Hs).
  rewrite replaceAll_characters, hasMatch_characters. reflexivity.
Qed.

Lemma X16_witness :
  JsInlineLoader.module_exports demoHost 0 "var a = b + (;" initialState
  = (LoaderState [] [] true [], Ok (Some "var a = b + (;")).
Proof.
  apply (X16_js_inline_loader_leaves_a_source_without_percent demoHost 0 "var a = b + (;"
           initialState).
  reflexivity.
Defined.

(** X17: [function-inline-loader.js] gives back a source without a percent
    sign as it is: the sweep finds no site, so no file is read, nothing is
    parsed, reported, registered or printed; the loader is marked cacheable
    and that is all. *)
Theorem X17_function_inline_loader_leaves_a_source_without_percent
    (H : host) (source : string) (st : loaderState) :
  hasPercent source = false ->
  FunctionInlineLoader.module_exports H source st = (madeCacheable st, Ok source).
Proof.
  intros Hs. unfold FunctionInlineLoader.module_exports, iobind, cacheable.
  rewrite (segments_without_match _ INLINE_MACRO_needs_percent source None Hs).
  rewrite replaceAll_characters. reflexivity.
Qed.

Lemma X17_witness :
  FunctionInlineLoader.module_exports demoHost "var a = inline('m').f(1);" initialState
  = (LoaderState [] [] true [], Ok "var a = inline('m').f(1);").
Proof.
  apply (X17_function_inline_loader_leaves_a_source_without_percent demoHost
           "var a = inline('m').f(1);" initialState).
  reflexivity.
Defined.

(** ** What a site leaves behind in the loader context *)

(** X18: what [getFunctionCode] of [js-inline-loader.js] does to the loader
    context, whatever the site.  It never prints and never touches the
    cacheable mark.  It registers at most one dependency, the resolved path
    of the module.  It emits at most one diagnostic, and a diagnostic always
    comes with a placeholder comment as the answer: a site that raises
    reports nothing, a site that is expanded reports nothing. *)
Theorem X18_getFunctionCode_effects
    (H : host) (gModule gFunction fnArgs : value) (st : loaderState) :
  let out := JsInlineLoader.getFunctionCode H gModule gFunction fnArgs st in
  cacheableFlag (fst out) = cacheableFlag st
  /\ consoleOut (fst out) = consoleOut st
  /\ (dependencies (fst out) = dependencies st
      \/ exists m, gModule = VStr m
                   /\ dependencies (fst out)
                      = (dependencies st ++ [path_resolve H (context H) m])%list)
  /\ (errors (fst out) = errors st
      \/ exists msg answer,
           errors (fst out) = (errors st ++ [msg])%list
           /\ snd out = Ok answer /\ placeholder answer).
Proof.
  unfold JsInlineLoader.getFunctionCode, iobind, lift, pathResolve.
  destruct gModule as [| |b|z|m|xs|fs]; cbn [fst snd]; try tauto.
  destruct (loadModuleContents H (path_resolve H (context H) m)) as [contents|].
  - destruct (esprima_parse H (Some contents) moduleOptions) as [ast|e].
    + unfold addDependency at 1. cbv beta iota.
      destruct (getExportedFunctions ast) as [table|e]; cbn [fst snd].
      * destruct (negb (truthy (lookupFunction table gFunction))).
        -- cbn. repeat split; [right; eauto|right].
           do 2 eexists. split; [reflexivity|]. split; [reflexivity|].
           exists ("Unknown inline " ++ toString gFunction). reflexivity.
        -- destruct (substituteArguments fnArgs (lookupFunction table gFunction))
             as [fnAst'|e]; cbn [fst snd]; repeat split; eauto.
      * repeat split; eauto.
    + cbn. repeat split; [left; reflexivity|right].
      do 2 eexists. split; [reflexivity|]. split; [reflexivity|].
      exists ("Parsing error in module " ++ m). reflexivity.
  - cbn. repeat split; [left; reflexivity|right].
    do 2 eexists. split; [reflexivity|]. split; [reflexivity|].
    exists ("Missing module " ++ m). reflexivity.
Qed.

(** A site that raises once the dependency is registered. *)
Ltac raised_after_dependency :=
  cbn; repeat split; try reflexivity; right; eexists; split; reflexivity.

(** X19: what the callback of [function-inline-loader.js] does to the
    loader context, whatever the site.  An answer is either an expansion,
    which is also printed on the console, line for line what is returned,
    with nothing reported; or a placeholder comment with exactly one
    diagnostic and nothing printed.  A site that raises has reported and
    printed nothing.  At most one dependency is registered, the resolved
    path of the module, and the cacheable mark is not touched. *)
Theorem X19_inlineMacro_effects
    (H : host) (gIndent gAssignExpr gFile gFunction gArgs : value) (st : loaderState) :
  let out := FunctionInlineLoader.inlineMacro H gIndent gAssignExpr gFile gFunction gArgs st in
  cacheableFlag (fst out) = cacheableFlag st
  /\ (dependencies (fst out) = dependencies st
      \/ exists f, gFile = VStr f
                   /\ dependencies (fst out)
                      = (dependencies st ++ [path_resolve H (context H) f])%list)
  /\ match snd out with
     | Ok answer =>
         (errors (fst out) = errors st
          /\ consoleOut (fst out) = (consoleOut st ++ [answer])%list)
         \/ (exists msg, errors (fst out) = (errors st ++ [msg])%list
                         /\ placeholder answer
                         /\ consoleOut (fst out) = consoleOut st)
     | Throw _ => errors (fst out) = errors st /\ consoleOut (fst out) = consoleOut st
     end.
Proof.
  unfold FunctionInlineLoader.inlineMacro, iobind, lift, pathResolve.
  destruct gFile as [| |b|z|f|xs|fs]; cbn [fst snd]; try tauto.
  destruct (esprima_parse H (loadModuleContents H (path_resolve H (context H) f))
              moduleOptions) as [ast|e]; cbn [fst snd]; [|tauto].
  unfold addDependency at 1. cbv beta iota.
  destruct (getExportedFunctions ast) as [table|e]; cbn [fst snd];
    [|raised_after_dependency].
  destruct (negb (truthy (lookupFunction table gFunction))).
  { cbn. repeat split; [right; eauto|right].
    eexists. split; [reflexivity|]. split; [|reflexivity].
    exists ("Unknown inline " ++ toString gFunction). reflexivity. }
  destruct (compileArgumentAst H (toString gArgs)) as [fnArgs|e]; cbn [fst snd];
    [|raised_after_dependency].
  destruct (get fnArgs "length") as [alen|e]; cbn [fst snd];
    [|raised_after_dependency].
  destruct (get (lookupFunction table gFunction) "params") as [params|e]; cbn [fst snd];
    [|raised_after_dependency].
  destruct (get params "length") as [plen|e]; cbn [fst snd];
    [|raised_after_dependency].
  destruct (negb (strictEq alen plen)).
  { cbn. repeat split; [right; eauto|right].
    eexists. split; [reflexivity|]. split; [|reflexivity].
    exists ("Invalid syntax for " ++ toString gFunction). reflexivity. }
  destruct (substituteArguments fnArgs (lookupFunction table gFunction)) as [fnAst'|e];
    cbn [fst snd]; [|raised_after_dependency].
  destruct (FunctionInlineLoader.renderFunction H fnAst') as [code|e]; cbn [fst snd];
    [|raised_after_dependency].
  cbn. repeat split; [right; eauto|left; split; reflexivity].
Qed.

(** ** The indentation of an expansion *)

Lemma replaceNewlines_line (line rest by_ : string) :
  noBreak line = true ->
  replaceNewlines (line ++ rest) by_ = line ++ replaceNewlines rest by_.
Proof.
  induction line as [|c t IH]; intros Hline; [reflexivity|].
  cbn [noBreak] in Hline. apply andb_true_iff in Hline as [Hc Ht].
  apply negb_true_iff in Hc. unfold isLineTerminator in Hc.
  apply orb_false_iff in Hc as [H10 H13].
  change (replaceNewlines (String c (t ++ rest)) by_ = String c (t ++ replaceNewlines rest by_)).
  cbn [replaceNewlines]. rewrite H10, H13, (IH Ht). reflexivity.
Qed.

Lemma replaceNewlines_LF (rest by_ : string) :
  replaceNewlines (LF ++ rest) by_ = by_ ++ replaceNewlines rest by_.
Proof. reflexivity. Qed.

Lemma replaceNewlines_CRLF (rest by_ : string) :
  replaceNewlines (CRLF ++ rest) by_ = by_ ++ replaceNewlines rest by_.
Proof. reflexivity. Qed.

Lemma replaceNewlines_join (sep by_ : string) (lines : list string) :
  (forall rest, replaceNewlines (sep ++ rest) by_ = by_ ++ replaceNewlines rest by_) ->
  Forall (fun line => noBreak line = true) lines ->
  replaceNewlines (join sep lines) by_ = join by_ lines.
Proof.
  intros Hsep Hlines. induction Hlines as [|line lines Hline Hrest IH]; [reflexivity|].
  destruct lines as [|line2 lines].
  - cbn [join]. rewrite <- (append_empty line) at 1.
    rewrite (replaceNewlines_line line "" by_ Hline). apply append_empty.
  - change (replaceNewlines (line ++ sep ++ join sep (line2 :: lines)) by_
            = line ++ by_ ++ join by_ (line2 :: lines)).
    rewrite (replaceNewlines_line _ _ _ Hline), Hsep, IH. reflexivity.
Qed.

(** X20: the re-indentation of the rendered code replaces each line end,
    a line feed alone or one behind a carriage return, by the given text,
    and leaves the lines as they are: the code of the lines joined by line
    ends becomes the lines joined by that text. *)
Theorem X20_replaceNewlines_joins_the_lines (by_ : string) (lines : list string) :
  Forall (fun line => noBreak line = true) lines ->
  replaceNewlines (join LF lines) by_ = join by_ lines
  /\ replaceNewlines (join CRLF lines) by_ = join by_ lines.
Proof.
  intros Hlines. split.
  - apply replaceNewlines_join; [intros rest; apply replaceNewlines_LF|exact Hlines].
  - apply replaceNewlines_join; [intros rest; apply replaceNewlines_CRLF|exact Hlines].
Qed.

Lemma X20_witness :
  replaceNewlines (join LF ["a();"; "b();"]) (LF ++ "  ") = join (LF ++ "  ") ["a();"; "b();"]
  /\ replaceNewlines (join CRLF ["a();"; "b();"]) (LF ++ "  ")
     = join (LF ++ "  ") ["a();"; "b();"].
Proof.
  apply (X20_replaceNewlines_joins_the_lines (LF ++ "  ") ["a();"; "b();"]).
  repeat constructor.
Defined.

(** X21: a site of [function-inline-loader.js] whose module parses, whose
    function is exported and whose arguments are as many as its parameters
    is answered by the rendered code, set behind the indentation of the
    site and behind the text in front of the macro if there is any, each
    further line indented like the site (four columns deeper behind such a
    text).  The resolved path of the module is registered, the answer is
    printed on the console, nothing is reported. *)
Theorem X21_expansion_is_indented_like_the_site
    (H : host) (gIndent gFile gFunction gArgs : string) (gAssignExpr : value)
    (ast fnAst fnAst' : value) (table : gmap string value) (args ps : list value)
    (lines : list string) (st : loaderState) :
  esprima_parse H (loadModuleContents H (path_resolve H (context H) gFile)) moduleOptions
  = Ok ast ->
  getExportedFunctions ast = Ok table ->
  table !! gFunction = Some fnAst ->
  truthy fnAst = true ->
  compileArgumentAst H gArgs = Ok (VArr args) ->
  get fnAst "params" = Ok (VArr ps) ->
  length args = length ps ->
  substituteArguments (VArr args) fnAst = Ok fnAst' ->
  FunctionInlineLoader.renderFunction H fnAst' = Ok (join LF lines) ->
  Forall (fun line => noBreak line = true) lines ->
  FunctionInlineLoader.inlineMacro H (VStr gIndent) gAssignExpr (VStr gFile) (VStr gFunction)
    (VStr gArgs) st
  = (LoaderState (errors st)
       (dependencies st ++ [path_resolve H (context H) gFile])
       (cacheableFlag st)
       (consoleOut st ++ [indented gIndent gAssignExpr lines]),
     Ok (indented gIndent gAssignExpr lines)).
Proof.
  intros Hp Hx Hf Ht Hc Hps Hlen Hsub Hrender Hlines.
  unfold FunctionInlineLoader.inlineMacro, iobind, lift. simpl.
  rewrite Hp. unfold addDependency. rewrite Hx.
  unfold lookupFunction. simpl. rewrite Hf. simpl. rewrite Ht. simpl.
  rewrite Hc, Hps. simpl. rewrite Hlen, Z.eqb_refl. simpl.
  rewrite Hsub, Hrender.
  unfold indented, console_log, ret. simpl.
  rewrite !(replaceNewlines_join LF _ lines)
    by (first [exact Hlines|intros rest; apply replaceNewlines_LF]).
  destruct (truthy gAssignExpr); reflexivity.
Qed.

Lemma X21_witness :
  FunctionInlineLoader.inlineMacro twoLineHost (VStr "  ") VUndef (VStr "m") (VStr "f")
    (VStr "1, 2, 3") initialState
  = (LoaderState [] ["/src/m"] false ["  a();" ++ LF ++ "  b();"],
     Ok ("  a();" ++ LF ++ "  b();"))
  /\ FunctionInlineLoader.inlineMacro twoLineHost (VStr "  ") (VStr "x = ") (VStr "m") (VStr "f")
       (VStr "1, 2, 3") initialState
     = (LoaderState [] ["/src/m"] false ["  x = a();" ++ LF ++ "      b();"],
        Ok ("  x = a();" ++ LF ++ "      b();")).
Proof.
  split.
  - apply (X21_expansion_is_indented_like_the_site twoLineHost "  " "m" "f" "1, 2, 3" VUndef
             sumTree
             (FunctionDeclaration "f" [Identifier "a"; Identifier "b"; Identifier "c"]
                [ReturnStatement
                   (BinaryExpression "+"
                      (BinaryExpression "+" (Identifier "a") (Identifier "b"))
                      (Identifier "c"))])
             (FunctionDeclaration "f" [NumLiteral 1; NumLiteral 2; NumLiteral 3]
                [ReturnStatement
                   (BinaryExpression "+"
                      (BinaryExpression "+" (NumLiteral 1) (NumLiteral 2))
                      (NumLiteral 3))])
             {[ "f" := FunctionDeclaration "f" [Identifier "a"; Identifier "b"; Identifier "c"]
                         [ReturnStatement
                            (BinaryExpression "+"
                               (BinaryExpression "+" (Identifier "a") (Identifier "b"))
                               (Identifier "c"))] ]}
             [NumLiteral 1; NumLiteral 2; NumLiteral 3]
             [Identifier "a"; Identifier "b"; Identifier "c"]
             ["a();"; "b();"] initialState);
      try reflexivity; try (vm_compute; reflexivity).
    repeat constructor.
  - apply (X21_expansion_is_indented_like_the_site twoLineHost "  " "m" "f" "1, 2, 3" (VStr "x = ")
             sumTree
             (FunctionDeclaration "f" [Identifier "a"; Identifier "b"; Identifier "c"]
                [ReturnStatement
                   (BinaryExpression "+"
                      (BinaryExpression "+" (Identifier "a") (Identifier "b"))
                      (Identifier "c"))])
             (FunctionDeclaration "f" [NumLiteral 1; NumLiteral 2; NumLiteral 3]
                [ReturnStatement
                   (BinaryExpression "+"
                      (BinaryExpression "+" (NumLiteral 1) (NumLiteral 2))
                      (NumLiteral 3))])
             {[ "f" := FunctionDeclaration "f" [Identifier "a"; Identifier "b"; Identifier "c"]
                         [ReturnStatement
                            (BinaryExpression "+"
                               (BinaryExpression "+" (Identifier "a") (Identifier "b"))
                               (Identifier "c"))] ]}
             [NumLiteral 1; NumLiteral 2; NumLiteral 3]
             [Identifier "a"; Identifier "b"; Identifier "c"]
             ["a();"; "b();"] initialState);
      try reflexivity; try (vm_compute; reflexivity).
    repeat constructor.
Defined.

(** ** [replaceIdentifier]: what it throws, and what it leaves alone *)

Lemma foldM_throws {A S} (f : S -> A -> res S) (l : list A) (s : S) (e : exn) :
  (forall s x e, In x l -> f s x = Throw e -> e = TypeError) ->
  foldM f l s = Throw e -> e = TypeError.
Proof.
  revert s. induction l as [|x l IH]; intros s Hf; cbn [foldM]; [discriminate|].
  intros E. apply bind_Throw in E as [E|(s' & _ & E)].
  - apply (Hf s x e); [left; reflexivity|exact E].
  - apply (IH s'); [|exact E]. intros s0 y e0 Hy. apply Hf. right. exact Hy.
Qed.

Lemma mapM_throws {A B} (f : A -> res B) (l : list A) (e : exn) :
  (forall x e, In x l -> f x = Throw e -> e = TypeError) ->
  mapM f l = Throw e -> e = TypeError.
Proof.
  induction l as [|x l IH]; intros Hf; cbn [mapM]; [discriminate|].
  intros E. apply bind_Throw in E as [E|(y & _ & E)].
  - apply (Hf x e); [left; reflexivity|exact E].
  - apply bind_Throw in E as [E|(ys & _ & E)]; [|discriminate].
    apply IH; [|exact E]. intros x0 e0 Hx. apply Hf. right. exact Hx.
Qed.

Lemma reduceKeys_throws (f : value -> res value) (fs : list (string * value)) (e : exn) :
  (forall kv e, In kv fs -> f (snd kv) = Throw e -> e = TypeError) ->
  reduceKeys f fs = Throw e -> e = TypeError.
Proof.
  induction fs as [|[k v] fs IH]; intros Hf; cbn [reduceKeys]; [discriminate|].
  intros E. apply bind_Throw in E as [E|(y & _ & E)].
  - apply (Hf (k, v) e); [left; reflexivity|exact E].
  - apply bind_Throw in E as [E|(ys & _ & E)]; [|discriminate].
    apply IH; [|exact E]. intros x0 e0 Hx. apply Hf. right. exact Hx.
Qed.

Lemma reduceIndices_throws (f : value -> res value) (xs : list value) (i : nat) (e : exn) :
  (forall x e, In x xs -> f x = Throw e -> e = TypeError) ->
  reduceIndices f i xs = Throw e -> e = TypeError.
Proof.
  revert i. induction xs as [|x xs IH]; intros i Hf; cbn [reduceIndices]; [discriminate|].
  intros E. apply bind_Throw in E as [E|(y & _ & E)].
  - apply (Hf x e); [left; reflexivity|exact E].
  - apply bind_Throw in E as [E|(ys & _ & E)]; [|discriminate].
    apply (IH (S i)); [|exact E]. intros x0 e0 Hx. apply Hf. right. exact Hx.
Qed.

Lemma scanDeclarations_throws (name decls : value) (acc : bool) (e : exn) :
  scanDeclarations name decls acc = Throw e -> e = TypeError.
Proof.
  unfold scanDeclarations, forEach. destruct decls as [| |b|z|s|ds|fs]; try congruence.
  apply foldM_throws. intros acc' d e' _ E.
  apply bind_Throw in E as [E|(id & _ & E)]; [exact (get_throws _ _ _ E)|].
  apply bind_Throw in E as [E|(n & _ & E)]; [exact (get_throws _ _ _ E)|discriminate].
Qed.

Lemma scanStatement_throws (name node : value) (acc : bool) (e : exn) :
  scanStatement name acc node = Throw e -> e = TypeError.
Proof.
  unfold scanStatement. intros E.
  apply bind_Throw in E as [E|(ty & _ & E)]; [exact (get_throws _ _ _ E)|].
  apply bind_Throw in E as [E|(acc' & _ & E)].
  - destruct (strictEq ty (VStr "VariableDeclaration")); [|discriminate].
    apply bind_Throw in E as [E|(decls & _ & E)]; [exact (get_throws _ _ _ E)|].
    exact (scanDeclarations_throws _ _ _ _ E).
  - destruct (strictEq ty (VStr "ForStatement")); [|discriminate].
    apply bind_Throw in E as [E|(init & _ & E)]; [exact (get_throws _ _ _ E)|].
    destruct (truthy init); [|discriminate].
    apply bind_Throw in E as [E|(ity & _ & E)]; [exact (get_throws _ _ _ E)|].
    destruct (strictEq ity (VStr "VariableDeclaration")); [|discriminate].
    apply bind_Throw in E as [E|(decls & _ & E)]; [exact (get_throws _ _ _ E)|].
    exact (scanDeclarations_throws _ _ _ _ E).
Qed.

Lemma isShadowedIn_throws (name : value) (fs : list (string * value)) (e : exn) :
  isShadowedIn name fs = Throw e -> e = TypeError.
Proof.
  unfold isShadowedIn, scanBody, forEach.
  destruct (default VUndef (assoc "body" fs)) as [| |b|z|s|stmts|bfs]; cbn [isArray];
    try discriminate.
  apply foldM_throws. intros acc node e' _ E. exact (scanStatement_throws _ _ _ _ E).
Qed.

Lemma replaceValue_throws (rec : value -> res value) (v : value) (e : exn) :
  (forall fs, v = VObj fs -> rec v = Throw e -> e = TypeError) ->
  (forall ys, v = VArr ys -> forall y e, In y ys -> rec y = Throw e -> e = TypeError) ->
  replaceValue rec v = Throw e -> e = TypeError.
Proof.
  intros Hobj Harr. destruct v as [| |b|z|s|ys|fs]; cbn [replaceValue]; try discriminate.
  - intros E. apply bind_Throw in E as [E|(ys' & _ & E)]; [|discriminate].
    exact (mapM_throws _ _ _ (Harr ys eq_refl) E).
  - apply (Hobj fs). reflexivity.
Qed.

(** The only exception of [replaceIdentifier] is the [TypeError] of a read
    on [null] or [undefined]. *)
Lemma replaceIdentifier_throws (name withAst inAst : value) (e : exn) :
  replaceIdentifier name withAst inAst = Throw e -> e = TypeError.
Proof.
  revert e.
  induction inAst as [| |b|n|s|xs IH|fs IH] using value_induction_elements; intros e;
    cbn [replaceIdentifier]; try congruence.
  - intros E. apply bind_Throw in E as [E|(fs' & _ & E)]; [|discriminate].
    apply (reduceIndices_throws _ _ _ _) in E; [exact E|].
    intros x e0 Hx. rewrite Forall_forall in IH. apply list_elem_of_In in Hx.
    destruct (IH x Hx) as [Hself Helems].
    apply replaceValue_throws.
    + intros gs _. apply Hself.
    + intros ys -> y e1 Hy. specialize (Helems ys eq_refl).
      rewrite Forall_forall in Helems. apply Helems. apply list_elem_of_In. exact Hy.
  - destruct (isTarget name fs); [discriminate|].
    intros E. apply bind_Throw in E as [E|(shadowed & _ & E)];
      [exact (isShadowedIn_throws _ _ _ E)|].
    destruct shadowed; [discriminate|].
    apply bind_Throw in E as [E|(fs' & _ & E)]; [|discriminate].
    apply (reduceKeys_throws _ _ _) in E; [exact E|].
    intros kv e0 Hkv. rewrite Forall_forall in IH. apply list_elem_of_In in Hkv.
    destruct (IH kv Hkv) as [Hself Helems].
    apply replaceValue_throws.
    + intros gs _. apply Hself.
    + intros ys Eys y e1 Hy. specialize (Helems ys Eys).
      rewrite Forall_forall in Helems. apply Helems. apply list_elem_of_In. exact Hy.
Qed.

Lemma Forall2_In_left {A B} (P : A -> B -> Prop) (l : list A) (l' : list B) (x : A) :
  Forall2 P l l' -> In x l -> exists y, In y l' /\ P x y.
Proof.
  induction 1 as [|a b l l' Hab _ IH]; intros Hin; [destruct Hin|].
  destruct Hin as [->|Hin].
  - exists b. split; [left; reflexivity|exact Hab].
  - destruct (IH Hin) as (y & Hy & Hxy). exists y. split; [right; exact Hy|exact Hxy].
Qed.

(** X22: the elements of an array are substituted one and all, without a
    look at what they are: an element that is [null] or [undefined] (the
    hole of an array literal [[a, , b]] is [null] in the tree) makes the
    substitution throw, on every node that is reached and has such an array
    under one of its keys. *)
Theorem X22_missing_array_element_throws
    (name withAst : value) (fs : list (string * value)) (k : string) (ys : list value)
    (y : value) :
  isTarget name fs = false ->
  isShadowedIn name fs = Ok false ->
  In (k, VArr ys) fs ->
  In y ys ->
  y = VNull \/ y = VUndef ->
  replaceIdentifier name withAst (VObj fs) = Throw TypeError.
Proof.
  intros Ht Hs Hk Hy Hmissing.
  destruct (replaceIdentifier name withAst (VObj fs)) as [r|e] eqn:E.
  - exfalso.
    apply (replaceIdentifier_fields name withAst fs r Ht Hs) in E as (fs' & _ & F).
    destruct (Forall2_In_left _ _ _ _ F Hk) as ([k' v'] & _ & _ & Hv).
    cbn [snd fieldResult] in Hv. destruct Hv as (ys' & _ & F2).
    destruct (Forall2_In_left _ _ _ _ F2 Hy) as (y' & _ & Hy').
    destruct Hmissing as [-> | ->]; discriminate Hy'.
  - rewrite (replaceIdentifier_throws _ _ _ _ E). reflexivity.
Qed.

Lemma X22_witness :
  replaceIdentifier (VStr "x") (NumLiteral 1)
    (ReturnStatement (ArrayExpression [Identifier "x"; VNull; Identifier "y"]))
  = Throw TypeError
  /\ replaceIdentifier (VStr "x") (NumLiteral 1)
       (ArrayExpression [Identifier "x"; VNull; Identifier "y"])
     = Throw TypeError.
Proof.
  split; [reflexivity|].
  apply (X22_missing_array_element_throws (VStr "x") (NumLiteral 1)
           [("type", VStr "ArrayExpression");
            ("elements", VArr [Identifier "x"; VNull; Identifier "y"])]
           "elements" [Identifier "x"; VNull; Identifier "y"] VNull).
  - reflexivity.
  - reflexivity.
  - right. left. reflexivity.
  - right. left. reflexivity.
  - left. reflexivity.
Defined.

Lemma allOf_Forall {A} (P : A -> Prop) (l : list A) : allOf P l <-> Forall P l.
Proof.
  induction l as [|x l IH]; cbn [allOf].
  - split; [constructor|trivial].
  - rewrite IH. split.
    + intros [Hx Hl]. constructor; assumption.
    + intros F. inversion F. split; assumption.
Qed.

Lemma isShadowedIn_Ok (name : string) (fs : list (string * value)) :
  (forall stmts, assoc "body" fs = Some (VArr stmts) -> Forall statementOk stmts) ->
  exists b, isShadowedIn (VStr name) fs = Ok b.
Proof.
  intros Hscan. unfold isShadowedIn.
  destruct (assoc "body" fs) as [body|] eqn:E; cbn [default]; [|exists false; reflexivity].
  destruct body as [| |b|z|s|stmts|bfs]; cbn [isArray]; try (exists false; reflexivity).
  destruct (scanBody_spec name stmts (Hscan stmts eq_refl)) as (b & Hb & _).
  exists b. exact Hb.
Qed.

Lemma mapM_same {A} (f : A -> res A) (l : list A) :
  Forall (fun x => f x = Ok x) l -> mapM f l = Ok l.
Proof.
  induction 1 as [|x l Hx _ IH]; cbn [mapM]; [reflexivity|].
  rewrite Hx. cbn [bind]. rewrite IH. reflexivity.
Qed.

Lemma reduceKeys_same (f : value -> res value) (fs : list (string * value)) :
  Forall (fun kv => f (snd kv) = Ok (snd kv)) fs -> reduceKeys f fs = Ok fs.
Proof.
  induction 1 as [|[k v] fs Hv _ IH]; cbn [reduceKeys]; [reflexivity|].
  cbn [snd] in Hv. rewrite Hv. cbn [bind]. rewrite IH. reflexivity.
Qed.

(** X23: substitution touches nothing but the identifier: a tree in which
    the name does not occur comes back as a tree equal to it, node for
    node, key for key, whatever the replacement. *)
Theorem X23_substitution_of_an_absent_name_changes_nothing
    (name : string) (withAst inAst : value) :
  free name inAst ->
  replaceIdentifier (VStr name) withAst inAst = Ok inAst.
Proof.
  induction inAst as [| |b|n|s|xs IH|fs IH] using value_induction_elements;
    cbn [free]; try tauto.
  intros (Ht & Hscan & Hfields).
  cbn [replaceIdentifier]. rewrite Ht.
  destruct (isShadowedIn_Ok name fs Hscan) as (shadowed & ->). cbn [bind].
  destruct shadowed; [reflexivity|].
  rewrite reduceKeys_same; [reflexivity|].
  apply allOf_Forall in Hfields.
  rewrite Forall_forall in IH, Hfields. apply Forall_forall. intros kv Hkv.
  destruct (IH kv Hkv) as [Hself Helems]. specialize (Hfields kv Hkv).
  destruct (snd kv) as [| |b|z|s|ys|gs]; cbn [replaceValue freeField] in *; try reflexivity.
  - rewrite mapM_same; [reflexivity|].
    apply allOf_Forall in Hfields. specialize (Helems ys eq_refl).
    rewrite Forall_forall in Helems, Hfields. apply Forall_forall. intros y Hy.
    specialize (Hfields y Hy). destruct y; try tauto.
    apply (Helems _ Hy). exact Hfields.
  - apply Hself. exact Hfields.
Qed.

Lemma X23_witness :
  replaceIdentifier (VStr "y") aPlusOne timesTwo = Ok timesTwo.
Proof.
  apply (X23_substitution_of_an_absent_name_changes_nothing "y" aPlusOne timesTwo).
  cbn -[statementOk].
  repeat split; try discriminate.
  intros stmts E. injection E as <-.
  repeat constructor; try (eexists; reflexivity); try discriminate.
Defined.

(** ** The loop over the arguments *)

(** X24: the parameters are substituted one after the other, each in the
    tree the substitutions before it have left, so an argument that is put
    in for one parameter is itself rewritten when it names a later one:
    [function n(a, b) { return a op b; }] applied to the arguments [b] and
    [w] gives [w op w], not [b op w]. *)
Theorem X24_arguments_are_substituted_one_after_the_other
    (n a b op : string) (w : value) :
  a <> b -> n <> a -> n <> b ->
  substituteArguments (VArr [Identifier b; w])
    (FunctionDeclaration n [Identifier a; Identifier b]
       [ReturnStatement (BinaryExpression op (Identifier a) (Identifier b))])
  = Ok (FunctionDeclaration n [w; w] [ReturnStatement (BinaryExpression op w w)]).
Proof.
  intros Hab Hna Hnb.
  apply String.eqb_neq in Hab, Hna, Hnb.
  assert (Hba : String.eqb b a = false) by (rewrite String.eqb_sym; exact Hab).
  unfold substituteArguments, FunctionDeclaration, BlockStatement, ReturnStatement,
    BinaryExpression, Identifier, scanBody, scanStatement, scanDeclarations.
  cbn. change (Z.to_nat (Z.of_nat 2)) with 2%nat.
  repeat (progress (cbn; unfold isTarget, isShadowedIn, scanBody, scanStatement; cbn;
                    rewrite ?Hab, ?Hna, ?Hnb, ?Hba, ?String.eqb_refl)).
  reflexivity.
Qed.

Lemma X24_witness :
  substituteArguments (VArr [Identifier "b"; NumLiteral 5])
    (FunctionDeclaration "minus" [Identifier "a"; Identifier "b"]
       [ReturnStatement (BinaryExpression "-" (Identifier "a") (Identifier "b"))])
  = Ok (FunctionDeclaration "minus" [NumLiteral 5; NumLiteral 5]
          [ReturnStatement (BinaryExpression "-" (NumLiteral 5) (NumLiteral 5))]).
Proof.
  apply (X24_arguments_are_substituted_one_after_the_other "minus" "a" "b" "-" (NumLiteral 5));
    discriminate.
Defined.

Lemma isTarget_other_type (name : value) (fs : list (string * value)) (ty : string) :
  assoc "type" fs = Some (VStr ty) -> ty <> "Identifier" -> isTarget name fs = false.
Proof.
  intros Hty Hne. apply isTarget_not_identifier. rewrite Hty. congruence.
Qed.

(** A substitution leaves a function node a function node of the same
    arity. *)
Lemma functionOfArity_kept (n : nat) (name withAst fnAst fnAst' : value) :
  functionOfArity n fnAst ->
  replaceIdentifier name withAst fnAst = Ok fnAst' ->
  functionOfArity n fnAst'.
Proof.
  intros (fs & bfs & ty & bty & ps & -> & Hty & Hne & Hps & Hlen & Hbody & Hbty & Hbne) E.
  assert (Ht : isTarget name fs = false) by exact (isTarget_other_type _ _ _ Hty Hne).
  assert (Hs : isShadowedIn name fs = Ok false).
  { unfold isShadowedIn. rewrite Hbody. reflexivity. }
  apply (replaceIdentifier_fields name withAst fs fnAst' Ht Hs) in E as (fs' & -> & F).
  destruct (fieldsResult_assoc _ _ _ _ _ _ F Hty) as (ty' & Hty' & Ety).
  destruct (fieldsResult_assoc _ _ _ _ _ _ F Hps) as (vps & Hps' & (ps' & -> & F2)).
  destruct (fieldsResult_assoc _ _ _ _ _ _ F Hbody) as (body' & Hbody' & Eb).
  cbn [fieldResult] in Ety, Eb. subst ty'.
  assert (Hb : exists bfs', body' = VObj bfs' /\ assoc "type" bfs' = Some (VStr bty)).
  { cbn [replaceIdentifier] in Eb.
    rewrite (isTarget_other_type name bfs bty Hbty Hbne) in Eb.
    destruct (isShadowedIn name bfs) as [[|]|e] eqn:Esh; cbn [bind] in Eb.
    - injection Eb as <-. exists bfs. split; [reflexivity|exact Hbty].
    - apply bind_Ok in Eb as (bfs' & Hred & Eb). injection Eb as <-.
      exists bfs'. split; [reflexivity|].
      assert (Fb : fieldsResult name withAst bfs bfs').
      { assert (Eall : replaceIdentifier name withAst (VObj bfs) = Ok (VObj bfs')).
        { cbn [replaceIdentifier].
          rewrite (isTarget_other_type name bfs bty Hbty Hbne), Esh. cbn [bind].
          rewrite Hred. reflexivity. }
        apply (replaceIdentifier_fields name withAst bfs (VObj bfs')
                 (isTarget_other_type name bfs bty Hbty Hbne) Esh) in Eall
          as (bfs2 & Ebfs & Fb).
        injection Ebfs as <-. exact Fb. }
      destruct (fieldsResult_assoc _ _ _ _ _ _ Fb Hbty) as (bty' & Hbty' & Ebty).
      cbn [fieldResult] in Ebty. subst bty'. exact Hbty'.
    - discriminate. }
  destruct Hb as (bfs' & -> & Hbty').
  exists fs', bfs', ty, bty, ps'.
  repeat split; try assumption.
  rewrite <- Hlen. symmetry. exact (Forall2_length _ _ _ F2).
Qed.

Lemma substituteFrom_past_the_parameters (args : list value) (n : nat) :
  forall (k i : nat) (fnAst : value),
    functionOfArity n fnAst ->
    (i <= n)%nat -> (n < i + k)%nat ->
    substituteFrom (VArr args) k i fnAst = Throw TypeError.
Proof.
  induction k as [|k IH]; intros i fnAst Hfn Hi Hk; [lia|].
  pose proof Hfn as (fs & bfs & ty & bty & ps & -> & Hty & Hne & Hps & Hlen & _).
  cbn [substituteFrom get]. rewrite Hps.
  change (default VUndef (Some (VArr ps))) with (VArr ps). cbn [bind get_index].
  destruct (get (nth i ps VUndef) "name") as [name|e] eqn:Ename; cbn [bind].
  - destruct (replaceIdentifier name (nth i args VUndef) (VObj fs)) as [fnAst'|e] eqn:E;
      cbn [bind].
    + assert (Hin : (i < n)%nat).
      { destruct (decide (i = n)) as [->|Hne']; [|lia].
        rewrite nth_overflow in Ename by lia. discriminate. }
      apply (IH (S i) fnAst'); [|lia|lia].
      exact (functionOfArity_kept n _ _ _ _ Hfn E).
    + rewrite (replaceIdentifier_throws _ _ _ _ E). reflexivity.
  - rewrite (get_throws _ _ _ Ename). reflexivity.
Qed.

(** X25: the loop runs over the arguments and reads the parameter of the
    same index, with no test that there is one: with more arguments than
    the function has parameters the read of a name behind the last
    parameter throws, whatever the function and the arguments are.  (In
    [function-inline-loader.js] the comparison of the two lengths in front
    of the loop keeps such a site away from it; [js-inline-loader.js] has
    none.) *)
Theorem X25_more_arguments_than_parameters_throw
    (n : nat) (args : list value) (fnAst : value) :
  functionOfArity n fnAst ->
  (n < length args)%nat ->
  substituteArguments (VArr args) fnAst = Throw TypeError.
Proof.
  intros Hfn Hlen. unfold substituteArguments. cbn [get String.eqb Ascii.eqb Bool.eqb bind].
  cbn [iterations]. rewrite Nat2Z.id.
  apply (substituteFrom_past_the_parameters args n); [exact Hfn|lia|lia].
Qed.

Lemma X25_witness :
  substituteArguments (VArr [aPlusOne; NumLiteral 2]) timesTwo = Throw TypeError.
Proof.
  apply (X25_more_arguments_than_parameters_throw 1 [aPlusOne; NumLiteral 2] timesTwo).
  - eexists _, _, _, _, _. repeat split; try reflexivity; discriminate.
  - cbn. lia.
Defined.

(** ** The argument text of a site of [function-inline-loader.js] *)

(** X26: the arguments of a site are whatever stands between the opening
    parenthesis and the last [);] of the line, parsed as the arguments of a
    call [X(...)].  When that text closes the call early ([1) + g(2], from
    a site with more of an expression behind it), the parsed statement is
    not a call, it has no arguments, and the read of their number throws:
    the transform raises, with the module registered and nothing
    reported. *)
Theorem X26_text_behind_the_call_raises
    (H : host) (gIndent gAssignExpr : value) (gFile gFunction gArgs : string)
    (ast fnAst e : value) (rest : list value) (table : gmap string value) (st : loaderState) :
  esprima_parse H (loadModuleContents H (path_resolve H (context H) gFile)) moduleOptions
  = Ok ast ->
  getExportedFunctions ast = Ok table ->
  table !! gFunction = Some fnAst ->
  truthy fnAst = true ->
  esprima_parse H (Some ("X(" ++ gArgs ++ ")")) scriptOptions
  = Ok (Program (ExpressionStatement e :: rest)) ->
  get e "arguments" = Ok VUndef ->
  FunctionInlineLoader.inlineMacro H gIndent gAssignExpr (VStr gFile) (VStr gFunction)
    (VStr gArgs) st
  = (withDependency st (path_resolve H (context H) gFile), Throw TypeError).
Proof.
  intros Hp Hx Hf Ht Hargs He.
  unfold FunctionInlineLoader.inlineMacro, iobind, lift. simpl.
  rewrite Hp. unfold addDependency. rewrite Hx.
  unfold lookupFunction. simpl. rewrite Hf. simpl. rewrite Ht. simpl.
  unfold compileArgumentAst. rewrite Hargs. simpl. rewrite He. reflexivity.
Qed.

Lemma X26_witness :
  FunctionInlineLoader.inlineMacro trailingHost (VStr "") (VStr "var a = ") (VStr "m")
    (VStr "f") (VStr "1) + g(2") initialState
  = (LoaderState [] ["/src/m"] false [], Throw TypeError)
  /\ FunctionInlineLoader.module_exports trailingHost "var a = %inline('m').f(1) + g(2);"
       initialState
     = (LoaderState [] ["/src/m"] true [], Throw TypeError).
Proof.
  split.
  - apply (X26_text_behind_the_call_raises trailingHost (VStr "") (VStr "var a = ") "m" "f"
             "1) + g(2" sumTree
             (FunctionDeclaration "f" [Identifier "a"; Identifier "b"; Identifier "c"]
                [ReturnStatement
                   (BinaryExpression "+"
                      (BinaryExpression "+" (Identifier "a") (Identifier "b"))
                      (Identifier "c"))])
             (BinaryExpression "+"
                (CallExpression (Identifier "X") [NumLiteral 1])
                (CallExpression (Identifier "g") [NumLiteral 2]))
             []
             {[ "f" := FunctionDeclaration "f" [Identifier "a"; Identifier "b"; Identifier "c"]
                         [ReturnStatement
                            (BinaryExpression "+"
                               (BinaryExpression "+" (Identifier "a") (Identifier "b"))
                               (Identifier "c"))] ]}
             initialState);
      try reflexivity; vm_compute; reflexivity.
  - vm_compute. reflexivity.
Defined.

(** ** The patterns at a site *)

Section Stars.
Context {R : Type}.

(** A lazy repetition goes on over a text of the class as long as the rest
    of the pattern fails on each of its characters. *)
Lemma starLazy_until (p q : ascii -> bool) (k : cursor -> option R) (m t : string) :
  (forall b cons c s, q c = false -> k (Cursor b (String c s) cons) = None) ->
  allChars (fun c => p c && negb (q c)) m = true ->
  forall (b : option ascii) (cons : list ascii),
    starLazy p k (m ++ t) (Cursor b (m ++ t) cons)
    = starLazy p k t (Cursor (lastOf b m) t (revOnto m cons)).
Proof.
  intros Hk. induction m as [|c m IH]; intros Hm b cons; [reflexivity|].
  cbn [allChars] in Hm. apply andb_true_iff in Hm as [Hc Hm].
  apply andb_true_iff in Hc as [Hp Hq]. apply negb_true_iff in Hq.
  change (String c m ++ t) with (String c (m ++ t)).
  cbn [starLazy]. rewrite (Hk b cons c (m ++ t) Hq), Hp.
  unfold advance. cbn [consumed]. apply (IH Hm).
Qed.

(** A greedy repetition over a text of the class answers what it answers
    behind the text, when that is an answer. *)
Lemma starGreedy_over (p : ascii -> bool) (k : cursor -> option R) (f t : string) (r : R) :
  allChars p f = true ->
  forall (b : option ascii) (cons : list ascii),
    starGreedy p k t (Cursor (lastOf b f) t (revOnto f cons)) = Some r ->
    starGreedy p k (f ++ t) (Cursor b (f ++ t) cons) = Some r.
Proof.
  induction f as [|c f IH]; intros Hf b cons Hend; [exact Hend|].
  cbn [allChars] in Hf. apply andb_true_iff in Hf as [Hp Hf].
  change (String c f ++ t) with (String c (f ++ t)).
  cbn [starGreedy]. rewrite Hp. unfold advance. cbn [consumed].
  rewrite (IH Hf (Some c) (c :: cons) Hend). reflexivity.
Qed.

Lemma starGreedy_stop (p : ascii -> bool) (k : cursor -> option R) (t : string)
    (cur : cursor) :
  startsWithout p t = true -> starGreedy p k t cur = k cur.
Proof.
  destruct t as [|c t]; [reflexivity|]. cbn [startsWithout starGreedy].
  intros Hc. apply negb_true_iff in Hc. rewrite Hc. reflexivity.
Qed.
End Stars.

Lemma length_revOnto (s : string) (acc : list ascii) :
  length (revOnto s acc) = (String.length s + length acc)%nat.
Proof.
  revert acc. induction s as [|c s IH]; intros acc; cbn [revOnto String.length]; [reflexivity|].
  rewrite IH. cbn [length]. lia.
Qed.

Lemma revOnto_app (s : string) (acc : list ascii) :
  revOnto s acc = (revOnto s [] ++ acc)%list.
Proof.
  revert acc. induction s as [|c s IH]; intros acc; cbn [revOnto]; [reflexivity|].
  rewrite (IH (c :: acc)), (IH [c]), <- app_assoc. reflexivity.
Qed.

Lemma stringOfRev_revOnto (s : string) (acc : list ascii) (out : string) :
  stringOfRev (revOnto s acc) out = stringOfRev acc (s ++ out).
Proof.
  revert acc out. induction s as [|c s IH]; intros acc out; cbn [revOnto]; [reflexivity|].
  rewrite IH. reflexivity.
Qed.

(** The text of a group that went over [s]. *)
Lemma textBetween_revOnto (s : string) (b0 b1 : option ascii) (r0 r1 : string)
    (cons : list ascii) :
  textBetween (Cursor b0 r0 cons) (Cursor b1 r1 (revOnto s cons)) = s.
Proof.
  unfold textBetween. cbn [consumed].
  rewrite length_revOnto.
  replace (String.length s + length cons - length cons)%nat with (length (revOnto s []))
    by (rewrite length_revOnto; cbn [length]; lia).
  rewrite (revOnto_app s cons), take_app_length, stringOfRev_revOnto.
  cbn [stringOfRev]. apply append_empty.
Qed.

(** *** The pieces of a pattern, one by one

    Each lemma takes the match one piece further: the pattern answers [r]
    when the rest of it answers [r] behind the piece. *)

Section Pieces.
Context {R : Type}.
Implicit Types (k : cursor -> captures -> option R) (r : R).

Lemma piece_seq (r1 r2 : regex) (cur : cursor) (cs : captures) k (o : option R) :
  matchRegex r1 cur cs (fun cur' cs' => matchRegex r2 cur' cs' k) = o ->
  matchRegex (RSeq r1 r2) cur cs k = o.
Proof. intros E. exact E. Qed.

Lemma piece_class (p : ascii -> bool) (c : ascii) (t : string) (b : option ascii)
    (cons : list ascii) (cs : captures) k (o : option R) :
  p c = true ->
  k (Cursor (Some c) t (c :: cons)) cs = o ->
  matchRegex (RClass p) (Cursor b (String c t) cons) cs k = o.
Proof. intros Hp E. cbn [matchRegex rest]. rewrite Hp. exact E. Qed.

Lemma piece_class_fails (p : ascii -> bool) (c : ascii) (t : string) (b : option ascii)
    (cons : list ascii) (cs : captures) k :
  p c = false ->
  matchRegex (RClass p) (Cursor b (String c t) cons) cs k = None.
Proof. intros Hp. cbn [matchRegex rest]. rewrite Hp. reflexivity. Qed.

Lemma piece_literal (lit t : string) (b : option ascii) (cons : list ascii)
    (cs : captures) k (o : option R) :
  lit <> "" ->
  k (Cursor (lastOf b lit) t (revOnto lit cons)) cs = o ->
  matchRegex (RLit lit) (Cursor b (lit ++ t) cons) cs k = o.
Proof.
  revert b cons k. induction lit as [|c lit IH]; intros b cons k Hne E; [congruence|].
  change (String c lit ++ t) with (String c (lit ++ t)).
  destruct lit as [|c' lit].
  - cbn [RLit]. apply piece_class; [apply Ascii.eqb_refl|exact E].
  - change (RLit (String c (String c' lit)))
      with (RSeq (RClass (Ascii.eqb c)) (RLit (String c' lit))).
    apply piece_seq. apply piece_class; [apply Ascii.eqb_refl|].
    apply IH; [discriminate|exact E].
Qed.

Lemma piece_no_space (p : ascii -> bool) (t : string) (b : option ascii)
    (cons : list ascii) (cs : captures) k (o : option R) :
  startsWithout p t = true ->
  k (Cursor b t cons) cs = o ->
  matchRegex (RStar p) (Cursor b t cons) cs k = o.
Proof.
  intros Ht E. cbn [matchRegex rest]. rewrite starGreedy_stop by exact Ht. exact E.
Qed.

Lemma starLazy_here (p : ascii -> bool) (k' : cursor -> option R) (t : string)
    (cur : cursor) r :
  k' cur = Some r -> starLazy p k' t cur = Some r.
Proof. intros E. destruct t; cbn [starLazy]; rewrite E; reflexivity. Qed.

(** A group that takes as little as it can, up to the first character of
    another class: it takes the text [m] in front of it. *)
Lemma piece_group_lazy (n : nat) (p q : ascii -> bool) (m t : string) (b : option ascii)
    (cons : list ascii) (cs : captures) k r :
  allChars (fun c => p c && negb (q c)) m = true ->
  (forall b' cons' c s cs',
      q c = false -> k (Cursor b' (String c s) cons') cs' = None) ->
  k (Cursor (lastOf b m) t (revOnto m cons)) ((n, m) :: cs) = Some r ->
  matchRegex (RGroup n (RStarLazy p)) (Cursor b (m ++ t) cons) cs k = Some r.
Proof.
  intros Hm Hk E. cbn [matchRegex rest].
  rewrite (starLazy_until p q _ m t); [|intros; apply Hk; assumption|exact Hm].
  apply starLazy_here. rewrite textBetween_revOnto. exact E.
Qed.

(** A group of one or more characters of a class, in front of a character
    that is not of it: it takes the whole text [f] of the class. *)
Lemma piece_group_word (n : nat) (p : ascii -> bool) (f t : string) (b : option ascii)
    (cons : list ascii) (cs : captures) k r :
  allChars p f = true -> f <> "" -> startsWithout p t = true ->
  k (Cursor (lastOf b f) t (revOnto f cons)) ((n, f) :: cs) = Some r ->
  matchRegex (RGroup n (RPlus p)) (Cursor b (f ++ t) cons) cs k = Some r.
Proof.
  intros Hf Hne Ht E. destruct f as [|c f]; [congruence|].
  cbn [allChars] in Hf. apply andb_true_iff in Hf as [Hc Hf].
  change (String c f ++ t) with (String c (f ++ t)).
  unfold RPlus. cbn [matchRegex rest]. rewrite Hc. unfold advance. cbn [consumed rest].
  apply (starGreedy_over p _ f t r Hf).
  rewrite starGreedy_stop by exact Ht.
  rewrite (textBetween_revOnto (String c f)). exact E.
Qed.

Lemma piece_optional_skipped (r1 : regex) (cur : cursor) (cs : captures) k (o : option R) :
  matchRegex r1 cur cs k = None ->
  k cur cs = o ->
  matchRegex (ROpt r1) cur cs k = o.
Proof. intros E1 E. cbn [matchRegex]. rewrite E1. exact E. Qed.

Lemma piece_optional_taken (r1 : regex) (cur : cursor) (cs : captures) k r :
  matchRegex r1 cur cs k = Some r ->
  matchRegex (ROpt r1) cur cs k = Some r.
Proof. intros E1. cbn [matchRegex]. rewrite E1. reflexivity. Qed.

Lemma piece_group (n : nat) (r1 : regex) (cur : cursor) (cs : captures) k (o : option R) :
  matchRegex r1 cur cs (fun cur' cs' => k cur' ((n, textBetween cur cur') :: cs')) = o ->
  matchRegex (RGroup n r1) cur cs k = o.
Proof. intros E. exact E. Qed.
End Pieces.

Lemma word_is_no_space (c : ascii) : isWord c = true -> isSpace c = false.
Proof. destruct c as [[] [] [] [] [] [] [] []]; cbv; congruence. Qed.

Lemma startsWithout_word (f t : string) :
  allChars isWord f = true -> f <> "" -> startsWithout isSpace (f ++ t) = true.
Proof.
  intros Hf Hne. destruct f as [|c f]; [congruence|].
  cbn [allChars] in Hf. apply andb_true_iff in Hf as [Hc _].
  change (String c f ++ t) with (String c (f ++ t)). cbn [startsWithout].
  rewrite (word_is_no_space c Hc). reflexivity.
Qed.

(** The optional closing parenthesis of [MACRO] is not taken in front of
    arguments. *)
Lemma closing_not_taken {R} (tail : string) (b : option ascii) (cons : list ascii)
    (cs : captures) (k : cursor -> captures -> option R) :
  startsWithout (fun c => isSpace c || Ascii.eqb c ")") tail = true ->
  matchRegex (RGroup 3 (RSeq (RStar isSpace) (RLit ")"))) (Cursor b tail cons) cs k = None.
Proof.
  intros Htail. apply piece_group, piece_seq.
  destruct tail as [|c t].
  - reflexivity.
  - cbn [startsWithout] in Htail. apply negb_true_iff, orb_false_iff in Htail as [Hs Hc].
    apply piece_no_space; [cbn [startsWithout]; rewrite Hs; reflexivity|].
    apply piece_class_fails. rewrite Ascii.eqb_sym. exact Hc.
Qed.

Lemma MACRO_at_a_site (prev : option ascii) (m f tail : string) :
  allChars (fun c => isDot c && negb (isQuote c)) m = true ->
  allChars isWord f = true -> f <> "" ->
  startsWithout (fun c => isSpace c || Ascii.eqb c ")") tail = true ->
  matchAt JsInlineLoader.MACRO prev ("%inline('" ++ m ++ "')." ++ f ++ "(" ++ tail)
  = Some ((13 + String.length m + String.length f)%nat, [(2%nat, f); (1%nat, m)]).
Proof.
  intros Hm Hf Hne Htail.
  unfold matchAt, JsInlineLoader.MACRO.
  change ("%inline('" ++ m ++ "')." ++ f ++ "(" ++ tail)
    with ("%inline" ++ "(" ++ String "'" (m ++ String "'" (")" ++ "." ++ f ++ "(" ++ tail))).
  apply piece_seq, piece_literal; [discriminate|].
  apply piece_seq, piece_no_space; [reflexivity|].
  apply piece_seq, piece_literal; [discriminate|].
  apply piece_seq, piece_no_space; [reflexivity|].
  apply piece_seq, piece_class; [reflexivity|].
  apply piece_seq, (piece_group_lazy 1 isDot isQuote m); [exact Hm| |].
  { intros b' cons' c s cs' Hq. apply piece_seq, piece_class_fails. exact Hq. }
  apply piece_seq, piece_class; [reflexivity|].
  apply piece_seq, piece_no_space; [reflexivity|].
  apply piece_seq, piece_literal; [discriminate|].
  apply piece_seq, piece_no_space; [reflexivity|].
  apply piece_seq, piece_literal; [discriminate|].
  apply piece_seq, piece_no_space; [apply startsWithout_word; assumption|].
  apply piece_seq, (piece_group_word 2 isWord f); [exact Hf|exact Hne|reflexivity|].
  apply piece_seq, piece_no_space; [reflexivity|].
  apply piece_seq, piece_literal; [discriminate|].
  apply piece_optional_skipped; [apply closing_not_taken; exact Htail|].
  cbn [consumed revOnto length]. rewrite !length_revOnto. cbn [length String.length].
  rewrite !length_revOnto. cbn [length]. f_equal. f_equal. lia.
Qed.

Lemma MACRO_at_an_empty_call (prev : option ascii) (m f rest : string) :
  allChars (fun c => isDot c && negb (isQuote c)) m = true ->
  allChars isWord f = true -> f <> "" ->
  matchAt JsInlineLoader.MACRO prev ("%inline('" ++ m ++ "')." ++ f ++ "()" ++ rest)
  = Some ((14 + String.length m + String.length f)%nat,
          [(3%nat, ")"); (2%nat, f); (1%nat, m)]).
Proof.
  intros Hm Hf Hne.
  unfold matchAt, JsInlineLoader.MACRO.
  change ("%inline('" ++ m ++ "')." ++ f ++ "()" ++ rest)
    with ("%inline" ++ "(" ++ String "'" (m ++ String "'" (")" ++ "." ++ f ++ "("
          ++ ")" ++ rest))).
  apply piece_seq, piece_literal; [discriminate|].
  apply piece_seq, piece_no_space; [reflexivity|].
  apply piece_seq, piece_literal; [discriminate|].
  apply piece_seq, piece_no_space; [reflexivity|].
  apply piece_seq, piece_class; [reflexivity|].
  apply piece_seq, (piece_group_lazy 1 isDot isQuote m); [exact Hm| |].
  { intros b' cons' c s cs' Hq. apply piece_seq, piece_class_fails. exact Hq. }
  apply piece_seq, piece_class; [reflexivity|].
  apply piece_seq, piece_no_space; [reflexivity|].
  apply piece_seq, piece_literal; [discriminate|].
  apply piece_seq, piece_no_space; [reflexivity|].
  apply piece_seq, piece_literal; [discriminate|].
  apply piece_seq, piece_no_space; [apply startsWithout_word; assumption|].
  apply piece_seq, (piece_group_word 2 isWord f); [exact Hf|exact Hne|reflexivity|].
  apply piece_seq, piece_no_space; [reflexivity|].
  apply piece_seq, piece_literal; [discriminate|].
  apply piece_optional_taken, piece_group, piece_seq, piece_no_space; [reflexivity|].
  apply piece_literal; [discriminate|].
  rewrite (textBetween_revOnto ")").
  cbn [consumed revOnto length]. rewrite !length_revOnto. cbn [length String.length].
  rewrite !length_revOnto. cbn [length]. f_equal. f_equal. lia.
Qed.

(** [MACRO] starts with a literal character: what comes before the
    position plays no part, and a position that is not at a percent sign has
    no match. *)
Lemma MACRO_whatever_comes_before (prev prev' : option ascii) (s : string) :
  matchAt JsInlineLoader.MACRO prev s = matchAt JsInlineLoader.MACRO prev' s.
Proof. destruct s; reflexivity. Qed.

Lemma MACRO_not_at_percent (prev : option ascii) (c : ascii) (t : string) :
  Ascii.eqb c "%" = false -> matchAt JsInlineLoader.MACRO prev (String c t) = None.
Proof.
  intros Hc. unfold matchAt, JsInlineLoader.MACRO.
  change (RLit "%inline") with (RSeq (RClass (Ascii.eqb "%")) (RLit "inline")).
  apply piece_seq, piece_seq, piece_class_fails. rewrite Ascii.eqb_sym. exact Hc.
Qed.

Lemma segments_whatever_comes_before (r : regex) :
  (forall prev prev' s, matchAt r prev s = matchAt r prev' s) ->
  forall (s : string) (skip : nat) (prev prev' : option ascii),
    segments r prev s skip = segments r prev' s skip.
Proof.
  intros Hr s. induction s as [|c t IH]; intros skip prev prev'.
  - destruct skip; cbn [segments]; [|reflexivity]. rewrite (Hr prev prev'). reflexivity.
  - destruct skip as [|skip]; cbn [segments]; [|reflexivity].
    rewrite (Hr prev prev'). reflexivity.
Qed.

Lemma segments_skip (r : regex) (a t : string) :
  forall prev : option ascii,
    segments r prev (a ++ t) (String.length a) = segments r (lastOf prev a) t 0.
Proof.
  induction a as [|c a IH]; intros prev; [reflexivity|].
  change (String c a ++ t) with (String c (a ++ t)).
  cbn [String.length segments lastOf]. apply IH.
Qed.

(** A match of the whole of [a] in front of [t]: one segment, and the sweep
    goes on behind it. *)
Lemma segments_match (r : regex) (prev : option ascii) (a t : string) (cs : captures) :
  a <> "" ->
  matchAt r prev (a ++ t) = Some (String.length a, cs) ->
  segments r prev (a ++ t) 0 = SMatch cs :: segments r (lastOf prev a) t 0.
Proof.
  intros Hne Hm. destruct a as [|c a]; [congruence|].
  change (String c a ++ t) with (String c (a ++ t)) in *.
  cbn [segments]. rewrite Hm. cbn [String.length lastOf].
  rewrite segments_skip. reflexivity.
Qed.

Lemma segments_MACRO_characters (pre s : string) :
  hasPercent pre = false ->
  forall prev : option ascii,
    segments JsInlineLoader.MACRO prev (pre ++ s) 0
    = (characters pre ++ segments JsInlineLoader.MACRO (lastOf prev pre) s 0)%list.
Proof.
  induction pre as [|c pre IH]; intros Hpre prev; [reflexivity|].
  cbn [hasPercent] in Hpre. apply orb_false_iff in Hpre as [Hc Hpre].
  change (String c pre ++ s) with (String c (pre ++ s)).
  cbn [segments]. rewrite (MACRO_not_at_percent prev c (pre ++ s) Hc).
  cbn [characters lastOf app]. rewrite (IH Hpre). reflexivity.
Qed.

Lemma normalized_characters (pre : string) (segs : list segment) :
  normalized (characters pre ++ segs)%list = pre ++ normalized segs.
Proof.
  induction pre as [|c pre IH]; [reflexivity|].
  cbn [characters app normalized]. rewrite IH. reflexivity.
Qed.

Lemma String_length_app (a b : string) :
  String.length (a ++ b) = (String.length a + String.length b)%nat.
Proof.
  induction a as [|c a IH]; [reflexivity|].
  change (String c a ++ b) with (String c (a ++ b)). cbn [String.length]. rewrite IH.
  reflexivity.
Qed.

Lemma append_assoc (a b c : string) : (a ++ b) ++ c = a ++ b ++ c.
Proof.
  induction a as [|x a IH]; [reflexivity|].
  change (String x ((a ++ b) ++ c) = String x (a ++ b ++ c)). rewrite IH. reflexivity.
Qed.

(** The sweep at a site whose match is known. *)
Lemma normalized_at_a_site (prev : option ascii) (site t : string) (cs : captures) :
  site <> "" ->
  matchAt JsInlineLoader.MACRO prev (site ++ t) = Some (String.length site, cs) ->
  normalized (segments JsInlineLoader.MACRO prev (site ++ t) 0)
  = ("___js_inline_loader_inline('" ++ toString (group 1 cs) ++ "',"
     ++ toString (group 2 cs) ++ (if truthy (group 3 cs) then ")" else ","))
    ++ normalizedSource t.
Proof.
  intros Hne Hm. rewrite (segments_match _ prev site t cs Hne Hm).
  cbn [normalized]. unfold normalizedSource.
  rewrite (segments_whatever_comes_before _ MACRO_whatever_comes_before t 0
             (lastOf prev site) None).
  reflexivity.
Qed.

(** X27: what the first sweep of [js-inline-loader.js] makes of a site.
    In front of it, a text without a percent sign is copied.  The site
    [%inline('m').f(], with a module name [m] free of quotes and line ends
    and a function name [f] of word characters, becomes
    [___js_inline_loader_inline('m',f,] when arguments follow, and
    [___js_inline_loader_inline('m',f)] when the call is closed at once; the
    text behind it is swept in the same way. *)
Theorem X27_normalisation_of_a_site (pre m f : string) :
  hasPercent pre = false ->
  allChars (fun c => isDot c && negb (isQuote c)) m = true ->
  allChars isWord f = true ->
  f <> "" ->
  (forall tail : string,
      startsWithout (fun c => isSpace c || Ascii.eqb c ")") tail = true ->
      normalizedSource (pre ++ "%inline('" ++ m ++ "')." ++ f ++ "(" ++ tail)
      = pre ++ "___js_inline_loader_inline('" ++ m ++ "'," ++ f ++ ","
        ++ normalizedSource tail)
  /\ (forall rest : string,
         normalizedSource (pre ++ "%inline('" ++ m ++ "')." ++ f ++ "()" ++ rest)
         = pre ++ "___js_inline_loader_inline('" ++ m ++ "'," ++ f ++ ")"
           ++ normalizedSource rest).
Proof.
  intros Hpre Hm Hf Hne. split.
  - intros tail Htail. unfold normalizedSource at 1.
    rewrite (segments_MACRO_characters pre _ Hpre), normalized_characters.
    f_equal.
    pose proof (MACRO_at_a_site (lastOf None pre) m f tail Hm Hf Hne Htail) as Hsite.
    replace ("%inline('" ++ m ++ "')." ++ f ++ "(" ++ tail)
      with (("%inline('" ++ m ++ "')." ++ f ++ "(") ++ tail) in *
      by (rewrite !append_assoc; reflexivity).
    rewrite (normalized_at_a_site _ _ tail [(2%nat, f); (1%nat, m)]).
    + cbn [group capture Nat.eqb toString truthy]. rewrite !append_assoc. reflexivity.
    + discriminate.
    + rewrite Hsite. f_equal. f_equal.
      rewrite !String_length_app. cbn [String.length]. lia.
  - intros rest. unfold normalizedSource at 1.
    rewrite (segments_MACRO_characters pre _ Hpre), normalized_characters.
    f_equal.
    pose proof (MACRO_at_an_empty_call (lastOf None pre) m f rest Hm Hf Hne) as Hsite.
    replace ("%inline('" ++ m ++ "')." ++ f ++ "()" ++ rest)
      with (("%inline('" ++ m ++ "')." ++ f ++ "()") ++ rest) in *
      by (rewrite !append_assoc; reflexivity).
    rewrite (normalized_at_a_site _ _ rest [(3%nat, ")"); (2%nat, f); (1%nat, m)]).
    + cbn [group capture Nat.eqb toString truthy]. rewrite !append_assoc. reflexivity.
    + discriminate.
    + rewrite Hsite. f_equal. f_equal.
      rewrite !String_length_app. cbn [String.length]. lia.
Qed.

Lemma X27_witness :
  normalizedSource "var a = %inline('lib/math').sum(1, 2) + %inline('lib/math').zero();"
  = "var a = ___js_inline_loader_inline('lib/math',sum,1, 2) + "
    ++ "___js_inline_loader_inline('lib/math',zero);".
Proof.
  destruct (X27_normalisation_of_a_site "var a = " "lib/math" "sum"
              eq_refl eq_refl eq_refl ltac:(discriminate)) as [Hargs _].
  destruct (X27_normalisation_of_a_site "1, 2) + " "lib/math" "zero"
              eq_refl eq_refl eq_refl ltac:(discriminate)) as [_ Hempty].
  change (normalizedSource
            ("var a = " ++ "%inline('" ++ "lib/math" ++ "')." ++ "sum" ++ "("
             ++ "1, 2) + " ++ "%inline('" ++ "lib/math" ++ "')." ++ "zero" ++ "()" ++ ";")
          = "var a = " ++ "___js_inline_loader_inline('" ++ "lib/math" ++ "'," ++ "sum" ++ ","
            ++ "1, 2) + " ++ "___js_inline_loader_inline('" ++ "lib/math" ++ "'," ++ "zero"
            ++ ")" ++ ";").
  rewrite (Hargs ("1, 2) + " ++ "%inline('" ++ "lib/math" ++ "')." ++ "zero" ++ "()" ++ ";")
             eq_refl), (Hempty ";").
  reflexivity.
Defined.

Section MorePieces.
Context {R : Type}.

(** A lazy repetition goes on over a text as long as the rest of the
    pattern fails in front of each of its non-empty ends. *)
Lemma starLazy_through (p : ascii -> bool) (k : cursor -> option R) (m t : string) :
  allChars p m = true ->
  (forall b cons (m1 m2 : string),
      m = m1 ++ m2 -> m2 <> "" -> k (Cursor b (m2 ++ t) cons) = None) ->
  forall (b : option ascii) (cons : list ascii),
    starLazy p k (m ++ t) (Cursor b (m ++ t) cons)
    = starLazy p k t (Cursor (lastOf b m) t (revOnto m cons)).
Proof.
  induction m as [|c m IH]; intros Hm Hk b cons; [reflexivity|].
  cbn [allChars] in Hm. apply andb_true_iff in Hm as [Hp Hm].
  change (String c m ++ t) with (String c (m ++ t)).
  cbn [starLazy].
  assert (E : k (Cursor b (String c (m ++ t)) cons) = None).
  { apply (Hk b cons "" (String c m)); [reflexivity|discriminate]. }
  rewrite E, Hp. unfold advance. cbn [consumed].
  apply (IH Hm). intros b' cons' m1 m2 -> Hne.
  apply (Hk b' cons' (String c m1) m2); [reflexivity|exact Hne].
Qed.

Lemma piece_group_lazy_through (n : nat) (p : ascii -> bool) (m t : string)
    (b : option ascii) (cons : list ascii) (cs : captures)
    (k : cursor -> captures -> option R) (r : R) :
  allChars p m = true ->
  (forall b' cons' cs' (m1 m2 : string),
      m = m1 ++ m2 -> m2 <> "" -> k (Cursor b' (m2 ++ t) cons') cs' = None) ->
  k (Cursor (lastOf b m) t (revOnto m cons)) ((n, m) :: cs) = Some r ->
  matchRegex (RGroup n (RStarLazy p)) (Cursor b (m ++ t) cons) cs k = Some r.
Proof.
  intros Hm Hk E. cbn [matchRegex rest].
  rewrite (starLazy_through p _ m t Hm); [|intros; eapply Hk; eassumption].
  apply starLazy_here. rewrite textBetween_revOnto. exact E.
Qed.

Lemma piece_bol_at_start (rest_ : string) (cons : list ascii) (cs : captures)
    (k : cursor -> captures -> option R) (o : option R) :
  k (Cursor None rest_ cons) cs = o ->
  matchRegex RBol (Cursor None rest_ cons) cs k = o.
Proof. intros E. exact E. Qed.

Lemma piece_eol_at_end (b : option ascii) (cons : list ascii) (cs : captures)
    (k : cursor -> captures -> option R) (o : option R) :
  k (Cursor b "" cons) cs = o ->
  matchRegex REol (Cursor b "" cons) cs k = o.
Proof. intros E. exact E. Qed.

(** A group over a whole text of a class (it may be empty), in front of a
    character that is not of it. *)
Lemma piece_group_star (n : nat) (p : ascii -> bool) (f t : string) (b : option ascii)
    (cons : list ascii) (cs : captures) (k : cursor -> captures -> option R) (r : R) :
  allChars p f = true -> startsWithout p t = true ->
  k (Cursor (lastOf b f) t (revOnto f cons)) ((n, f) :: cs) = Some r ->
  matchRegex (RGroup n (RStar p)) (Cursor b (f ++ t) cons) cs k = Some r.
Proof.
  intros Hf Ht E. cbn [matchRegex rest].
  apply (starGreedy_over p _ f t r Hf).
  rewrite starGreedy_stop by exact Ht.
  rewrite textBetween_revOnto. exact E.
Qed.
End MorePieces.

Lemma hasPercent_app (a b : string) : hasPercent (a ++ b) = hasPercent a || hasPercent b.
Proof.
  induction a as [|c a IH]; [reflexivity|].
  change (String c a ++ b) with (String c (a ++ b)). cbn [hasPercent]. rewrite IH.
  apply orb_assoc.
Qed.

Lemma word_has_no_percent (f : string) : allChars isWord f = true -> hasPercent f = false.
Proof.
  induction f as [|c f IH]; [reflexivity|]. cbn [allChars hasPercent].
  intros Hf. apply andb_true_iff in Hf as [Hc Hf]. rewrite (IH Hf), orb_false_r.
  destruct c as [[] [] [] [] [] [] [] []]; cbv in Hc |- *; congruence.
Qed.

Lemma blank_is_space (c : ascii) : isBlank c = true -> isSpace c = true.
Proof. destruct c as [[] [] [] [] [] [] [] []]; cbv; congruence. Qed.

Lemma allChars_app (p : ascii -> bool) (a b : string) :
  allChars p (a ++ b) = allChars p a && allChars p b.
Proof.
  induction a as [|c a IH]; [reflexivity|].
  change (String c a ++ b) with (String c (a ++ b)). cbn [allChars]. rewrite IH.
  apply andb_assoc.
Qed.

(** The closing [);] of [INLINE_MACRO] is not found inside a text without
    a semicolon. *)
Lemma closing_not_inside {R} (m2 : string) (b : option ascii) (cons : list ascii)
    (cs : captures) (k : cursor -> captures -> option R) :
  allChars (fun c => negb (Ascii.eqb c ";")) m2 = true -> m2 <> "" ->
  matchRegex (RSeq (RLit ");") REol) (Cursor b (m2 ++ ");") cons) cs k = None.
Proof.
  intros Hm Hne. destruct m2 as [|c m2]; [congruence|].
  cbn [allChars] in Hm. apply andb_true_iff in Hm as [_ Hm].
  change (String c m2 ++ ");") with (String c (m2 ++ ");")).
  change (RLit ");") with (RSeq (RClass (Ascii.eqb ")")) (RClass (Ascii.eqb ";"))).
  apply piece_seq, piece_seq.
  destruct (Ascii.eqb ")" c) eqn:Ec; [|apply piece_class_fails; exact Ec].
  apply piece_class; [exact Ec|].
  destruct m2 as [|c' m2].
  - apply piece_class_fails. reflexivity.
  - cbn [allChars] in Hm. apply andb_true_iff in Hm as [Hc' _].
    apply negb_true_iff in Hc'.
    change (String c' m2 ++ ");") with (String c' (m2 ++ ");")).
    apply piece_class_fails. rewrite Ascii.eqb_sym. exact Hc'.
Qed.

Lemma INLINE_MACRO_macroCall :
  FunctionInlineLoader.INLINE_MACRO
  = RSeq RBol
      (RSeq (RGroup 1 (RStar isBlank))
         (RSeq (ROpt (RGroup 2 (RSeq (RClass (fun c => negb (isSpace c))) (RStar isDot))))
            macroCall)).
Proof. reflexivity. Qed.

(** The macro itself, from the text %inline to the end of its line. *)
Lemma macroCall_at_a_site (file f args : string) (b : option ascii) (cons : list ascii)
    (cs : captures) :
  allChars (fun c => negb (isQuote c)) file = true -> file <> "" ->
  allChars isWord f = true -> f <> "" ->
  allChars (fun c => negb (Ascii.eqb c ";")) args = true ->
  matchRegex macroCall
    (Cursor b ("%inline('" ++ file ++ "')." ++ f ++ "(" ++ args ++ ");") cons) cs
    (fun cur cs' => Some (length (consumed cur), cs'))
  = Some ((length cons
           + String.length ("%inline('" ++ file ++ "')." ++ f ++ "(" ++ args ++ ");"))%nat,
          (5%nat, args) :: (4%nat, f) :: (3%nat, file) :: cs).
Proof.
  intros Hfile Hfne Hf Hne Hargs. unfold macroCall.
  change ("%inline('" ++ file ++ "')." ++ f ++ "(" ++ args ++ ");")
    with ("%inline" ++ "(" ++ String "'" (file ++ String "'" (")" ++ "." ++ f
          ++ "(" ++ args ++ ");"))).
  apply piece_seq, piece_literal; [discriminate|].
  apply piece_seq, piece_no_space; [reflexivity|].
  apply piece_seq, piece_literal; [discriminate|].
  apply piece_seq, piece_no_space; [reflexivity|].
  apply piece_seq, piece_class; [reflexivity|].
  apply piece_seq, (piece_group_word 3 (fun c => negb (isQuote c)) file);
    [exact Hfile|exact Hfne|reflexivity|].
  apply piece_seq, piece_class; [reflexivity|].
  apply piece_seq, piece_no_space; [reflexivity|].
  apply piece_seq, piece_literal; [discriminate|].
  apply piece_seq, piece_no_space; [reflexivity|].
  apply piece_seq, piece_literal; [discriminate|].
  apply piece_seq, (piece_group_word 4 isWord f); [exact Hf|exact Hne|reflexivity|].
  apply piece_seq, piece_no_space; [reflexivity|].
  apply piece_seq, piece_literal; [discriminate|].
  apply piece_seq, (piece_group_lazy_through 5 (fun _ => true) args ");").
  { clear. induction args as [|c a IH]; [reflexivity|exact IH]. }
  { intros b' cons' cs' m1 m2 Eargs Hm2. apply closing_not_inside; [|exact Hm2].
    rewrite Eargs, allChars_app in Hargs. apply andb_true_iff in Hargs as [_ H2]. exact H2. }
  change (Cursor ?b ");" ?c) with (Cursor b (");" ++ "") c).
  apply piece_seq, piece_literal; [discriminate|].
  apply piece_eol_at_end.
  f_equal. f_equal.
  cbn [consumed revOnto].
  repeat (progress (rewrite ?length_revOnto, ?String_length_app; cbn [length String.length])).
  lia.
Qed.

(** A greedy repetition that runs into the percent sign of the macro comes
    back to it: behind that sign there is no other. *)
Lemma piece_star_to_the_percent {R} (p : ascii -> bool) (a t : string) (b : option ascii)
    (cons : list ascii) (cs : captures) (k : cursor -> captures -> option R) (r : R) :
  allChars p a = true ->
  hasPercent t = false ->
  (forall cur' cs', clean cur' -> k cur' cs' = None) ->
  k (Cursor (lastOf b a) (String "%" t) (revOnto a cons)) cs = Some r ->
  matchRegex (RStar p) (Cursor b (a ++ String "%" t) cons) cs k = Some r.
Proof.
  intros Ha Ht Hk E. cbn [matchRegex rest].
  apply (starGreedy_over p _ a (String "%" t) r Ha).
  cbn [starGreedy]. destruct (p "%"%char); [|exact E].
  rewrite starGreedy_clean; [exact E| |exact Ht|exact Ht].
  intros cur' Hcur'. apply Hk. exact Hcur'.
Qed.

Lemma INLINE_MACRO_at_a_site (indent assign file f args : string) :
  allChars isBlank indent = true ->
  startsWithout isSpace assign = true -> allChars isDot assign = true ->
  allChars (fun c => negb (isQuote c)) file = true -> file <> "" ->
  hasPercent file = false ->
  allChars isWord f = true -> f <> "" ->
  allChars (fun c => negb (Ascii.eqb c ";")) args = true ->
  hasPercent args = false ->
  matchAt FunctionInlineLoader.INLINE_MACRO None
    (indent ++ assign ++ "%inline('" ++ file ++ "')." ++ f ++ "(" ++ args ++ ");")
  = Some (String.length
            (indent ++ assign ++ "%inline('" ++ file ++ "')." ++ f ++ "(" ++ args ++ ");"),
          (5%nat, args) :: (4%nat, f) :: (3%nat, file)
          :: (if String.eqb assign "" then [] else [(2%nat, assign)])
          ++ [(1%nat, indent)])%list.
Proof.
  intros Hindent Hstart Hassign Hfile Hfne Hfp Hf Hne Hargs Hap.
  assert (Hclean : hasPercent ("inline('" ++ file ++ "')." ++ f ++ "(" ++ args ++ ");")
                   = false).
  { rewrite !hasPercent_app, Hfp, Hap, (word_has_no_percent f Hf). reflexivity. }
  unfold matchAt. rewrite INLINE_MACRO_macroCall.
  apply piece_seq, piece_bol_at_start.
  destruct assign as [|a0 assign].
  - (* nothing in front of the macro *)
    change ("" ++ ?t) with t.
    apply piece_seq, (piece_group_star 1 isBlank indent); [exact Hindent|reflexivity|].
    apply piece_seq, piece_optional_skipped.
    { apply piece_group, piece_seq.
      change ("%inline('" ++ ?t) with (String "%" ("inline('" ++ t)).
      apply piece_class; [reflexivity|].
      apply matchRegex_clean; [exact Hclean|].
      intros cur' cs' Hcur'. apply percent_inline_clean. exact Hcur'. }
    rewrite macroCall_at_a_site by assumption.
    f_equal. f_equal. rewrite length_revOnto, !String_length_app. cbn [length]. lia.
  - (* a text in front of the macro *)
    cbn [startsWithout] in Hstart. cbn [allChars] in Hassign.
    apply andb_true_iff in Hassign as [_ Hassign].
    change (String a0 assign ++ ?t) with (String a0 (assign ++ t)).
    apply piece_seq, (piece_group_star 1 isBlank indent); [exact Hindent| |].
    { cbn [startsWithout]. destruct (isBlank a0) eqn:Eb; [|reflexivity].
      rewrite (blank_is_space a0 Eb) in Hstart. discriminate. }
    apply piece_seq, piece_optional_taken, piece_group, piece_seq.
    apply piece_class; [exact Hstart|].
    change ("%inline('" ++ ?t) with (String "%" ("inline('" ++ t)).
    apply piece_star_to_the_percent; [exact Hassign|exact Hclean| |].
    { intros cur' cs' Hcur'. apply percent_inline_clean. exact Hcur'. }
    rewrite (textBetween_revOnto (String a0 assign)).
    change (String "%" ("inline('" ++ ?t)) with ("%inline('" ++ t).
    rewrite macroCall_at_a_site by assumption.
    f_equal. f_equal.
    cbn [revOnto].
    repeat (progress (rewrite ?length_revOnto, ?String_length_app;
                      cbn [length String.length])).
    lia.
Qed.

Lemma replaceAll_one_site (callback : captures -> io string) (cs : captures)
    (st : loaderState) :
  replaceAll callback [SMatch cs] st = callback cs st.
Proof.
  cbn [replaceAll]. unfold iobind, ret.
  destruct (callback cs st) as [st' [s|e]]; [|reflexivity].
  rewrite append_empty. reflexivity.
Qed.

(** X28: a source that is one line with a site of
    [function-inline-loader.js], that is blanks, possibly a text in front of
    the macro, and [%inline('file').f(args);], is one match of the pattern
    from its first to its last character, and the transform answers with
    what the callback answers on the five groups: the blanks, the text in
    front (or [undefined]), the file, the function and the argument text.
    The whole line, its closing parenthesis and semicolon included, makes
    place for that answer. *)
Theorem X28_site_line_goes_to_the_callback
    (H : host) (indent assign file f args : string) (st : loaderState) :
  allChars isBlank indent = true ->
  startsWithout isSpace assign = true -> allChars isDot assign = true ->
  allChars (fun c => negb (isQuote c)) file = true -> file <> "" ->
  hasPercent file = false ->
  allChars isWord f = true -> f <> "" ->
  allChars (fun c => negb (Ascii.eqb c ";")) args = true ->
  hasPercent args = false ->
  FunctionInlineLoader.module_exports H
    (indent ++ assign ++ "%inline('" ++ file ++ "')." ++ f ++ "(" ++ args ++ ");") st
  = FunctionInlineLoader.inlineMacro H (VStr indent) (assignGroup assign) (VStr file)
      (VStr f) (VStr args) (madeCacheable st).
Proof.
  intros Hindent Hstart Hassign Hfile Hfne Hfp Hf Hne Hargs Hap.
  pose proof (INLINE_MACRO_at_a_site indent assign file f args
                Hindent Hstart Hassign Hfile Hfne Hfp Hf Hne Hargs Hap) as Hsite.
  set (source := indent ++ assign ++ "%inline('" ++ file ++ "')." ++ f ++ "(" ++ args ++ ");")
    in *.
  assert (Hsource : source <> "").
  { intros E. apply (f_equal String.length) in E. unfold source in E.
    rewrite !String_length_app in E. cbn [String.length] in E. lia. }
  unfold FunctionInlineLoader.module_exports, iobind, cacheable.
  change (LoaderState (errors st) (dependencies st) true (consoleOut st))
    with (madeCacheable st).
  rewrite <- (append_empty source) at 1. rewrite <- (append_empty source) in Hsite at 1.
  rewrite (segments_match _ None source "" _ Hsource Hsite).
  cbn [segments].
  rewrite (INLINE_MACRO_needs_percent (lastOf None source) "" eq_refl).
  rewrite replaceAll_one_site. unfold FunctionInlineLoader.callback, assignGroup.
  destruct (String.eqb assign ""); reflexivity.
Qed.

Lemma X28_witness :
  FunctionInlineLoader.module_exports demoHost "  var a = %inline('m').f(1, 2, 3);"
    initialState
  = (LoaderState [] ["/src/m"] true ["  var a = 1 + 2 + 3"], Ok "  var a = 1 + 2 + 3").
Proof.
  change "  var a = %inline('m').f(1, 2, 3);"
    with ("  " ++ "var a = " ++ "%inline('" ++ "m" ++ "')." ++ "f" ++ "(" ++ "1, 2, 3" ++ ");").
  rewrite (X28_site_line_goes_to_the_callback demoHost "  " "var a = " "m" "f" "1, 2, 3"
             initialState);
    try reflexivity; try discriminate.
Defined.

(** ** The names every object inherits *)

Lemma objectMembers_builtin (m : string) :
  assoc m objectMembers <> None ->
  exists (name : string) (arity : Z),
    assoc m objectMembers = Some (builtin name arity)
    /\ String.eqb m "__proto__" = false
    /\ String.eqb m "exported" = false
    /\ String.eqb m "ast" = false.
Proof.
  unfold objectMembers. cbn [assoc].
  repeat match goal with
         | |- context [if String.eqb m ?k then _ else _] =>
             let E := fresh "E" in
             destruct (String.eqb m k) eqn:E;
             [intros _; apply String.eqb_eq in E; subst m; eexists _, _;
              repeat split; reflexivity|]
         end.
  intros Hm. congruence.
Qed.

Lemma readKey_member (functions : scope) (m : string) :
  own functions !! m = None ->
  assoc m objectMembers <> None ->
  exists (name : string) (arity : Z), readKey functions m = Other (builtin name arity).
Proof.
  intros Hown Hm.
  destruct (objectMembers_builtin m Hm) as (name & arity & Ha & Hp & He & Hast).
  exists name, arity. unfold readKey, inherited. rewrite Hown, Hp, He, Hast, Ha.
  destruct (proto functions); reflexivity.
Qed.

(** X29: the bag takes a member that every object inherits for a recorded
    function.  A property [key: m] whose [m] is the name of such a member
    ([toString], [constructor], [hasOwnProperty], ...), and is no key of the
    table, passes the test [scopeFunctions[m] !== undefined]: [key] enters
    the result, and what it holds there is the field [ast] of a built-in
    function, that is [undefined].  (For [key] equal to [m] the mark is set
    on the built-in function and the result stays as it was; for the key
    [__proto__] the record becomes the prototype of the table.) *)
Theorem X29_reference_to_an_inherited_member
    (pre : list value) (functions : scope) (key m : string) (sh : bool) :
  foldM exportStep pre ∅ = Ok functions ->
  own functions !! m = None ->
  assoc m objectMembers <> None ->
  getExportedFunctions
    (Program (pre ++ [exportsAssignment [Property (Identifier key) (Identifier m) sh]]))
  = Ok (if String.eqb key m || String.eqb key "__proto__" then keepExported functions
        else <[key := VUndef]> (keepExported functions)).
Proof.
  intros Hpre Hown Hm.
  destruct (readKey_member functions m Hown Hm) as (name & arity & R).
  assert (Hbag : exists functions',
             bagProperty functions (Property (Identifier key) (Identifier m) sh)
             = Ok functions'
             /\ keepExported functions'
                = if String.eqb key m || String.eqb key "__proto__"
                  then keepExported functions
                  else <[key := VUndef]> (keepExported functions)).
  { unfold bagProperty, Property, Identifier.
    cbn -[readKey setEntry markExported]. rewrite R. cbn [isDefined strictEq negb bind].
    destruct (String.eqb key m) eqn:E; cbn [orb].
    - apply String.eqb_eq in E. subst key. unfold markExported. rewrite R.
      exists functions. split; reflexivity.
    - cbn [reference builtin get assoc String.eqb Ascii.eqb Bool.eqb default bind id].
      eexists. split; [reflexivity|].
      rewrite keepExported_assigned by reflexivity. reflexivity. }
  destruct Hbag as (functions' & Hbag & <-).
  apply (getExportedFunctions_after pre functions); [exact Hpre|].
  rewrite exportStep_exportsAssignment. cbn [foldM]. rewrite Hbag. reflexivity.
Qed.

(** [export function f(a) { return a; }  module.exports = { show: toString };] *)
Lemma X29_witness :
  let f := FunctionDeclaration "f" [Identifier "a"] [ReturnStatement (Identifier "a")] in
  exists table : gmap string value,
    getExportedFunctions
      (Program ([ExportNamedDeclaration f]
                ++ [exportsAssignment [Property (Identifier "show") (Identifier "toString")
                                         false]]))
    = Ok table
    /\ table !! "show" = Some VUndef /\ table !! "f" = Some f
    /\ lookupFunction table (VStr "show") = VUndef.
Proof.
  intros f. eexists. split.
  - apply (X29_reference_to_an_inherited_member [ExportNamedDeclaration f]
             (Scope {[ "f" := Entry true f 0 0 ]} None false 1) "show" "toString" false).
    + vm_compute. reflexivity.
    + vm_compute. reflexivity.
    + discriminate.
  - vm_compute. repeat split; reflexivity.
Defined.

Lemma inherited_object (g : string) :
  inherited g <> VUndef ->
  exists fs : list (string * value),
    inherited g = VObj fs /\ assoc "params" fs = None /\ assoc "body" fs = None.
Proof.
  unfold inherited. destruct (String.eqb g "__proto__").
  - intros _. eexists. split; [reflexivity|]. split; reflexivity.
  - intros Hg. destruct (assoc g objectMembers) as [v|] eqn:E;
      [|exfalso; apply Hg; reflexivity].
    destruct (objectMembers_builtin g) as (name & arity & Ha & _); [congruence|].
    rewrite E in Ha. injection Ha as ->.
    eexists. split; [reflexivity|]. split; reflexivity.
Qed.

Lemma substituteArguments_without_params (args : list value) (fs : list (string * value)) :
  assoc "params" fs = None ->
  substituteArguments (VArr args) (VObj fs)
  = match args with
    | [] => Ok (VObj fs)
    | _ :: _ => Throw TypeError
    end.
Proof.
  intros Hp. unfold substituteArguments. cbn [get String.eqb Ascii.eqb Bool.eqb bind iterations].
  rewrite Nat2Z.id. destruct args as [|a args]; [reflexivity|].
  cbn [length substituteFrom get bind]. rewrite Hp. reflexivity.
Qed.

(** X30: a site that names a member every object inherits
    ([%inline('m').toString()], [constructor], [__proto__], ...), where the
    module has no function of that name, is not answered as an unknown
    function: the read of the table finds the inherited member, which is
    not [undefined], and the first read of its parameters or of its body
    throws.  In both loaders the transform ends with that error; the module
    has been added as a dependency and no diagnostic has been emitted. *)
Theorem X30_site_naming_an_inherited_member_raises
    (H : host) (gModule contents g : string) (tree : value) (table : gmap string value) :
  loadModuleContents H (path_resolve H (context H) gModule) = Some contents ->
  esprima_parse H (Some contents) moduleOptions = Ok tree ->
  getExportedFunctions tree = Ok table ->
  table !! g = None ->
  inherited g <> VUndef ->
  (forall (args : list value) (st : loaderState),
      JsInlineLoader.getFunctionCode H (VStr gModule) (VStr g) (VArr args) st
      = (withDependency st (path_resolve H (context H) gModule), Throw TypeError))
  /\ (forall (gIndent gAssignExpr gArgs : value) (st : loaderState),
         exists e : exn,
           FunctionInlineLoader.inlineMacro H gIndent gAssignExpr (VStr gModule) (VStr g)
             gArgs st
           = (withDependency st (path_resolve H (context H) gModule), Throw e)).
Proof.
  intros Hl Hp Hx Hn Hg.
  destruct (inherited_object g Hg) as (fs & Hi & Hparams & Hbody).
  assert (Hlook : lookupFunction table (VStr g) = VObj fs).
  { unfold lookupFunction. rewrite toString_str, Hn. exact Hi. }
  split.
  - intros args st. unfold JsInlineLoader.getFunctionCode, iobind, lift. simpl.
    rewrite Hl, Hp. unfold addDependency. rewrite Hx, Hlook. cbn [truthy negb].
    rewrite (substituteArguments_without_params args fs Hparams).
    destruct args as [|a args]; [|reflexivity].
    unfold JsInlineLoader.renderFunction. cbn [get bind]. rewrite Hbody. reflexivity.
  - intros gIndent gAssignExpr gArgs st.
    unfold FunctionInlineLoader.inlineMacro, iobind, lift. simpl.
    rewrite Hl, Hp. unfold addDependency. rewrite Hx, Hlook. cbn [truthy negb].
    destruct (compileArgumentAst H (toString gArgs)) as [fnArgs|e]; [|eexists; reflexivity].
    destruct (get fnArgs "length") as [alen|e]; [|eexists; reflexivity].
    cbn [get bind]. rewrite Hparams. eexists. reflexivity.
Qed.

(** [%inline('m').toString(1, 2);] with the module
    [export function f(a, b, c) { return a + b + c; }] *)
Lemma X30_witness :
  JsInlineLoader.getFunctionCode demoHost (VStr "m") (VStr "toString")
    (VArr [NumLiteral 1; NumLiteral 2]) initialState
  = (LoaderState [] ["/src/m"] false [], Throw TypeError)
  /\ FunctionInlineLoader.module_exports demoHost "%inline('m').toString(1, 2);" initialState
     = (LoaderState [] ["/src/m"] true [], Throw TypeError).
Proof.
  destruct (X30_site_naming_an_inherited_member_raises demoHost "m" sumText "toString"
              sumTree
              {[ "f" := FunctionDeclaration "f"
                          [Identifier "a"; Identifier "b"; Identifier "c"]
                          [ReturnStatement
                             (BinaryExpression "+"
                                (BinaryExpression "+" (Identifier "a") (Identifier "b"))
                                (Identifier "c"))] ]})
    as [HB _].
  - reflexivity.
  - reflexivity.
  - vm_compute. reflexivity.
  - vm_compute. reflexivity.
  - vm_compute. discriminate.
  - split; [exact (HB _ _)|vm_compute; reflexivity].
Defined.
